(** * GitHubProjects page: state, handlers and derived views

    A shallow embedding of [src/pages/GitHubProjects.tsx].  The React
    component keeps eight pieces of state; its event handlers read the values
    captured by the render they were created in and enqueue state updates;
    after the updates are committed, the two [useEffect] hooks mirror
    [projects] and [globalCategories] to the persistence module.

    Calls that leave the component (the store, the GitHub client, the console)
    are recorded in a trace, so that what the page asks of its collaborators
    can be stated without modelling the collaborators themselves.

    Numbers are JavaScript's: the language breakdown is computed on
    primitive binary64 floats, and what is proved of it rests on the
    Standard Library's specification of those operations ([SpecFloat],
    [FloatAxioms]).

    The file has two parts: the embedding (built-ins, data model, state,
    handlers, derived views, and the vocabulary the statements use), then
    the properties. *)

From Stdlib Require Import List String Ascii Bool Arith ZArith Lia.
From Stdlib Require Import Permutation Sorted DecimalString.
From Stdlib Require Import Floats.
From Stdlib Require Uint63.
From Stdlib Require DecimalZ DecimalPos.
Import ListNotations.

Set Implicit Arguments.

(** ** JavaScript built-ins used by the page *)

Module JS.

(** [a === b] on strings. *)
Definition seq (a b : string) : bool := String.eqb a b.

(** [s.includes(sub)]: [sub] occurs somewhere in [s]. *)
Fixpoint includes (s sub : string) : bool :=
  if String.prefix sub s then true
  else match s with
       | EmptyString => false
       | String _ s' => includes s' sub
       end.

(** [s.split(sep)] for a one-character separator. *)
Fixpoint split (sep : ascii) (s : string) : list string :=
  match s with
  | EmptyString => [EmptyString]
  | String c s' =>
      if Ascii.eqb c sep then EmptyString :: split sep s'
      else match split sep s' with
           | [] => [String c EmptyString]
           | w :: ws => String c w :: ws
           end
  end.

(** [n.toString()] for an integer-valued number. *)
Definition toString (n : Z) : string := NilZero.string_of_int (Z.to_int n).

(** [x || d] where [x] is an array or [undefined]: arrays are truthy,
    the empty one included. *)
Definition orElse {A} (x : option (list A)) (d : list A) : list A :=
  match x with Some l => l | None => d end.

(** [x || d] on strings: the empty string is falsy, like [undefined]. *)
Definition orElseStr (x : option string) (d : string) : string :=
  match x with
  | Some EmptyString | None => d
  | Some s => s
  end.

(** [l.some(f)], [l.every(f)], [l.find(f)] and [l.filter(f)]. *)
Definition some {A} (f : A -> bool) (l : list A) : bool := existsb f l.
Definition every {A} (f : A -> bool) (l : list A) : bool := forallb f l.
Definition find {A} (f : A -> bool) (l : list A) : option A := List.find f l.

(** Truthiness of the result of [find] on an array of objects. *)
Definition truthy {A} (x : option A) : bool :=
  match x with Some _ => true | None => false end.

End JS.

(** ** Data model *)

Module Category.
Record t := mk { id : string; name : string; color : string }.
End Category.

Module Language.
Record t := mk { name : string; percentage : float }.
End Language.

Module Release.
Record t := mk { name : string; published_at : string; url : string }.
End Release.

Module Stats.
Record t := mk { stars : Z; forks : Z; watchers : Z; issues : Z }.
End Stats.

Module Project.
(** [categories] is declared as an array, but the page guards every read
    with [|| []] or [?.]: records loaded from the store may lack it. *)
Record t := mk {
  id : string;
  name : string;
  description : string;
  category : string;
  url : string;
  logo : option string;
  owner : string;
  stats : Stats.t;
  lastActivity : string;
  contributors : Z;
  branches : Z;
  commits : Z;
  pullRequests : Z;
  categories : option (list Category.t);
  languages : list Language.t;
  topics : list string;
  license : option string;
  size : option Z;
  lastRelease : option Release.t;
  homepage : option string
}.

(** [{...project, categories: cs}] *)
Definition with_categories (p : t) (cs : list Category.t) : t :=
  mk (id p) (name p) (description p) (category p) (url p) (logo p)
     (owner p) (stats p) (lastActivity p) (contributors p) (branches p)
     (commits p) (pullRequests p) (Some cs) (languages p) (topics p)
     (license p) (size p) (lastRelease p) (homepage p).

(** [project.categories || []] *)
Definition cats (p : t) : list Category.t := JS.orElse (categories p) [].
End Project.

(** The records of [utils/github], as the page reads them. *)

Module GitHubRepo.
(** Modelled from the spec: the type [GitHubRepo] of [utils/github], which
    is not among the sources; the fields are those [handleSelectRepo] reads
    ([owner.avatar_url], [owner.login] and [license?.name] are flattened). *)
Record t := mk {
  id : Z;
  full_name : string;
  name : string;
  description : option string;
  html_url : string;
  owner_avatar_url : string;
  owner_login : string;
  stargazers_count : Z;
  forks_count : Z;
  watchers_count : Z;
  open_issues_count : Z;
  updated_at : string;
  license_name : option string;
  size : Z;
  homepage : option string
}.
End GitHubRepo.

Module RepoRelease.
(** Modelled from the spec: the [lastRelease] of the details, as
    [getRepoDetails] of [utils/github] returns it. *)
Record t := mk { name : string; published_at : string; html_url : string }.
End RepoRelease.

Module RepoDetails.
(** Modelled from the spec: the result of [getRepoDetails] of
    [utils/github], which is not among the sources.  [languages] is a
    JavaScript object from language name to byte count; it is kept as the
    list [Object.entries] enumerates. *)
Record t := mk {
  languages : list (string * float);
  contributors : Z;
  branches : Z;
  commits : Z;
  pullRequests : Z;
  topics : option (list string);
  lastRelease : option RepoRelease.t
}.
End RepoDetails.

(** Outcome of awaiting [getRepoDetails]. *)
Inductive FetchResult :=
| Resolved (details : RepoDetails.t)
| Rejected (error : string).

(** ** Component state *)

Record State := mkState {
  selectedProject : option Project.t;
  isCategoryDialogOpen : bool;
  projectSearch : string;
  selectedCategories : list string;
  projects : list Project.t;
  globalCategories : list Category.t;
  isDiscoveryMode : bool;
  isLoading : bool
}.

(** Calls made to the collaborators of the page. *)
Inductive Call :=
| setProjects (ps : list Project.t)
| setCategories (cs : list Category.t)
| getRepoDetails (owner repoName : option string)
| console_error (msg : string) (error : string).

(** What a handler can do: enqueue a state update, or call out.  A setter
    given a value is the updater that ignores the previous state. *)
Inductive Action :=
| setSelectedProject (v : option Project.t)
| setIsCategoryDialogOpen (v : bool)
| setProjectSearch (v : string)
| setSelectedCategories (f : list string -> list string)
| setProjectsState (f : list Project.t -> list Project.t)
| setGlobalCategories (v : list Category.t)
| setIsDiscoveryMode (v : bool)
| setIsLoading (v : bool)
| call (c : Call).

(** A handler is a closure over the state of the render that created it. *)
Definition Handler := State -> list Action.

Record World := mkWorld { state : State; trace : list Call }.

Definition update (a : Action) (s : State) : State :=
  match a with
  | setSelectedProject v =>
      mkState v (isCategoryDialogOpen s) (projectSearch s)
        (selectedCategories s) (projects s) (globalCategories s)
        (isDiscoveryMode s) (isLoading s)
  | setIsCategoryDialogOpen v =>
      mkState (selectedProject s) v (projectSearch s)
        (selectedCategories s) (projects s) (globalCategories s)
        (isDiscoveryMode s) (isLoading s)
  | setProjectSearch v =>
      mkState (selectedProject s) (isCategoryDialogOpen s) v
        (selectedCategories s) (projects s) (globalCategories s)
        (isDiscoveryMode s) (isLoading s)
  | setSelectedCategories f =>
      mkState (selectedProject s) (isCategoryDialogOpen s) (projectSearch s)
        (f (selectedCategories s)) (projects s) (globalCategories s)
        (isDiscoveryMode s) (isLoading s)
  | setProjectsState f =>
      mkState (selectedProject s) (isCategoryDialogOpen s) (projectSearch s)
        (selectedCategories s) (f (projects s)) (globalCategories s)
        (isDiscoveryMode s) (isLoading s)
  | setGlobalCategories v =>
      mkState (selectedProject s) (isCategoryDialogOpen s) (projectSearch s)
        (selectedCategories s) (projects s) v
        (isDiscoveryMode s) (isLoading s)
  | setIsDiscoveryMode v =>
      mkState (selectedProject s) (isCategoryDialogOpen s) (projectSearch s)
        (selectedCategories s) (projects s) (globalCategories s)
        v (isLoading s)
  | setIsLoading v =>
      mkState (selectedProject s) (isCategoryDialogOpen s) (projectSearch s)
        (selectedCategories s) (projects s) (globalCategories s)
        (isDiscoveryMode s) v
  | call _ => s
  end.

Definition perform (w : World) (a : Action) : World :=
  match a with
  | call c => mkWorld (state w) (trace w ++ [c])
  | _ => mkWorld (update a (state w)) (trace w)
  end.

(** Every array the page hands to [setProjectsState] or
    [setGlobalCategories] is freshly built, so the dependency of the
    matching [useEffect] changes exactly when the setter was called. *)
Definition touchesProjects (a : Action) : bool :=
  match a with setProjectsState _ => true | _ => false end.

Definition touchesGlobalCategories (a : Action) : bool :=
  match a with setGlobalCategories _ => true | _ => false end.

(** The two [useEffect] hooks, run after the updates are committed. *)
Definition runEffects (acts : list Action) (w : World) : World :=
  let w1 :=
    if existsb touchesProjects acts
    then perform w (call (setProjects (projects (state w))))
    else w in
  if existsb touchesGlobalCategories acts
  then perform w1 (call (setCategories (globalCategories (state w1))))
  else w1.

(** One event: the handler runs against the current render, its actions are
    performed in order, then the effects run. *)
Definition dispatch (h : Handler) (w : World) : World :=
  let acts := h (state w) in
  runEffects acts (fold_left perform acts w).


(** ** Handlers *)

(** Initial render: [useState(getProjects() || [])] and
    [useState(getCategories() || [])]; both effects run once on mount. *)
Definition mount (storedProjects : option (list Project.t))
    (storedCategories : option (list Category.t)) : World :=
  let s := mkState None false EmptyString [] (JS.orElse storedProjects [])
             (JS.orElse storedCategories []) false false in
  mkWorld s [setProjects (projects s); setCategories (globalCategories s)].

Definition addProject (project : Project.t) : Handler := fun _ =>
  [setProjectsState (fun prev => prev ++ [project])].

Definition removeProject (id : string) : Handler := fun _ =>
  [setProjectsState
     (fun prev => filter (fun p => negb (JS.seq (Project.id p) id)) prev)].

(** The [updatedProjects] of [addCategory] and of [removeCategory]. *)
Definition withCategoryAdded (selected : Project.t) (category : Category.t)
    (ps : list Project.t) : list Project.t :=
  map (fun project =>
         if JS.seq (Project.id project) (Project.id selected)
         then Project.with_categories project
                (Project.cats project ++ [category])
         else project) ps.

Definition withCategoryRemoved (selected : Project.t) (categoryId : string)
    (ps : list Project.t) : list Project.t :=
  map (fun project =>
         if JS.seq (Project.id project) (Project.id selected)
         then Project.with_categories project
                (filter (fun c => negb (JS.seq (Category.id c) categoryId))
                        (Project.cats project))
         else project) ps.

Definition addCategory (category : Category.t) : Handler := fun s =>
  match selectedProject s with
  | Some selected =>
      let updatedProjects :=
        withCategoryAdded selected category (projects s) in
      [setProjectsState (fun _ => updatedProjects);
       setSelectedProject
         (Some (Project.with_categories selected
                  (Project.cats selected ++ [category])))]
      ++ (if negb (JS.truthy
                     (JS.find (fun c => JS.seq (Category.name c)
                                               (Category.name category))
                              (globalCategories s)))
          then [setGlobalCategories (globalCategories s ++ [category])]
          else [])
  | None => []
  end.

(** The updated list goes to the store function [setProjects], not to the
    state setter [setProjectsState]. *)
Definition removeCategory (categoryId : string) : Handler := fun s =>
  match selectedProject s with
  | Some selected =>
      let updatedProjects :=
        withCategoryRemoved selected categoryId (projects s) in
      [call (setProjects updatedProjects);
       setSelectedProject
         (Some (Project.with_categories selected
                  (filter (fun c => negb (JS.seq (Category.id c) categoryId))
                          (Project.cats selected))))]
  | None => []
  end.

Definition toggleCategoryFilter (categoryId : string) : Handler := fun _ =>
  [setSelectedCategories
     (fun prev =>
        if existsb (JS.seq categoryId) prev
        then filter (fun id => negb (JS.seq id categoryId)) prev
        else prev ++ [categoryId])].

Definition toggleDiscoveryMode : Handler := fun s =>
  [setIsDiscoveryMode (negb (isDiscoveryMode s))].

(** [onClick] of a project card, and [onBack] of the detail view. *)
Definition openProject (project : Project.t) : Handler := fun _ =>
  [setSelectedProject (Some project)].

Definition closeProject : Handler := fun _ => [setSelectedProject None].

(** ** The filtered view *)

(** [toLowerCase] is the host's; the view is defined for any such function. *)
Definition matchesSearch (toLowerCase : string -> string) (query : string)
    (project : Project.t) : bool :=
  JS.includes (toLowerCase (Project.name project)) (toLowerCase query)
  || JS.includes (toLowerCase (Project.description project))
                 (toLowerCase query).

(** [project.categories?.some(c => c.id === catId)]: [undefined], which is
    falsy, when the project has no [categories]. *)
Definition hasCategory (project : Project.t) (catId : string) : bool :=
  match Project.categories project with
  | Some cs => JS.some (fun c => JS.seq (Category.id c) catId) cs
  | None => false
  end.

Definition matchesCategories (selected : list string) (project : Project.t)
    : bool :=
  Nat.eqb (List.length selected) 0 || JS.every (hasCategory project) selected.

Definition filteredProjects (toLowerCase : string -> string) (s : State)
    : list Project.t :=
  filter (fun project =>
            matchesSearch toLowerCase (projectSearch s) project
            && matchesCategories (selectedCategories s) project)
         (projects s).

(** An ASCII instance of [toLowerCase], to run the view on examples. *)
Definition lowerAscii (c : ascii) : ascii :=
  let n := nat_of_ascii c in
  if (65 <=? n)%nat && (n <=? 90)%nat then ascii_of_nat (n + 32) else c.

Fixpoint toLowerCaseAscii (s : string) : string :=
  match s with
  | EmptyString => EmptyString
  | String c s' => String (lowerAscii c) (toLowerCaseAscii s')
  end.

(** Beyond ASCII a string is given by its UTF-8 bytes; on well-formed text
    [includes] on the bytes is [includes] on the characters. *)
Definition utf8 (bytes : list nat) : string :=
  string_of_list_ascii (map ascii_of_nat bytes).

Definition isAsciiLetter (c : ascii) : bool :=
  let n := nat_of_ascii c in
  ((65 <=? n) && (n <=? 90) || (97 <=? n) && (n <=? 122))%nat.

(** The two bytes of a letter of the Greek alphabet: the capitals Alpha to
    Omega are U+0391 to U+03A9, bytes CE 91 to CE A9 (U+03A2 is not
    assigned); the small letters alpha to omega are U+03B1 to U+03C9, bytes
    CE B1 to CE BF and CF 80 to CF 89, the final sigma U+03C2 among them. *)
Definition isGreekLetter (lead second : ascii) : bool :=
  let l := nat_of_ascii lead in
  let m := nat_of_ascii second in
  ((l =? 206) && ((145 <=? m) && (m <=? 169) && negb (m =? 162)
                  || (177 <=? m) && (m <=? 191))
   || (l =? 207) && (128 <=? m) && (m <=? 137))%nat.

Definition startsWithLetter (s : string) : bool :=
  match s with
  | EmptyString => false
  | String c EmptyString => isAsciiLetter c
  | String c (String d _) => isAsciiLetter c || isGreekLetter c d
  end.

(** [toLowerCase] of ECMAScript (the Unicode default case conversion with
    the context rule [Final_Sigma] of SpecialCasing.txt) on text made of
    ASCII characters and of the letters above, in which no capital sigma
    stands next to one of the case-ignorable characters ['], [.], [:], [^]
    and [`].  A capital becomes its small letter, 32 code points up; the
    capital sigma U+03A3 becomes the final sigma U+03C2 when a letter comes
    before it and none after it, and the sigma U+03C3 otherwise.
    [afterLetter] says whether the character before is a letter. *)
Fixpoint lowerAfter (afterLetter : bool) (s : string) : string :=
  match s with
  | EmptyString => EmptyString
  | String c rest =>
      match rest with
      | EmptyString => String (lowerAscii c) EmptyString
      | String d rest' =>
          if isGreekLetter c d then
            let m := nat_of_ascii d in
            if ((nat_of_ascii c =? 206) && (m <=? 169))%nat then
              if (m =? 163)%nat then
                String (ascii_of_nat 207)
                  (String (if afterLetter && negb (startsWithLetter rest')
                           then ascii_of_nat 130 else ascii_of_nat 131)
                          (lowerAfter true rest'))
              else if (m <=? 159)%nat then
                String c (String (ascii_of_nat (m + 32))
                                 (lowerAfter true rest'))
              else
                String (ascii_of_nat 207)
                  (String (ascii_of_nat (m - 32)) (lowerAfter true rest'))
            else String c (String d (lowerAfter true rest'))
          else String (lowerAscii c) (lowerAfter (isAsciiLetter c) rest)
      end
  end.

Definition toLowerCaseGreek (s : string) : string := lowerAfter false s.

(** ** Numbers

    JavaScript numbers are IEEE 754 binary64 values; the byte counts and the
    percentages are primitive floats, so the arithmetic of the page is run
    as the engine runs it. *)

Module Number.

(** The number with integer value [n], for [|n| < 2^53]. *)
Definition ofZ (n : Z) : float :=
  if (n <? 0)%Z then (- PrimFloat.of_uint63 (Uint63.of_Z (- n)))%float
  else PrimFloat.of_uint63 (Uint63.of_Z n).

(** [floor(v + 1/2)] for the finite value [v = (-1)^s * m * 2^e], [e < 0]. *)
Definition roundHalfUp (s : bool) (m : positive) (e : Z) : Z :=
  let d := Z.shiftl 1 (- e) in
  let v2 := if s then (- 2 * Z.pos m)%Z else (2 * Z.pos m)%Z in
  ((v2 + d) / (2 * d))%Z.

(** [Math.round(x)]: the integer nearest to [x], ties towards plus infinity;
    [NaN], the infinities and the zeros are returned as they are, and a
    negative [x] that rounds to zero gives [-0]. *)
Definition Math_round (x : float) : float :=
  match Prim2SF x with
  | S754_finite s m e =>
      if (0 <=? e)%Z then x
      else
        let n := roundHalfUp s m e in
        if (n =? 0)%Z && s then (- 0)%float else ofZ n
  | _ => x
  end.

(** The sign test a sort makes on the result of its comparator: a result
    that is not greater than zero, [NaN] included, leaves the order. *)
Definition positive (x : float) : bool := (0 <? x)%float.

End Number.

(** [l.sort(comparefn)]: the sort is stable; each element is placed behind
    the elements the comparator orders before it. *)
Fixpoint Array_insert {A} (comparefn : A -> A -> float) (x : A) (l : list A)
    : list A :=
  match l with
  | [] => [x]
  | y :: ys =>
      if Number.positive (comparefn x y) then y :: Array_insert comparefn x ys
      else x :: y :: ys
  end.

Definition Array_sort {A} (comparefn : A -> A -> float) (l : list A)
    : list A :=
  fold_right (Array_insert comparefn) [] l.

(** ** Discovery: from a repository to a project *)

(** [Object.values(languages).reduce((sum, bytes) => sum + bytes, 0)] *)
Definition totalBytes (languages : list (string * float)) : float :=
  fold_left (fun sum bytes => (sum + bytes)%float) (map snd languages)
            0%float.

Definition percentageOf (total bytes : float) : float :=
  Number.Math_round ((bytes / total) * 100)%float.

Definition byPercentageDesc (a b : Language.t) : float :=
  (Language.percentage b - Language.percentage a)%float.

Definition normalizeLanguages (languages : list (string * float))
    : list Language.t :=
  let total := totalBytes languages in
  Array_sort byPercentageDesc
    (map (fun '(name, bytes) => Language.mk name (percentageOf total bytes))
         languages).

Definition projectOf (repo : GitHubRepo.t) (details : RepoDetails.t)
    : Project.t :=
  Project.mk
    (JS.toString (GitHubRepo.id repo))
    (GitHubRepo.name repo)
    (JS.orElseStr (GitHubRepo.description repo) EmptyString)
    EmptyString
    (GitHubRepo.html_url repo)
    (Some (GitHubRepo.owner_avatar_url repo))
    (GitHubRepo.owner_login repo)
    (Stats.mk (GitHubRepo.stargazers_count repo) (GitHubRepo.forks_count repo)
              (GitHubRepo.watchers_count repo)
              (GitHubRepo.open_issues_count repo))
    (GitHubRepo.updated_at repo)
    (RepoDetails.contributors details)
    (RepoDetails.branches details)
    (RepoDetails.commits details)
    (RepoDetails.pullRequests details)
    (Some [])
    (normalizeLanguages (RepoDetails.languages details))
    (JS.orElse (RepoDetails.topics details) [])
    (GitHubRepo.license_name repo)
    (Some (GitHubRepo.size repo))
    (match RepoDetails.lastRelease details with
     | Some r => Some (Release.mk (RepoRelease.name r)
                         (RepoRelease.published_at r)
                         (RepoRelease.html_url r))
     | None => None
     end)
    (GitHubRepo.homepage repo).

(** Blocks that can throw: a block completes normally or throws, after the
    actions it got to. *)
Inductive Completion :=
| Normal (acts : list Action)
| Throw (acts : list Action) (error : string).

Definition actions (c : Completion) : list Action :=
  match c with Normal acts | Throw acts _ => acts end.

Definition thrown (c : Completion) : option string :=
  match c with Normal _ => None | Throw _ error => Some error end.

(** [try body catch (error) { handler } finally { final }] *)
Definition tryCatchFinally (body : Completion)
    (handler : string -> list Action) (final : list Action) : Completion :=
  match body with
  | Normal acts => Normal (acts ++ final)
  | Throw acts error => Normal (acts ++ handler error ++ final)
  end.

(** [await getRepoDetails(...)] followed by the rest of the [try] block. *)
Definition awaitDetails (outcome : FetchResult)
    (rest : RepoDetails.t -> list Action) : Completion :=
  match outcome with
  | Resolved details => Normal (rest details)
  | Rejected error => Throw [] error
  end.

(** [handleSelectRepo] is asynchronous.  Up to the [await] it raises the
    loading flag and asks for the details; what follows runs when the
    request settles, whatever has happened to the state in between: the
    project is added by an updater, and no captured value is read. *)
Definition handleSelectRepo_begin (repo : GitHubRepo.t) : Handler := fun _ =>
  let parts := JS.split "/"%char (GitHubRepo.full_name repo) in
  [setIsLoading true;
   call (getRepoDetails (nth_error parts 0) (nth_error parts 1))].

Definition handleSelectRepo_resume (repo : GitHubRepo.t)
    (outcome : FetchResult) (s : State) : Completion :=
  tryCatchFinally
    (awaitDetails outcome (fun details =>
       addProject (projectOf repo details) s ++ [setIsDiscoveryMode false]))
    (fun error => [call (console_error "Error adding project:" error)])
    [setIsLoading false].

Definition handleSelectRepo_settle (repo : GitHubRepo.t)
    (outcome : FetchResult) : Handler := fun s =>
  actions (handleSelectRepo_resume repo outcome s).

(** The whole handler when nothing else happens while the request is
    pending: the world it leaves, and the error its promise is rejected
    with, if any. *)
Definition handleSelectRepo (repo : GitHubRepo.t) (outcome : FetchResult)
    (w : World) : World * option string :=
  let w1 := dispatch (handleSelectRepo_begin repo) w in
  (dispatch (handleSelectRepo_settle repo outcome) w1,
   thrown (handleSelectRepo_resume repo outcome (state w1))).

(** ** Vocabulary of the specification *)

(** [sub] occurs in [s]. *)
Definition isSubstring (sub s : string) : Prop :=
  exists pre post, s = (pre ++ sub ++ post)%string.

(** The capital letters A to Z. *)
Definition isCapital (c : ascii) : Prop :=
  65 <= nat_of_ascii c <= 90.

(** The same character, or the capital and the small form of one of the
    letters A to Z, which lie 32 apart. *)
Definition sameLetter (c d : ascii) : Prop :=
  c = d
  \/ (isCapital c /\ nat_of_ascii d = nat_of_ascii c + 32)
  \/ (isCapital d /\ nat_of_ascii c = nat_of_ascii d + 32).

(** Two strings that are equal when the case of the letters A to Z is
    ignored. *)
Definition equalIgnoringCase (s t : string) : Prop :=
  Forall2 sameLetter (list_ascii_of_string s) (list_ascii_of_string t).

(** [s] contains [query] as a case-insensitive substring: some part of [s]
    equals [query] when case is ignored. *)
Definition containsIgnoringCase (s query : string) : Prop :=
  exists pre part post,
    s = (pre ++ part ++ post)%string /\ equalIgnoringCase part query.

(** The host's [toLowerCase] changes nothing in [s] but the capitals A to
    Z: so it is for text whose only cased letters are those of ASCII. *)
Definition lowersAsciiOnly (toLowerCase : string -> string) (s : string)
    : Prop :=
  toLowerCase s = toLowerCaseAscii s.

(** The project carries a category with the given id. *)
Definition carriesCategory (project : Project.t) (catId : string) : Prop :=
  exists c, In c (Project.cats project) /\ Category.id c = catId.

(** Visibility under a query and a set of selected category ids. *)
Definition visible (query : string) (selected : list string)
    (project : Project.t) : Prop :=
  (containsIgnoringCase (Project.name project) query
   \/ containsIgnoringCase (Project.description project) query)
  /\ (selected = []
      \/ forall catId, In catId selected -> carriesCategory project catId).

(** [kept] is [l] with exactly the elements satisfying [P] kept, each as
    often as it occurs and in the order of [l]. *)
Inductive Kept {A} (P : A -> Prop) : list A -> list A -> Prop :=
| Kept_nil : Kept P [] []
| Kept_keep x l kept : P x -> Kept P l kept -> Kept P (x :: l) (x :: kept)
| Kept_drop x l kept : ~ P x -> Kept P l kept -> Kept P (x :: l) kept.

(** Number of entries of a project list with a given id. *)
Definition occurrences (id : string) (ps : list Project.t) : nat :=
  List.length (filter (fun p => JS.seq (Project.id p) id) ps).

(** Some global category has the given name. *)
Definition nameTaken (name : string) (cs : list Category.t) : Prop :=
  exists c, In c cs /\ Category.name c = name.

(** The integer part [floor(v)] of a number, 0 for [NaN] and the
    infinities: the value of a percentage as an integer. *)
Definition intValue (x : float) : Z :=
  match Prim2SF x with
  | S754_finite s m e =>
      let v := if s then Z.neg m else Z.pos m in
      if (0 <=? e)%Z then (v * 2 ^ e)%Z else (v / 2 ^ (- e))%Z
  | _ => 0%Z
  end.

(** [x] is one of the numbers 0, 1, ..., 100. *)
Definition isPercentage (x : float) : Prop :=
  (0 <= intValue x <= 100)%Z /\ x = Number.ofZ (intValue x).

(** The percentage the specification asks for: [100 * bytes / total]
    rounded to the nearest integer, halves up, in exact arithmetic. *)
Definition exactPercentage (total bytes : Z) : Z :=
  ((200 * bytes + total) / (2 * total))%Z.

(** Sum of the percentages of a breakdown, as integers. *)
Definition percentageSum (ls : list Language.t) : Z :=
  fold_right (fun l acc => (intValue (Language.percentage l) + acc)%Z) 0%Z ls.

(** The order the breakdown is to be in: larger percentages first. *)
Definition descending (a b : Language.t) : Prop :=
  (intValue (Language.percentage b) <= intValue (Language.percentage a))%Z.

(** A byte-count map given by integers. *)
Definition byteCounts (counts : list (string * Z)) : list (string * float) :=
  map (fun '(name, bytes) => (name, Number.ofZ bytes)) counts.

Definition sumZ (l : list Z) : Z := fold_right Z.add 0%Z l.

(** The integers 0 to 100, and the facts about the numbers they denote that
    are settled by running the operations on each of them: converting back
    gives the integer, and the comparator of the sort, applied to two of
    them, is positive exactly when the first is the smaller. *)
Definition percentRange : list Z := map Z.of_nat (List.seq 0 101).

Definition percentTable : bool :=
  forallb (fun a =>
    (intValue (Number.ofZ a) =? a)%Z
    && forallb (fun b =>
         Bool.eqb (Number.positive (Number.ofZ b - Number.ofZ a)%float)
                  (a <? b)%Z)
       percentRange)
    percentRange.

(** ** Vocabulary for binary64 rounding

    [SpecFloat] rounds a mantissa together with the location of the exact
    value between it and its successor.  [Inb m l N D] says that [l] is the
    location of the fraction [N / D] with respect to [m]. *)
Definition Inb (m : Z) (l : location) (N D : Z) : Prop :=
  (0 <= m /\ 0 < D /\
   match l with
   | loc_Exact => N = m * D
   | loc_Inexact c =>
       m * D < N < (m + 1) * D /\ (2 * N ?= (2 * m + 1) * D) = c
   end)%Z.

Definition InbR (r : shr_record) (N D : Z) : Prop :=
  Inb (shr_m r) (loc_of_shr_record r) N D.

(** A mantissa of exactly 53 bits. *)
Definition normalized (m : positive) : Prop :=
  (2 ^ 52 <= Z.pos m < 2 ^ 53)%Z.

(** [100 * bytes / total] lies half-way between two integers. *)
Definition isTie (total bytes : Z) : Prop :=
  ((200 * bytes + total) mod (2 * total) = 0)%Z.

(** The entries of the breakdown of integer byte counts, before sorting. *)
Definition entriesOf (total : Z) (counts : list (string * Z))
    : list Language.t :=
  map (fun '(name, bytes) =>
         Language.mk name
           (Number.Math_round
              (Number.ofZ bytes / Number.ofZ total * 100)%float))
      counts.

(** What an entry [l] owes to the count [bytes] of the language [name]: its
    percentage is one of 0, ..., 100 and differs from [100 * bytes / total]
    by at most one half plus a relative 2^-51. *)
Definition entryFor (total : Z) (name : string) (bytes : Z)
    (l : Language.t) : Prop :=
  Language.name l = name
  /\ isPercentage (Language.percentage l)
  /\ ((2 * intValue (Language.percentage l) - 1) * total * 2 ^ 51
      <= 200 * bytes * (2 ^ 51 + 1))%Z
  /\ (200 * bytes * (2 ^ 51 - 1)
      < (2 * intValue (Language.percentage l) + 1) * total * 2 ^ 51)%Z.

(** ** The rest of the page

    The handlers written inline in the markup, the events the page reacts
    to, what it renders, and the colour table of the language bar. *)

(** [onChange={setProjectSearch}] of the search bar, and the two inline
    handlers of the category dialog. *)
Definition search (query : string) : Handler := fun _ =>
  [setProjectSearch query].

Definition openCategoryDialog : Handler := fun _ =>
  [setIsCategoryDialogOpen true].

Definition closeCategoryDialog : Handler := fun _ =>
  [setIsCategoryDialogOpen false].

(** The events wired in the markup.  A selection in the discovery list
    gives two of them: the call of [handleSelectRepo], and the moment its
    request settles. *)
Inductive Event :=
| RemoveProject (id : string)
| AddCategory (category : Category.t)
| RemoveCategory (categoryId : string)
| ToggleCategoryFilter (categoryId : string)
| ToggleDiscoveryMode
| OpenProject (project : Project.t)
| CloseProject
| OpenCategoryDialog
| CloseCategoryDialog
| Search (query : string)
| SelectRepo (repo : GitHubRepo.t)
| DetailsSettled (repo : GitHubRepo.t) (outcome : FetchResult).

Definition handlerOf (e : Event) : Handler :=
  match e with
  | RemoveProject id => removeProject id
  | AddCategory category => addCategory category
  | RemoveCategory categoryId => removeCategory categoryId
  | ToggleCategoryFilter categoryId => toggleCategoryFilter categoryId
  | ToggleDiscoveryMode => toggleDiscoveryMode
  | OpenProject project => openProject project
  | CloseProject => closeProject
  | OpenCategoryDialog => openCategoryDialog
  | CloseCategoryDialog => closeCategoryDialog
  | Search query => search query
  | SelectRepo repo => handleSelectRepo_begin repo
  | DetailsSettled repo outcome => handleSelectRepo_settle repo outcome
  end.

Definition react (w : World) (e : Event) : World :=
  dispatch (handlerOf e) w.

Definition run (events : list Event) (w : World) : World :=
  fold_left react events w.

Definition isRemoveCategory (e : Event) : bool :=
  match e with RemoveCategory _ => true | _ => false end.

(** The events that edit the list of projects, and what a settled request
    adds to it. *)
Definition editsProjects (e : Event) : bool :=
  match e with
  | RemoveProject _ | AddCategory _ => true
  | _ => false
  end.

Definition discovered (e : Event) : list Project.t :=
  match e with
  | DetailsSettled repo (Resolved details) => [projectOf repo details]
  | _ => []
  end.

(** The list most recently handed to [setProjects], and the one most
    recently handed to [setCategories]. *)
Definition lastSetProjects (calls : list Call) : option (list Project.t) :=
  fold_left (fun last c =>
               match c with setProjects ps => Some ps | _ => last end)
            calls None.

Definition lastSetCategories (calls : list Call)
    : option (list Category.t) :=
  fold_left (fun last c =>
               match c with setCategories cs => Some cs | _ => last end)
            calls None.

(** What is rendered below the header: the discovery list, which alone is
    given [handleSelectRepo]; the cards of the filtered projects, with the
    suggestion to discover when there is none; or the detail view. *)
Inductive Panel :=
| DiscoveryPanel
| SavedPanel (cards : list Project.t) (suggestDiscovery : bool)
| DetailPanel (project : Project.t).

Definition panel (toLowerCase : string -> string) (s : State) : Panel :=
  match selectedProject s with
  | None =>
      if isDiscoveryMode s then DiscoveryPanel
      else
        let cards := filteredProjects toLowerCase s in
        SavedPanel cards (Nat.eqb (List.length cards) 0)
  | Some project => DetailPanel project
  end.

(** [{selectedProject && <CategoryDialog ... />}]: the dialog, and with it
    [addCategory] and [removeCategory], is there only for a selection; it
    is given [selectedProject.categories || []]. *)
Definition categoryDialog (s : State)
    : option (bool * list Category.t * string) :=
  match selectedProject s with
  | Some project =>
      Some (isCategoryDialogOpen s, Project.cats project, Project.id project)
  | None => None
  end.

(** The parts of a project card computed from the project. *)
Module ProjectCard.

(** [project.languages.length > 0 && ...]: whether there is a bar. *)
Definition hasBar (project : Project.t) : bool :=
  Nat.ltb 0 (List.length (Project.languages project)).

(** [project.languages.slice(0, 5)]: one segment of the bar each. *)
Definition barLanguages (project : Project.t) : list Language.t :=
  firstn 5 (Project.languages project).

(** [project.languages[0]?.name] *)
Definition barLabel (project : Project.t) : option string :=
  option_map Language.name (nth_error (Project.languages project) 0).

End ProjectCard.

(** The value of a property read: a string of the table, or something the
    object inherits. *)
Inductive Looked :=
| Text (s : string)
| Inherited (property : string).

(** The table of [getLanguageColor], in the order it is written. *)
Definition colors : list (string * string) :=
  [("JavaScript", "#f1e05a"); ("TypeScript", "#3178c6");
   ("Python", "#3572A5"); ("Java", "#b07219"); ("Go", "#00ADD8");
   ("Rust", "#dea584"); ("C++", "#f34b7d"); ("PHP", "#4F5D95");
   ("Ruby", "#701516"); ("HTML", "#e34c26"); ("CSS", "#563d7c");
   ("Shell", "#89e051"); ("Swift", "#ffac45"); ("Kotlin", "#A97BFF");
   ("Dart", "#00B4AB"); ("C", "#555555"); ("C#", "#178600")]%string.

(** [colors[language] || '#8257e5'].  The table is an object literal, so a
    name it does not have is looked up on [Object.prototype]:
    [inheritedProperty] says which names the host finds there; what is
    found (a function, or the prototype itself) is truthy and is returned
    as it is. *)
Definition getLanguageColor (inheritedProperty : string -> bool)
    (language : string) : Looked :=
  match List.find (fun entry => JS.seq (fst entry) language) colors with
  | Some (_, color) => Text (JS.orElseStr (Some color) "#8257e5")
  | None =>
      if inheritedProperty language then Inherited language
      else Text "#8257e5"
  end.

(** The properties of [Object.prototype] in ECMAScript, Annex B
    included. *)
Definition objectPrototype (name : string) : bool :=
  existsb (JS.seq name)
    ["constructor"; "hasOwnProperty"; "isPrototypeOf";
     "propertyIsEnumerable"; "toLocaleString"; "toString"; "valueOf";
     "__proto__"; "__defineGetter__"; "__defineSetter__";
     "__lookupGetter__"; "__lookupSetter__"]%string.

(** A colour written [#rrggbb]. *)
Definition isHexDigit (c : ascii) : bool :=
  let n := nat_of_ascii c in
  ((48 <=? n) && (n <=? 57) || (65 <=? n) && (n <=? 70)
   || (97 <=? n) && (n <=? 102))%nat.

Definition isHexColor (s : string) : bool :=
  match s with
  | String "#" digits =>
      Nat.eqb (String.length digits) 6
      && forallb isHexDigit (list_ascii_of_string digits)
  | _ => false
  end.

(** No slash in a string. *)
Definition noSlash (s : string) : Prop :=
  ~ In "/"%char (list_ascii_of_string s).

(** ** Sample data *)

Module Sample.

Definition category (id name : string) : Category.t :=
  Category.mk id name "#8257e5".

Definition project (id name description : string)
    (cats : option (list Category.t)) : Project.t :=
  Project.mk id name description EmptyString EmptyString None "octocat"
    (Stats.mk 0 0 0 0) "2024-01-01T00:00:00Z" 0 0 0 0 cats [] [] None None
    None None.

Definition state (selected : option Project.t) (ps : list Project.t)
    (cs : list Category.t) : State :=
  mkState selected false EmptyString [] ps cs false false.

Definition world (selected : option Project.t) (ps : list Project.t)
    (cs : list Category.t) : World :=
  mkWorld (state selected ps cs) [].

Definition repo (id : Z) (full_name name : string) : GitHubRepo.t :=
  GitHubRepo.mk id full_name name None "https://github.com" "avatar" "owner"
    0 0 0 0 "2024-01-01T00:00:00Z" None 0 None.

Definition details (languages : list (string * float)) : RepoDetails.t :=
  RepoDetails.mk languages 0 0 0 0 None None.

Definition ui : Category.t := category "c1" "UI".
Definition cli : Category.t := category "c2" "CLI".
Definition A : Project.t := project "1" "Alpha" "first" (Some [ui; cli]).
Definition B : Project.t := project "2" "Beta" "second" (Some [cli]).

(** Two words in Greek capitals, the second beginning with the first:
    Omicron Delta Upsilon Sigma, and the same followed by Sigma Epsilon
    Iota Alpha. *)
Definition odys : string :=
  utf8 [206; 159; 206; 148; 206; 165; 206; 163].
Definition odysseia : string :=
  utf8 [206; 159; 206; 148; 206; 165; 206; 163;
        206; 163; 206; 149; 206; 153; 206; 145].
Definition Odyssey : Project.t := project "3" odysseia "epic" (Some []).

End Sample.

(** * Properties *)

(** ** Running handlers *)

Lemma dispatch_nil (h : Handler) (w : World) :
  h (state w) = [] -> dispatch h w = w.
Proof.
  unfold dispatch. intros ->. reflexivity.
Qed.

Lemma String_eqb_false_iff (a b : string) : JS.seq a b = false <-> a <> b.
Proof.
  unfold JS.seq. apply String.eqb_neq.
Qed.

Lemma String_eqb_true_iff (a b : string) : JS.seq a b = true <-> a = b.
Proof.
  unfold JS.seq. apply String.eqb_eq.
Qed.

(** ** ProjectStore: add and remove *)

Lemma addProject_projects (p : Project.t) (w : World) :
  projects (state (dispatch (addProject p) w)) = projects (state w) ++ [p].
Proof.
  reflexivity.
Qed.

Lemma handleSelectRepo_resolved_projects repo details w :
  projects (state (fst (handleSelectRepo repo (Resolved details) w)))
  = projects (state w) ++ [projectOf repo details].
Proof.
  reflexivity.
Qed.

(** C9.  [add] appends at the end and never looks at the ids already in the
    list: adding the same project twice leaves two entries for it, and
    selecting the same repository twice, both fetches succeeding, appends two
    projects that share the repository's id. *)
Theorem addProject_appends_without_dedup :
  (forall (project : Project.t) (w : World),
      projects (state (dispatch (addProject project) w))
      = projects (state w) ++ [project]
      /\ projects (state (dispatch (addProject project)
                            (dispatch (addProject project) w)))
         = projects (state w) ++ [project; project])
  /\ (forall (project : Project.t) (w : World),
         projects (state w) = [] -> Project.id project = "1"%string ->
         let ps := projects (state (dispatch (addProject project)
                                      (dispatch (addProject project) w))) in
         List.length ps = 2
         /\ Forall (fun p => Project.id p = "1"%string) ps)
  /\ (forall (repo : GitHubRepo.t) (d1 d2 : RepoDetails.t) (w : World),
         let w1 := fst (handleSelectRepo repo (Resolved d1) w) in
         let w2 := fst (handleSelectRepo repo (Resolved d2) w1) in
         projects (state w2)
         = projects (state w) ++ [projectOf repo d1; projectOf repo d2]
         /\ Project.id (projectOf repo d1) = JS.toString (GitHubRepo.id repo)
         /\ Project.id (projectOf repo d2) = JS.toString (GitHubRepo.id repo)).
Proof.
  split; [|split].
  - intros project w. rewrite !addProject_projects, <- app_assoc. auto.
  - intros project w Hnil Hid ps. subst ps.
    rewrite !addProject_projects, Hnil. simpl. split; [reflexivity|].
    repeat constructor; assumption.
  - intros repo d1 d2 w w1 w2. subst w1 w2.
    rewrite !handleSelectRepo_resolved_projects, <- app_assoc.
    repeat split.
Qed.

Lemma Kept_filter {A} (P : A -> Prop) (f : A -> bool) (l : list A) :
  (forall x, f x = true <-> P x) -> Kept P l (filter f l).
Proof.
  intros Hf. induction l as [|x l IH]; simpl.
  - constructor.
  - destruct (f x) eqn:E.
    + apply Kept_keep; [apply Hf, E | exact IH].
    + apply Kept_drop; [|exact IH].
      intros HP. apply Hf in HP. congruence.
Qed.

Lemma Kept_In {A} (P : A -> Prop) (l kept : list A) :
  Kept P l kept -> forall x, In x kept <-> In x l /\ P x.
Proof.
  induction 1 as [|x l kept HP _ IH|x l kept HP _ IH]; intros y; simpl.
  - tauto.
  - rewrite IH. split.
    + intros [->|[? ?]]; auto.
    + intros [[->|?] ?]; auto.
  - rewrite IH. split.
    + intros [? ?]; auto.
    + intros [[->|?] ?]; [contradiction|auto].
Qed.

Lemma filter_length_split {A} (f : A -> bool) (l : list A) :
  List.length (filter (fun x => negb (f x)) l) + List.length (filter f l)
  = List.length l.
Proof.
  induction l as [|x l IH]; simpl; [reflexivity|].
  destruct (f x); simpl; lia.
Qed.

Lemma removeProject_world (id : string) (w : World) :
  let ps' := filter (fun p => negb (JS.seq (Project.id p) id))
               (projects (state w)) in
  projects (state (dispatch (removeProject id) w)) = ps'
  /\ trace (dispatch (removeProject id) w) = trace w ++ [setProjects ps'].
Proof.
  split; reflexivity.
Qed.

(** C4, as the code has it.  [remove] drops every entry with the given id
    and keeps the others in order: from a list of length [n] with [k] such
    entries it leaves [n - k], which is [n - 1] exactly when the id occurs
    once; no entry with the id remains, and the effect hands the new list,
    whole, to [setProjects]. *)
Theorem removeProject_drops_every_match (id : string) (w : World) :
  let ps := projects (state w) in
  let w' := dispatch (removeProject id) w in
  let ps' := projects (state w') in
  Kept (fun p => Project.id p <> id) ps ps'
  /\ List.length ps' + occurrences id ps = List.length ps
  /\ (occurrences id ps = 1 <-> List.length ps' = List.length ps - 1
                                /\ exists p, In p ps /\ Project.id p = id)
  /\ (forall p, In p ps' -> Project.id p <> id)
  /\ trace w' = trace w ++ [setProjects ps'].
Proof.
  intros ps w' ps'.
  destruct (removeProject_world id w) as [Hps Htr].
  fold w' in Hps, Htr. fold ps in Hps, Htr. fold ps' in Hps.
  assert (HK : Kept (fun p => Project.id p <> id) ps ps').
  { rewrite Hps. apply Kept_filter. intros p.
    rewrite negb_true_iff. apply String_eqb_false_iff. }
  assert (Hlen : List.length ps' + occurrences id ps = List.length ps).
  { rewrite Hps. unfold occurrences. apply filter_length_split. }
  assert (Hocc : (exists p, In p ps /\ Project.id p = id)
                 <-> 0 < occurrences id ps).
  { unfold occurrences. clear. induction ps as [|q ps IH]; simpl.
    - split; [intros [p [[] _]] | lia].
    - destruct (JS.seq (Project.id q) id) eqn:E; simpl.
      + split; [lia|]. intros _. exists q. split; [auto|].
        apply String_eqb_true_iff, E.
      + rewrite <- IH. split.
        * intros [p [[->|Hin] Hp]].
          -- apply String_eqb_false_iff in E. contradiction.
          -- exists p. auto.
        * intros [p [Hin Hp]]. exists p. auto. }
  split; [exact HK|]. split; [exact Hlen|]. split; [|split].
  - split.
    + intros H1. split; [lia|]. apply Hocc. lia.
    + intros [Hl Hex]. apply Hocc in Hex. lia.
  - intros p Hin. apply (Kept_In HK) in Hin. tauto.
  - rewrite Htr, Hps. reflexivity.
Qed.

(** C4 fails as stated: with two entries of id "1" (which [add] allows),
    removing "1" leaves a list of length 0, not 2 - 1. *)
Lemma removeProject_length_counterexample :
  let w := Sample.world None [Sample.A; Sample.A] [] in
  (exists p, In p (projects (state w)) /\ Project.id p = "1"%string)
  /\ List.length (projects (state (dispatch (removeProject "1") w)))
     <> List.length (projects (state w)) - 1.
Proof.
  simpl. split.
  - exists Sample.A. split; [left|]; reflexivity.
  - discriminate.
Qed.

(** ** Category mutation on the selected project *)

Lemma addCategory_state (category : Category.t) (selected : Project.t)
    (w : World) :
  selectedProject (state w) = Some selected ->
  let w' := dispatch (addCategory category) w in
  projects (state w')
  = withCategoryAdded selected category (projects (state w))
  /\ selectedProject (state w')
     = Some (Project.with_categories selected
               (Project.cats selected ++ [category]))
  /\ globalCategories (state w')
     = (if JS.truthy (JS.find (fun c => JS.seq (Category.name c)
                                                (Category.name category))
                              (globalCategories (state w)))
        then globalCategories (state w)
        else globalCategories (state w) ++ [category])
  /\ exists calls, trace w' = trace w ++ calls
       /\ In (setProjects (projects (state w'))) calls.
Proof.
  intros Hsel. unfold dispatch, addCategory. rewrite Hsel.
  destruct (JS.truthy _); simpl.
  - repeat split. eexists. split; [reflexivity|]. left. reflexivity.
  - repeat split. eexists. rewrite <- app_assoc. split; [reflexivity|].
    left. reflexivity.
Qed.

Lemma removeCategory_world (categoryId : string) (selected : Project.t)
    (w : World) :
  selectedProject (state w) = Some selected ->
  let w' := dispatch (removeCategory categoryId) w in
  projects (state w') = projects (state w)
  /\ selectedProject (state w')
     = Some (Project.with_categories selected
               (filter (fun c => negb (JS.seq (Category.id c) categoryId))
                       (Project.cats selected)))
  /\ globalCategories (state w') = globalCategories (state w)
  /\ trace w'
     = trace w ++ [setProjects (withCategoryRemoved selected categoryId
                                  (projects (state w)))].
Proof.
  intros Hsel. unfold dispatch, removeCategory. rewrite Hsel.
  repeat split.
Qed.

Lemma find_name_taken (name : string) (cs : list Category.t) :
  JS.truthy (JS.find (fun c => JS.seq (Category.name c) name) cs) = true
  <-> nameTaken name cs.
Proof.
  unfold nameTaken, JS.find. induction cs as [|c cs IH]; simpl.
  - split; [discriminate | intros [c [[] _]]].
  - destruct (JS.seq (Category.name c) name) eqn:E; simpl.
    + split; [|reflexivity]. intros _. exists c. split; [auto|].
      apply String_eqb_true_iff, E.
    + rewrite IH. split.
      * intros [d [Hin Hd]]. exists d. auto.
      * intros [d [[->|Hin] Hd]].
        -- apply String_eqb_false_iff in E. contradiction.
        -- exists d. auto.
Qed.

Lemma app_singleton_neq {A} (l : list A) (x : A) : l ++ [x] <> l.
Proof.
  intros H. apply (f_equal (@List.length A)) in H.
  rewrite length_app in H. simpl in H. lia.
Qed.

Lemma withCategoryAdded_nth selected category ps i p :
  nth_error ps i = Some p ->
  nth_error (withCategoryAdded selected category ps) i
  = Some (if JS.seq (Project.id p) (Project.id selected)
          then Project.with_categories p (Project.cats p ++ [category])
          else p).
Proof.
  intros H. unfold withCategoryAdded. rewrite nth_error_map, H. reflexivity.
Qed.

Lemma withCategoryRemoved_nth selected categoryId ps i p :
  nth_error ps i = Some p ->
  nth_error (withCategoryRemoved selected categoryId ps) i
  = Some (if JS.seq (Project.id p) (Project.id selected)
          then Project.with_categories p
                 (filter (fun c => negb (JS.seq (Category.id c) categoryId))
                         (Project.cats p))
          else p).
Proof.
  intros H. unfold withCategoryRemoved. rewrite nth_error_map, H. reflexivity.
Qed.

(** C3.  With a project selected, [addCategory] lengthens by exactly one the
    categories of the selected view and of every entry of the list that has
    the selected id (the new category goes last), changes nothing else in the
    list's shape, and the global list gains the category, at its end, if and
    only if no global category has the same name; otherwise the global list
    is unchanged. *)
Theorem addCategory_adds_one (category : Category.t) (selected : Project.t)
    (w : World) :
  selectedProject (state w) = Some selected ->
  let w' := dispatch (addCategory category) w in
  (forall i p, nth_error (projects (state w)) i = Some p ->
               Project.id p = Project.id selected ->
     exists p', nth_error (projects (state w')) i = Some p'
       /\ Project.cats p' = Project.cats p ++ [category]
       /\ List.length (Project.cats p') = S (List.length (Project.cats p)))
  /\ List.length (projects (state w')) = List.length (projects (state w))
  /\ (exists selected', selectedProject (state w') = Some selected'
        /\ Project.id selected' = Project.id selected
        /\ Project.cats selected' = Project.cats selected ++ [category]
        /\ List.length (Project.cats selected')
           = S (List.length (Project.cats selected)))
  /\ (globalCategories (state w') = globalCategories (state w) ++ [category]
      <-> ~ nameTaken (Category.name category) (globalCategories (state w)))
  /\ (nameTaken (Category.name category) (globalCategories (state w))
      -> globalCategories (state w') = globalCategories (state w)).
Proof.
  intros Hsel w'.
  destruct (addCategory_state category w Hsel) as (Hps & Hs & Hg & _).
  fold w' in Hps, Hs, Hg.
  split; [|split; [|split; [|split]]].
  - intros i p Hi Hid. rewrite Hps, (withCategoryAdded_nth _ _ _ _ Hi).
    apply String_eqb_true_iff in Hid. rewrite Hid.
    eexists. split; [reflexivity|].
    change (Project.cats (Project.with_categories p
                            (Project.cats p ++ [category])))
      with (Project.cats p ++ [category]).
    split; [reflexivity|]. rewrite length_app. simpl. lia.
  - rewrite Hps. unfold withCategoryAdded. apply length_map.
  - eexists. split; [exact Hs|]. split; [reflexivity|].
    change (Project.cats (Project.with_categories selected
                            (Project.cats selected ++ [category])))
      with (Project.cats selected ++ [category]).
    split; [reflexivity|]. rewrite length_app. simpl. lia.
  - rewrite Hg. destruct (JS.truthy _) eqn:E.
    + apply find_name_taken in E. split.
      * intros H. symmetry in H. apply app_singleton_neq in H. contradiction.
      * intros H. contradiction.
    + split; [|reflexivity]. intros _ H. apply find_name_taken in H.
      congruence.
  - intros H. apply find_name_taken in H. rewrite Hg, H. reflexivity.
Qed.

Lemma addCategory_adds_one_witness :
  let w := Sample.world (Some Sample.B) [Sample.A; Sample.B] [Sample.cli] in
  let w' := dispatch (addCategory Sample.ui) w in
  selectedProject (state w) = Some Sample.B
  /\ List.length (projects (state w')) = 2
  /\ globalCategories (state w') = [Sample.cli; Sample.ui].
Proof.
  pose proof (@addCategory_adds_one Sample.ui Sample.B
                (Sample.world (Some Sample.B) [Sample.A; Sample.B]
                   [Sample.cli]) eq_refl) as H.
  simpl in H. destruct H as (_ & Hlen & _ & Hg & _).
  split; [reflexivity|]. split; [exact Hlen|]. reflexivity.
Defined.

(** C8.  With no project selected, [addCategory] and [removeCategory] do
    nothing at all: the world after the event is the world before it (the
    list, the selected view, the global categories, every other piece of
    state and the calls made), and the handlers, having no way to throw,
    return normally. *)
Theorem category_handlers_need_selection (w : World)
    (category : Category.t) (categoryId : string) :
  selectedProject (state w) = None ->
  addCategory category (state w) = []
  /\ removeCategory categoryId (state w) = []
  /\ dispatch (addCategory category) w = w
  /\ dispatch (removeCategory categoryId) w = w.
Proof.
  intros Hsel.
  assert (Ha : addCategory category (state w) = [])
    by (unfold addCategory; rewrite Hsel; reflexivity).
  assert (Hr : removeCategory categoryId (state w) = [])
    by (unfold removeCategory; rewrite Hsel; reflexivity).
  repeat split; auto using dispatch_nil.
Qed.

Lemma category_handlers_need_selection_witness :
  let w := Sample.world None [Sample.A; Sample.B] [Sample.cli] in
  dispatch (addCategory Sample.ui) w = w
  /\ dispatch (removeCategory "c2") w = w.
Proof.
  pose proof (@category_handlers_need_selection
                (Sample.world None [Sample.A; Sample.B] [Sample.cli])
                Sample.ui "c2"%string eq_refl) as (_ & _ & Ha & Hr).
  split; [exact Ha | exact Hr].
Defined.

(** C10.  With a project selected, a project at any position of the list
    whose id differs from the selected id is found at the same position,
    identical, after [addCategory] and after [removeCategory], in the list
    the page holds and in the list [removeCategory] hands to the store. *)
Theorem category_handlers_frame (w : World) (selected : Project.t)
    (category : Category.t) (categoryId : string) (i : nat) (p : Project.t) :
  selectedProject (state w) = Some selected ->
  nth_error (projects (state w)) i = Some p ->
  Project.id p <> Project.id selected ->
  nth_error (projects (state (dispatch (addCategory category) w))) i = Some p
  /\ nth_error (projects (state (dispatch (removeCategory categoryId) w))) i
     = Some p
  /\ exists stored,
       trace (dispatch (removeCategory categoryId) w)
       = trace w ++ [setProjects stored]
       /\ nth_error stored i = Some p
       /\ List.length stored = List.length (projects (state w)).
Proof.
  intros Hsel Hi Hid. apply String_eqb_false_iff in Hid.
  destruct (addCategory_state category w Hsel) as (Hps & _).
  destruct (removeCategory_world categoryId w Hsel) as (Hr & _ & _ & Htr).
  split; [|split].
  - rewrite Hps, (withCategoryAdded_nth _ _ _ _ Hi), Hid. reflexivity.
  - rewrite Hr. exact Hi.
  - eexists. split; [exact Htr|]. split.
    + rewrite (withCategoryRemoved_nth _ _ _ _ Hi), Hid. reflexivity.
    + unfold withCategoryRemoved. apply length_map.
Qed.

Lemma category_handlers_frame_witness :
  let w := Sample.world (Some Sample.B) [Sample.A; Sample.B] [] in
  nth_error (projects (state (dispatch (addCategory Sample.ui) w))) 0
  = Some Sample.A
  /\ nth_error (projects (state (dispatch (removeCategory "c2") w))) 0
     = Some Sample.A.
Proof.
  assert (Hid : Project.id Sample.A <> Project.id Sample.B) by discriminate.
  pose proof (@category_handlers_frame
                (Sample.world (Some Sample.B) [Sample.A; Sample.B] [])
                Sample.B Sample.ui "c2"%string 0 Sample.A
                eq_refl eq_refl Hid) as (Ha & Hr & _).
  split; [exact Ha | exact Hr].
Defined.

(** C1 at a concrete input.  Project A, with categories c1 and c2, is in the
    list and selected; [removeCategory "c1"] takes c1 out of the selected
    view and out of the list handed to the store, and leaves the global list
    alone, but the list the page holds still has c1 on project A: the updated
    list was passed to [setProjects], never to [setProjectsState].  The next
    change of the list writes the stale entry back to the store. *)
Theorem removeCategory_keeps_list_stale :
  let w := Sample.world (Some Sample.A) [Sample.A; Sample.B]
             [Sample.ui; Sample.cli] in
  let w' := dispatch (removeCategory "c1") w in
  projects (state w') = [Sample.A; Sample.B]
  /\ hasCategory Sample.A "c1" = true
  /\ option_map Project.cats (selectedProject (state w')) = Some [Sample.cli]
  /\ globalCategories (state w') = [Sample.ui; Sample.cli]
  /\ trace w'
     = [setProjects [Project.with_categories Sample.A [Sample.cli]; Sample.B]]
  /\ trace (dispatch (removeProject "2") w')
     = trace w' ++ [setProjects [Sample.A]].
Proof.
  repeat split.
Qed.

(** The same for every input: [removeCategory] never changes the list the
    page holds, while [addCategory] does. *)
Lemma removeCategory_list_unchanged (categoryId : string) (w : World) :
  projects (state (dispatch (removeCategory categoryId) w))
  = projects (state w).
Proof.
  destruct (selectedProject (state w)) as [selected|] eqn:Hsel.
  - apply (removeCategory_world categoryId w Hsel).
  - rewrite dispatch_nil; [reflexivity|].
    unfold removeCategory. rewrite Hsel. reflexivity.
Qed.

(** ** Discovery *)

Lemma handleSelectRepo_rejected (repo : GitHubRepo.t) (error : string)
    (w : World) :
  handleSelectRepo repo (Rejected error) w
  = (mkWorld
       (update (setIsLoading false) (update (setIsLoading true) (state w)))
       (trace w
        ++ [getRepoDetails
              (nth_error (JS.split "/" (GitHubRepo.full_name repo)) 0)
              (nth_error (JS.split "/" (GitHubRepo.full_name repo)) 1);
            console_error "Error adding project:" error]),
     None).
Proof.
  unfold handleSelectRepo, dispatch. simpl. rewrite <- app_assoc. reflexivity.
Qed.

(** C7.  When [getRepoDetails] fails, [handleSelectRepo] leaves the list of
    projects as it was, its promise is not rejected, discovery mode keeps its
    value (so it stays active), and the loading flag ends cleared; the error
    was logged, and nothing was sent to the store.  The same holds of the
    part of the handler that runs once the request has failed, whatever the
    state has become while the request was pending. *)
Theorem handleSelectRepo_failure_is_silent (repo : GitHubRepo.t)
    (error : string) (w : World) :
  (let (w', raised) := handleSelectRepo repo (Rejected error) w in
   projects (state w') = projects (state w)
   /\ raised = None
   /\ isDiscoveryMode (state w') = isDiscoveryMode (state w)
   /\ isLoading (state w') = false
   /\ selectedProject (state w') = selectedProject (state w)
   /\ globalCategories (state w') = globalCategories (state w)
   /\ (exists owner repoName,
         trace w' = trace w ++ [getRepoDetails owner repoName;
                                console_error "Error adding project:" error]))
  /\ (let w' := dispatch (handleSelectRepo_settle repo (Rejected error)) w in
      projects (state w') = projects (state w)
      /\ thrown (handleSelectRepo_resume repo (Rejected error) (state w))
         = None
      /\ isDiscoveryMode (state w') = isDiscoveryMode (state w)
      /\ isLoading (state w') = false
      /\ trace w'
         = trace w ++ [console_error "Error adding project:" error]).
Proof.
  split.
  - rewrite handleSelectRepo_rejected. simpl.
    repeat split. eexists. eexists. reflexivity.
  - repeat split.
Qed.

(** A successful selection: the details arrive, the project is appended
    with its language breakdown, the page leaves discovery mode, and the
    effect stores the new list. *)
Lemma handleSelectRepo_sample :
  let repo := Sample.repo 10270250 "facebook/react" "react" in
  let details :=
    Sample.details [("TypeScript"%string, 300%float);
                    ("JavaScript"%string, 100%float)] in
  let w := mkWorld (mkState None false EmptyString [] [Sample.A] [] true false) [] in
  let (w', raised) := handleSelectRepo repo (Resolved details) w in
  raised = None
  /\ map Project.id (projects (state w')) = ["1"%string; "10270250"%string]
  /\ map Project.languages (projects (state w'))
     = [[]; [Language.mk "TypeScript" 75%float;
             Language.mk "JavaScript" 25%float]]
  /\ isDiscoveryMode (state w') = false
  /\ isLoading (state w') = false
  /\ trace w'
     = [getRepoDetails (Some "facebook"%string) (Some "react"%string);
        setProjects (projects (state w'))].
Proof.
  vm_compute. repeat split.
Qed.

(** ** The filtered view *)

Lemma prefix_app (sub s : string) :
  String.prefix sub s = true <-> exists post, s = (sub ++ post)%string.
Proof.
  revert s. induction sub as [|a sub IH]; intros s.
  - split; [|destruct s; reflexivity]. intros _. exists s. reflexivity.
  - destruct s as [|b s]; simpl.
    + split; [discriminate|]. intros [post H]. discriminate.
    + destruct (ascii_dec a b) as [Hab|Hab].
      * subst b. rewrite IH. split.
        -- intros [post ->]. exists post. reflexivity.
        -- intros [post H]. injection H as ->. exists post. reflexivity.
      * split; [discriminate|]. intros [post H]. injection H as H1 _.
        symmetry in H1. contradiction.
Qed.

Lemma includes_unfold (s sub : string) :
  JS.includes s sub
  = if String.prefix sub s then true
    else match s with
         | EmptyString => false
         | String _ s' => JS.includes s' sub
         end.
Proof.
  destruct s; reflexivity.
Qed.

Lemma includes_substring (s sub : string) :
  JS.includes s sub = true <-> isSubstring sub s.
Proof.
  unfold isSubstring. induction s as [|c s IH]; rewrite includes_unfold.
  - destruct (String.prefix sub EmptyString) eqn:E.
    + split; [|reflexivity]. intros _. apply prefix_app in E.
      destruct E as [post E]. exists EmptyString, post. exact E.
    + split; [discriminate|]. intros (pre & post & H).
      destruct pre; [|discriminate]. simpl in H.
      assert (String.prefix sub EmptyString = true)
        by (apply prefix_app; exists post; exact H).
      congruence.
  - destruct (String.prefix sub (String c s)) eqn:E.
    + split; [|reflexivity]. intros _. apply prefix_app in E.
      destruct E as [post E]. exists EmptyString, post. exact E.
    + rewrite IH. split.
      * intros (pre & post & ->). exists (String c pre), post. reflexivity.
      * intros (pre & post & H). destruct pre as [|c' pre].
        -- simpl in H.
           assert (String.prefix sub (String c s) = true)
             by (apply prefix_app; exists post; exact H).
           congruence.
        -- injection H as _ ->. exists pre, post. reflexivity.
Qed.

(** Lower-casing the letters A to Z identifies exactly the characters that
    are the same letter. *)
Lemma lowerAscii_eq (c d : ascii) :
  lowerAscii c = lowerAscii d <-> sameLetter c d.
Proof.
  unfold lowerAscii, sameLetter, isCapital.
  pose proof (nat_ascii_bounded c) as Bc.
  pose proof (nat_ascii_bounded d) as Bd.
  assert (Hinj : forall a b, nat_of_ascii a = nat_of_ascii b -> a = b).
  { intros a b E. rewrite <- (ascii_nat_embedding a), E.
    apply ascii_nat_embedding. }
  assert (Hcap : forall n,
             (65 <=? n) && (n <=? 90) = true /\ 65 <= n <= 90
             \/ (65 <=? n) && (n <=? 90) = false /\ (n < 65 \/ 90 < n)).
  { intros n. destruct (Nat.leb_spec 65 n); destruct (Nat.leb_spec n 90);
      cbn; [left|right|right|right]; split; try reflexivity; lia. }
  destruct (Hcap (nat_of_ascii c)) as [[-> Ec]|[-> Ec]];
    destruct (Hcap (nat_of_ascii d)) as [[-> Ed]|[-> Ed]]; clear Hcap.
  - split.
    + intros E. left. apply Hinj. apply (f_equal nat_of_ascii) in E.
      rewrite !nat_ascii_embedding in E by lia. lia.
    + intros [->|[[_ H]|[_ H]]]; [reflexivity|lia|lia].
  - split.
    + intros E. right. left. split; [lia|].
      apply (f_equal nat_of_ascii) in E.
      rewrite nat_ascii_embedding in E by lia. lia.
    + intros [->|[[_ H]|[Hd _]]]; [lia| |lia].
      apply Hinj. rewrite nat_ascii_embedding by lia. lia.
  - split.
    + intros E. right. right. split; [lia|].
      apply (f_equal nat_of_ascii) in E.
      rewrite nat_ascii_embedding in E by lia. lia.
    + intros [->|[[Hc _]|[_ H]]]; [lia|lia|].
      apply Hinj. rewrite nat_ascii_embedding by lia. lia.
  - split.
    + intros ->. left. reflexivity.
    + intros [->|[[Hc _]|[Hd _]]]; [reflexivity|lia|lia].
Qed.

Lemma toLowerCaseAscii_app (s t : string) :
  toLowerCaseAscii (s ++ t) = (toLowerCaseAscii s ++ toLowerCaseAscii t)%string.
Proof.
  induction s as [|c s IH]; [reflexivity|]. cbn. rewrite IH. reflexivity.
Qed.

Lemma toLowerCaseAscii_eq (s t : string) :
  toLowerCaseAscii s = toLowerCaseAscii t <-> equalIgnoringCase s t.
Proof.
  unfold equalIgnoringCase. revert t.
  induction s as [|c s IH]; intros [|d t]; cbn.
  - split; [constructor|reflexivity].
  - split; [discriminate|intros H; inversion H].
  - split; [discriminate|intros H; inversion H].
  - split.
    + intros E. injection E as Ec Es. constructor.
      * apply lowerAscii_eq. exact Ec.
      * apply IH. exact Es.
    + intros H. inversion H as [|? ? ? ? Hc Hs]; subst.
      apply lowerAscii_eq in Hc. apply IH in Hs. rewrite Hc, Hs.
      reflexivity.
Qed.

(** A string whose lower-case form is [x ++ y] splits accordingly. *)
Lemma toLowerCaseAscii_split (s x y : string) :
  toLowerCaseAscii s = (x ++ y)%string ->
  exists a b, s = (a ++ b)%string
              /\ toLowerCaseAscii a = x /\ toLowerCaseAscii b = y.
Proof.
  revert s. induction x as [|c x IH]; intros s E.
  - exists EmptyString, s. repeat split. exact E.
  - destruct s as [|c' s]; [discriminate E|].
    cbn in E. injection E as Ec Es.
    destruct (IH s Es) as (a & b & -> & Ha & Hb).
    exists (String c' a), b. cbn. rewrite Ha, Ec. repeat split. exact Hb.
Qed.

Lemma includes_ignoring_case (s query : string) :
  JS.includes (toLowerCaseAscii s) (toLowerCaseAscii query) = true
  <-> containsIgnoringCase s query.
Proof.
  rewrite includes_substring. unfold isSubstring, containsIgnoringCase.
  split.
  - intros (pre & post & E).
    apply toLowerCaseAscii_split in E as (a & b & -> & _ & Eb).
    apply toLowerCaseAscii_split in Eb as (part & rest & -> & Epart & _).
    exists a, part, rest. split; [reflexivity|].
    apply toLowerCaseAscii_eq. exact Epart.
  - intros (pre & part & post & -> & Epart).
    apply toLowerCaseAscii_eq in Epart.
    exists (toLowerCaseAscii pre), (toLowerCaseAscii post).
    rewrite !toLowerCaseAscii_app, Epart. reflexivity.
Qed.

Lemma matchesSearch_spec toLowerCase query (p : Project.t) :
  lowersAsciiOnly toLowerCase query ->
  lowersAsciiOnly toLowerCase (Project.name p) ->
  lowersAsciiOnly toLowerCase (Project.description p) ->
  matchesSearch toLowerCase query p = true
  <-> containsIgnoringCase (Project.name p) query
      \/ containsIgnoringCase (Project.description p) query.
Proof.
  unfold matchesSearch, lowersAsciiOnly. intros -> -> ->.
  rewrite orb_true_iff, !includes_ignoring_case. reflexivity.
Qed.

Lemma Kept_filter_In {A} (P : A -> Prop) (f : A -> bool) (l : list A) :
  (forall x, In x l -> (f x = true <-> P x)) -> Kept P l (filter f l).
Proof.
  induction l as [|x l IH]; intros H; [constructor|].
  assert (Hl : Kept P l (filter f l)).
  { apply IH. intros y Hy. apply H. right. exact Hy. }
  cbn. destruct (f x) eqn:E.
  - apply Kept_keep; [|exact Hl]. apply H; [left; reflexivity|exact E].
  - apply Kept_drop; [|exact Hl]. intros HP.
    apply H in HP; [congruence|left; reflexivity].
Qed.

(** On text of ASCII characters the host's lower-casing is that of the
    letters A to Z. *)
Lemma lowerAfter_ascii (s : string) :
  Forall (fun c => nat_of_ascii c < 128) (list_ascii_of_string s) ->
  forall afterLetter, lowerAfter afterLetter s = toLowerCaseAscii s.
Proof.
  induction s as [|c s IH]; intros Hs afterLetter; [reflexivity|].
  cbn in Hs. inversion Hs as [|? ? Hc Hs']; subst.
  cbn [lowerAfter toLowerCaseAscii]. destruct s as [|d s]; [reflexivity|].
  assert (E : isGreekLetter c d = false).
  { unfold isGreekLetter.
    replace (nat_of_ascii c =? 206) with false
      by (symmetry; apply Nat.eqb_neq; lia).
    replace (nat_of_ascii c =? 207) with false
      by (symmetry; apply Nat.eqb_neq; lia).
    reflexivity. }
  rewrite E, (IH Hs'). reflexivity.
Qed.

Lemma hasCategory_spec (p : Project.t) (catId : string) :
  hasCategory p catId = true <-> carriesCategory p catId.
Proof.
  unfold hasCategory, carriesCategory, Project.cats, JS.some.
  destruct (Project.categories p) as [cs|]; simpl.
  - rewrite existsb_exists. split.
    + intros (c & Hin & Hc). exists c. split; [exact Hin|].
      apply String_eqb_true_iff, Hc.
    + intros (c & Hin & Hc). exists c. split; [exact Hin|].
      apply String_eqb_true_iff, Hc.
  - split; [discriminate | intros (c & [] & _)].
Qed.

Lemma matchesCategories_spec (selected : list string) (p : Project.t) :
  matchesCategories selected p = true
  <-> selected = []
      \/ forall catId, In catId selected -> carriesCategory p catId.
Proof.
  unfold matchesCategories, JS.every.
  rewrite orb_true_iff, forallb_forall, Nat.eqb_eq, length_zero_iff_nil.
  split; (intros [H|H]; [left; exact H | right]);
    intros catId Hin; apply hasCategory_spec, H, Hin.
Qed.

Lemma toLowerCaseGreek_ascii (s : string) :
  Forall (fun c => nat_of_ascii c < 128) (list_ascii_of_string s) ->
  lowersAsciiOnly toLowerCaseGreek s.
Proof.
  intros Hs. apply lowerAfter_ascii. exact Hs.
Qed.

(** The view on the sample projects: the query is matched without regard
    to case in the name or in the description, and every selected category
    must be carried. *)
Lemma filteredProjects_samples :
  let view := fun (query : string) (selected : list string) =>
    filteredProjects toLowerCaseAscii
      (mkState None false query selected [Sample.A; Sample.B] [] false false)
  in
  view EmptyString [] = [Sample.A; Sample.B]
  /\ view "ALP"%string [] = [Sample.A]
  /\ view "SeCoNd"%string [] = [Sample.B]
  /\ view EmptyString ["c2"%string] = [Sample.A; Sample.B]
  /\ view EmptyString ["c2"%string; "c1"%string] = [Sample.A]
  /\ view "beta"%string ["c1"%string] = [].
Proof.
  repeat split.
Qed.

(** C2.  Where the host's [toLowerCase] changes nothing but the capitals A
    to Z in the query and in the names and descriptions of the projects,
    the filtered view is the list of projects with exactly the visible ones
    kept, in the order of the list: a project is visible when some part of
    its name or of its description equals the query up to the case of
    letters, and either nothing is selected or it carries a category for
    every selected id. *)
Theorem filteredProjects_ignoring_case (toLowerCase : string -> string)
    (s : State) :
  let shown := visible (projectSearch s) (selectedCategories s) in
  lowersAsciiOnly toLowerCase (projectSearch s) ->
  (forall p, In p (projects s) ->
             lowersAsciiOnly toLowerCase (Project.name p)
             /\ lowersAsciiOnly toLowerCase (Project.description p)) ->
  Kept shown (projects s) (filteredProjects toLowerCase s)
  /\ (forall p, In p (filteredProjects toLowerCase s)
                <-> In p (projects s) /\ shown p).
Proof.
  intros shown Hquery Htext.
  assert (HK : Kept shown (projects s) (filteredProjects toLowerCase s)).
  { apply Kept_filter_In. intros p Hp. unfold shown, visible.
    destruct (Htext p Hp) as [Hname Hdescription].
    rewrite andb_true_iff, matchesCategories_spec.
    rewrite (matchesSearch_spec p Hquery Hname Hdescription).
    reflexivity. }
  split; [exact HK | apply (Kept_In HK)].
Qed.

(** The theorem at the host's lower-casing, on the sample projects: the
    query ALP shows Alpha and hides Beta. *)
Lemma filteredProjects_ignoring_case_witness :
  let s := mkState None false "ALP" [] [Sample.A; Sample.B] [] false false in
  Kept (visible "ALP" []) [Sample.A; Sample.B]
       (filteredProjects toLowerCaseGreek s)
  /\ filteredProjects toLowerCaseGreek s = [Sample.A].
Proof.
  cbv zeta. split; [|reflexivity].
  refine (proj1 (@filteredProjects_ignoring_case toLowerCaseGreek
                   (mkState None false "ALP" [] [Sample.A; Sample.B] []
                      false false) _ _)).
  - reflexivity.
  - intros p [<-|[<-|[]]]; split; reflexivity.
Defined.

(** C2 fails as stated, beyond ASCII: the name of the project begins with
    the query, letter for letter, yet the project is not shown.  The
    capital sigma that ends the query is lower-cased to the final sigma;
    the same sigma inside the name, a letter following, is not. *)
Lemma filteredProjects_final_sigma_counterexample :
  let s := mkState None false Sample.odys [] [Sample.Odyssey] [] false
             false in
  toLowerCaseGreek Sample.odys = utf8 [206; 191; 206; 180; 207; 133; 207; 130]
  /\ toLowerCaseGreek Sample.odysseia
     = utf8 [206; 191; 206; 180; 207; 133; 207; 131;
             207; 131; 206; 181; 206; 185; 206; 177]
  /\ isSubstring (projectSearch s) (Project.name Sample.Odyssey)
  /\ visible (projectSearch s) (selectedCategories s) Sample.Odyssey
  /\ filteredProjects toLowerCaseGreek s = []
  /\ ~ (forall p, In p (filteredProjects toLowerCaseGreek s)
                  <-> In p (projects s)
                      /\ visible (projectSearch s) (selectedCategories s) p).
Proof.
  cbv zeta.
  assert (Hsub : isSubstring Sample.odys (Project.name Sample.Odyssey)).
  { exists EmptyString, (utf8 [206; 163; 206; 149; 206; 153; 206; 145]).
    reflexivity. }
  assert (Hvisible : visible Sample.odys [] Sample.Odyssey).
  { split; [|left; reflexivity]. left.
    exists EmptyString, Sample.odys,
      (utf8 [206; 163; 206; 149; 206; 153; 206; 145]).
    split; [reflexivity|].
    unfold equalIgnoringCase. cbn.
    repeat (constructor; [left; reflexivity|]). constructor. }
  split; [reflexivity|]. split; [reflexivity|].
  split; [exact Hsub|]. split; [exact Hvisible|].
  split; [reflexivity|].
  intros H. destruct (H Sample.Odyssey) as [_ Hin].
  destruct (Hin (conj (or_introl eq_refl) Hvisible)).
Qed.

(** ** Sorting *)

Section ArraySort.

Context {A : Type} (comparefn : A -> A -> float).

Lemma Array_insert_perm (x : A) (l : list A) :
  Permutation (Array_insert comparefn x l) (x :: l).
Proof.
  induction l as [|y l IH]; simpl; [reflexivity|].
  destruct (Number.positive (comparefn x y)); [|reflexivity].
  rewrite IH. apply perm_swap.
Qed.

Lemma Array_sort_perm (l : list A) : Permutation (Array_sort comparefn l) l.
Proof.
  induction l as [|x l IH]; simpl; [reflexivity|].
  rewrite Array_insert_perm, IH. reflexivity.
Qed.

(** When, on the elements at hand, the comparator says "after" exactly for
    the smaller key, the sort puts larger keys first and keeps the order of
    elements with equal keys. *)
Variable key : A -> Z.
Variable dom : A -> Prop.
Hypothesis comparefn_key : forall x y, dom x -> dom y ->
  Number.positive (comparefn x y) = (key x <? key y)%Z.

Let after (a b : A) : Prop := (key b <= key a)%Z.

Lemma Array_insert_sorted (x : A) (l : list A) :
  dom x -> Forall dom l ->
  StronglySorted after l -> StronglySorted after (Array_insert comparefn x l).
Proof.
  intros Hx Hl Hs. induction Hs as [|y l Hs IH Hy]; simpl.
  - repeat constructor.
  - inversion Hl as [|? ? Hdy Hdl]; subst.
    rewrite (comparefn_key Hx Hdy).
    destruct (key x <? key y)%Z eqn:E.
    + apply Z.ltb_lt in E. constructor; [apply IH, Hdl|].
      rewrite (Array_insert_perm x l). constructor; [|exact Hy].
      unfold after. lia.
    + apply Z.ltb_ge in E. constructor; [constructor; assumption|].
      constructor; [exact E|].
      eapply Forall_impl; [|exact Hy]. unfold after. intros z Hz. lia.
Qed.

Lemma Array_sort_sorted (l : list A) :
  Forall dom l -> StronglySorted after (Array_sort comparefn l).
Proof.
  induction 1 as [|x l Hx Hl IH]; simpl; [constructor|].
  apply Array_insert_sorted; [exact Hx| |exact IH].
  rewrite (Array_sort_perm l). exact Hl.
Qed.

Lemma Array_insert_stable (k : Z) (x : A) (l : list A) :
  dom x -> Forall dom l ->
  filter (fun a => (key a =? k)%Z) (Array_insert comparefn x l)
  = filter (fun a => (key a =? k)%Z) (x :: l).
Proof.
  intros Hx Hl. induction Hl as [|y l Hy Hl IH]; [reflexivity|].
  cbn [Array_insert]. rewrite (comparefn_key Hx Hy).
  destruct (key x <? key y)%Z eqn:E; [|reflexivity].
  apply Z.ltb_lt in E. cbn [filter] in *. rewrite IH.
  destruct (key x =? k)%Z eqn:Ex, (key y =? k)%Z eqn:Ey; try reflexivity.
  apply Z.eqb_eq in Ex, Ey. lia.
Qed.

Lemma Array_sort_stable (k : Z) (l : list A) :
  Forall dom l ->
  filter (fun a => (key a =? k)%Z) (Array_sort comparefn l)
  = filter (fun a => (key a =? k)%Z) l.
Proof.
  induction 1 as [|x l Hx Hl IH]; [reflexivity|].
  cbn [Array_sort fold_right].
  fold (Array_sort comparefn l).
  rewrite Array_insert_stable; [|exact Hx|].
  - cbn [filter]. rewrite IH. reflexivity.
  - rewrite (Array_sort_perm l). exact Hl.
Qed.

End ArraySort.

(** ** Percentages *)

Lemma percentRange_In (k : Z) : (0 <= k <= 100)%Z -> In k percentRange.
Proof.
  intros Hk. unfold percentRange.
  rewrite <- (Z2Nat.id k) by lia. apply in_map, in_seq. lia.
Qed.

Lemma percentTable_ok : percentTable = true.
Proof.
  vm_compute. reflexivity.
Qed.

Lemma intValue_ofZ (k : Z) :
  (0 <= k <= 100)%Z -> intValue (Number.ofZ k) = k.
Proof.
  intros Hk. pose proof percentTable_ok as H. unfold percentTable in H.
  rewrite forallb_forall in H. specialize (H k (percentRange_In Hk)).
  apply andb_true_iff in H. apply Z.eqb_eq, H.
Qed.

Lemma comparator_on_percentages (a b : Z) :
  (0 <= a <= 100)%Z -> (0 <= b <= 100)%Z ->
  Number.positive (Number.ofZ b - Number.ofZ a)%float = (a <? b)%Z.
Proof.
  intros Ha Hb. pose proof percentTable_ok as H. unfold percentTable in H.
  rewrite forallb_forall in H. specialize (H a (percentRange_In Ha)).
  apply andb_true_iff in H. destruct H as [_ H].
  rewrite forallb_forall in H. specialize (H b (percentRange_In Hb)).
  apply Bool.eqb_prop, H.
Qed.

Lemma byPercentageDesc_key (x y : Language.t) :
  isPercentage (Language.percentage x) ->
  isPercentage (Language.percentage y) ->
  Number.positive (byPercentageDesc x y)
  = (intValue (Language.percentage x) <? intValue (Language.percentage y))%Z.
Proof.
  intros [Hx Ex] [Hy Ey]. unfold byPercentageDesc.
  rewrite Ex, Ey at 1. apply comparator_on_percentages; assumption.
Qed.

(** The breakdown before it is sorted. *)
Lemma normalizeLanguages_unfold (languages : list (string * float)) :
  normalizeLanguages languages
  = Array_sort byPercentageDesc
      (map (fun '(name, bytes) =>
              Language.mk name (percentageOf (totalBytes languages) bytes))
           languages).
Proof.
  reflexivity.
Qed.

(** C5 fails as stated: of 40 bytes, 23 are 57.5 percent, which rounds to
    58 (and [100 * 23 / 40], evaluated in binary64 in that order, is 57.5
    too); the page computes [23 / 40 * 100], which in binary64 is
    57.499999999999993, and shows 57. *)
Lemma normalizeLanguages_inexact_counterexample :
  let languages := byteCounts [("A"%string, 23%Z); ("B"%string, 17%Z)] in
  totalBytes languages = 40%float
  /\ normalizeLanguages languages
     = [Language.mk "A" 57%float; Language.mk "B" 43%float]
  /\ exactPercentage 40 23 = 58%Z
  /\ Number.Math_round (100 * 23 / 40)%float = 58%float
  /\ (23 / 40 * 100)%float = 0x1.cbfffffffffffp+5%float
  /\ ~ (exists l, In l (normalizeLanguages languages)
                  /\ Language.name l = "A"%string
                  /\ intValue (Language.percentage l)
                     = exactPercentage 40 23).
Proof.
  cbv zeta. split; [vm_compute; reflexivity|].
  split; [vm_compute; reflexivity|]. split; [reflexivity|].
  split; [vm_compute; reflexivity|]. split; [vm_compute; reflexivity|].
  replace (normalizeLanguages (byteCounts [("A"%string, 23%Z);
                                           ("B"%string, 17%Z)]))
    with [Language.mk "A" 57%float; Language.mk "B" 43%float]
    by (vm_compute; reflexivity).
  intros (l & [<-|[<-|[]]] & Hname & Hval).
  - vm_compute in Hval. discriminate.
  - discriminate.
Qed.

(** C6 fails as stated: 3, 3 and 2 bytes of 8 are 37.5, 37.5 and 25
    percent, shown as 38, 38 and 25, which add up to 101. *)
Lemma percentageSum_counterexample :
  let languages :=
    byteCounts [("A"%string, 3%Z); ("B"%string, 3%Z); ("C"%string, 2%Z)] in
  totalBytes languages = 8%float
  /\ map Language.percentage (normalizeLanguages languages)
     = [38%float; 38%float; 25%float]
  /\ percentageSum (normalizeLanguages languages) = 101%Z
  /\ ~ (percentageSum (normalizeLanguages languages) <= 100)%Z.
Proof.
  vm_compute. repeat split. intros H. apply H. reflexivity.
Qed.

Lemma percentageSum_perm (l l' : list Language.t) :
  Permutation l l' -> percentageSum l = percentageSum l'.
Proof.
  induction 1; simpl; lia.
Qed.

(** On percentages between 0 and 100 the sort orders the entries, larger
    percentages first, and keeps the order of equal ones. *)
Lemma Array_sort_percentages (entries : list Language.t) :
  Forall (fun l => isPercentage (Language.percentage l)) entries ->
  StronglySorted descending (Array_sort byPercentageDesc entries)
  /\ (forall k,
        filter (fun l => (intValue (Language.percentage l) =? k)%Z)
               (Array_sort byPercentageDesc entries)
        = filter (fun l => (intValue (Language.percentage l) =? k)%Z)
                 entries).
Proof.
  intros Hdom. split.
  - apply (@Array_sort_sorted _ byPercentageDesc
             (fun l => intValue (Language.percentage l))
             (fun l => isPercentage (Language.percentage l))
             byPercentageDesc_key).
    exact Hdom.
  - intros k.
    apply (@Array_sort_stable _ byPercentageDesc
             (fun l => intValue (Language.percentage l))
             (fun l => isPercentage (Language.percentage l))
             byPercentageDesc_key).
    exact Hdom.
Qed.

Lemma sumZ_nonneg (l : list Z) :
  Forall (fun x => 0 <= x)%Z l -> (0 <= sumZ l)%Z.
Proof.
  induction 1 as [|x l Hx Hl IH]; cbn [sumZ fold_right]; [lia|].
  fold (sumZ l). lia.
Qed.

Lemma sumZ_member_le (l : list Z) (b : Z) :
  Forall (fun x => 0 <= x)%Z l -> In b l -> (b <= sumZ l)%Z.
Proof.
  induction 1 as [|x l Hx Hl IH]; [contradiction|].
  cbn [sumZ fold_right]. fold (sumZ l).
  pose proof (sumZ_nonneg Hl).
  intros [->|Hin]; [lia|]. specialize (IH Hin). lia.
Qed.

(** * More of the page *)

(** ** What one event does *)

Lemma react_projects (w : World) (e : Event) :
  projects (state (react w e))
  = match e with
    | RemoveProject id =>
        filter (fun p => negb (JS.seq (Project.id p) id)) (projects (state w))
    | AddCategory category =>
        match selectedProject (state w) with
        | Some selected =>
            withCategoryAdded selected category (projects (state w))
        | None => projects (state w)
        end
    | DetailsSettled repo (Resolved details) =>
        projects (state w) ++ [projectOf repo details]
    | _ => projects (state w)
    end.
Proof.
  destruct e; try reflexivity.
  - unfold react, handlerOf, dispatch, addCategory.
    destruct (selectedProject (state w)); [|reflexivity].
    destruct (JS.truthy _); reflexivity.
  - unfold react, handlerOf, dispatch, removeCategory.
    destruct (selectedProject (state w)); reflexivity.
  - destruct outcome; reflexivity.
Qed.

Lemma react_globalCategories (w : World) (e : Event) :
  globalCategories (state (react w e))
  = match e with
    | AddCategory category =>
        match selectedProject (state w) with
        | Some _ =>
            if JS.truthy (JS.find (fun c => JS.seq (Category.name c)
                                                   (Category.name category))
                                  (globalCategories (state w)))
            then globalCategories (state w)
            else globalCategories (state w) ++ [category]
        | None => globalCategories (state w)
        end
    | _ => globalCategories (state w)
    end.
Proof.
  destruct e; try reflexivity.
  - unfold react, handlerOf, dispatch, addCategory.
    destruct (selectedProject (state w)); [|reflexivity].
    destruct (JS.truthy _); reflexivity.
  - unfold react, handlerOf, dispatch, removeCategory.
    destruct (selectedProject (state w)); reflexivity.
  - destruct outcome; reflexivity.
Qed.

Lemma react_selectedProject (w : World) (e : Event) :
  selectedProject (state (react w e))
  = match e with
    | AddCategory category =>
        option_map (fun selected =>
                      Project.with_categories selected
                        (Project.cats selected ++ [category]))
                   (selectedProject (state w))
    | RemoveCategory categoryId =>
        option_map (fun selected =>
                      Project.with_categories selected
                        (filter (fun c => negb (JS.seq (Category.id c)
                                                       categoryId))
                                (Project.cats selected)))
                   (selectedProject (state w))
    | OpenProject project => Some project
    | CloseProject => None
    | _ => selectedProject (state w)
    end.
Proof.
  destruct e; try reflexivity.
  - unfold react, handlerOf, dispatch, addCategory.
    destruct (selectedProject (state w)) eqn:E; [|exact E].
    destruct (JS.truthy _); reflexivity.
  - unfold react, handlerOf, dispatch, removeCategory.
    destruct (selectedProject (state w)) eqn:E; [reflexivity|exact E].
  - destruct outcome; reflexivity.
Qed.

Lemma react_selectedCategories (w : World) (e : Event) :
  selectedCategories (state (react w e))
  = match e with
    | ToggleCategoryFilter categoryId =>
        if existsb (JS.seq categoryId) (selectedCategories (state w))
        then filter (fun id => negb (JS.seq id categoryId))
                    (selectedCategories (state w))
        else selectedCategories (state w) ++ [categoryId]
    | _ => selectedCategories (state w)
    end.
Proof.
  destruct e; try reflexivity.
  - unfold react, handlerOf, dispatch, addCategory.
    destruct (selectedProject (state w)); [|reflexivity].
    destruct (JS.truthy _); reflexivity.
  - unfold react, handlerOf, dispatch, removeCategory.
    destruct (selectedProject (state w)); reflexivity.
  - destruct outcome; reflexivity.
Qed.

Lemma react_projectSearch (w : World) (e : Event) :
  projectSearch (state (react w e))
  = match e with
    | Search query => query
    | _ => projectSearch (state w)
    end.
Proof.
  destruct e; try reflexivity.
  - unfold react, handlerOf, dispatch, addCategory.
    destruct (selectedProject (state w)); [|reflexivity].
    destruct (JS.truthy _); reflexivity.
  - unfold react, handlerOf, dispatch, removeCategory.
    destruct (selectedProject (state w)); reflexivity.
  - destruct outcome; reflexivity.
Qed.

Lemma lastSetProjects_snoc (calls : list Call) (c : Call) :
  lastSetProjects (calls ++ [c])
  = match c with
    | setProjects ps => Some ps
    | _ => lastSetProjects calls
    end.
Proof. unfold lastSetProjects. rewrite fold_left_app. reflexivity. Qed.

Lemma lastSetCategories_snoc (calls : list Call) (c : Call) :
  lastSetCategories (calls ++ [c])
  = match c with
    | setCategories cs => Some cs
    | _ => lastSetCategories calls
    end.
Proof. unfold lastSetCategories. rewrite fold_left_app. reflexivity. Qed.

(** The list the store holds after an event. *)
Lemma react_lastSetProjects (w : World) (e : Event) :
  lastSetProjects (trace (react w e))
  = match e with
    | RemoveProject _ | DetailsSettled _ (Resolved _) =>
        Some (projects (state (react w e)))
    | AddCategory _ =>
        match selectedProject (state w) with
        | Some _ => Some (projects (state (react w e)))
        | None => lastSetProjects (trace w)
        end
    | RemoveCategory categoryId =>
        match selectedProject (state w) with
        | Some selected =>
            Some (withCategoryRemoved selected categoryId
                    (projects (state w)))
        | None => lastSetProjects (trace w)
        end
    | _ => lastSetProjects (trace w)
    end.
Proof.
  destruct e; try reflexivity.
  - unfold react, handlerOf, dispatch, removeProject. cbn -[lastSetProjects lastSetCategories].
    apply lastSetProjects_snoc.
  - unfold react, handlerOf, dispatch, addCategory.
    destruct (selectedProject (state w)); [|reflexivity].
    destruct (JS.truthy _); cbn -[lastSetProjects lastSetCategories]; rewrite ?lastSetProjects_snoc; reflexivity.
  - unfold react, handlerOf, dispatch, removeCategory.
    destruct (selectedProject (state w)); [|reflexivity].
    cbn -[lastSetProjects lastSetCategories]. apply lastSetProjects_snoc.
  - unfold react, handlerOf, dispatch, handleSelectRepo_begin. cbn -[lastSetProjects lastSetCategories].
    apply lastSetProjects_snoc.
  - destruct outcome; unfold react, handlerOf, dispatch; cbn -[lastSetProjects lastSetCategories].
    + apply lastSetProjects_snoc.
    + apply lastSetProjects_snoc.
Qed.

Lemma react_lastSetCategories (w : World) (e : Event) :
  lastSetCategories (trace (react w e))
  = match e with
    | AddCategory category =>
        match selectedProject (state w) with
        | Some _ =>
            if JS.truthy (JS.find (fun c => JS.seq (Category.name c)
                                                   (Category.name category))
                                  (globalCategories (state w)))
            then lastSetCategories (trace w)
            else Some (globalCategories (state (react w e)))
        | None => lastSetCategories (trace w)
        end
    | _ => lastSetCategories (trace w)
    end.
Proof.
  destruct e; try reflexivity.
  - unfold react, handlerOf, dispatch, removeProject. cbn -[lastSetProjects lastSetCategories].
    apply lastSetCategories_snoc.
  - unfold react, handlerOf, dispatch, addCategory.
    destruct (selectedProject (state w)); [|reflexivity].
    destruct (JS.truthy _); cbn -[lastSetProjects lastSetCategories].
    + apply lastSetCategories_snoc.
    + apply lastSetCategories_snoc.
  - unfold react, handlerOf, dispatch, removeCategory.
    destruct (selectedProject (state w)); [|reflexivity].
    cbn -[lastSetProjects lastSetCategories]. apply lastSetCategories_snoc.
  - unfold react, handlerOf, dispatch, handleSelectRepo_begin. cbn -[lastSetProjects lastSetCategories].
    apply lastSetCategories_snoc.
  - destruct outcome; unfold react, handlerOf, dispatch; cbn -[lastSetProjects lastSetCategories].
    + apply lastSetCategories_snoc.
    + apply lastSetCategories_snoc.
Qed.

(** A property kept by every allowed event is kept by every run of them. *)
Lemma run_invariant (P : World -> Prop) (allowed : Event -> bool) :
  (forall w e, allowed e = true -> P w -> P (react w e)) ->
  forall events w,
    forallb allowed events = true -> P w -> P (run events w).
Proof.
  intros step events. induction events as [|e events IH]; intros w Hall Hw.
  - exact Hw.
  - cbn in Hall. apply andb_true_iff in Hall as [He Hall].
    cbn. apply IH; [exact Hall|]. apply step; assumption.
Qed.

Lemma run_app (events events' : list Event) (w : World) :
  run (events ++ events') w = run events' (run events w).
Proof. unfold run. apply fold_left_app. Qed.

Lemma forallb_const_true {A} (l : list A) : forallb (fun _ => true) l = true.
Proof. induction l; [reflexivity|exact IHl]. Qed.

(** ** The store and the lists, over any sequence of events *)

(** X1.  The store mirrors the list of projects: if the list last handed to
    [setProjects] is the list of the page, it still is after any sequence
    of events in which no category is removed from a project. *)
Theorem store_mirrors_projects (events : list Event) (w : World) :
  forallb (fun e => negb (isRemoveCategory e)) events = true ->
  lastSetProjects (trace w) = Some (projects (state w)) ->
  lastSetProjects (trace (run events w))
  = Some (projects (state (run events w))).
Proof.
  apply (run_invariant
           (fun w => lastSetProjects (trace w) = Some (projects (state w)))).
  clear. intros w e He Hw. rewrite react_lastSetProjects.
  destruct e; try discriminate He; try reflexivity;
    try (rewrite react_projects; exact Hw).
  - destruct (selectedProject (state w)) eqn:E; [reflexivity|].
    rewrite react_projects, E. exact Hw.
  - destruct outcome; [reflexivity|]. rewrite react_projects. exact Hw.
Qed.

Lemma store_mirrors_projects_witness :
  let events := [OpenProject Sample.A; AddCategory Sample.ui;
                 RemoveProject "2"; CloseProject] in
  let w := run events (mount (Some [Sample.A; Sample.B]) None) in
  lastSetProjects (trace w) = Some (projects (state w)).
Proof.
  cbv zeta. apply store_mirrors_projects; reflexivity.
Defined.

(** X2.  The store mirrors the global categories: if the list last handed
    to [setCategories] is the list of the page, it still is after any
    sequence of events. *)
Theorem store_mirrors_categories (events : list Event) (w : World) :
  lastSetCategories (trace w) = Some (globalCategories (state w)) ->
  lastSetCategories (trace (run events w))
  = Some (globalCategories (state (run events w))).
Proof.
  intros Hw.
  apply (run_invariant
           (fun w => lastSetCategories (trace w)
                     = Some (globalCategories (state w)))
           (fun _ => true));
    [|apply forallb_const_true|exact Hw].
  clear. intros w e _ Hw. rewrite react_lastSetCategories.
  destruct e; try (rewrite react_globalCategories; exact Hw).
  destruct (selectedProject (state w)) eqn:E.
  - destruct (JS.truthy _) eqn:T; [|reflexivity].
    rewrite react_globalCategories, E, T. exact Hw.
  - rewrite react_globalCategories, E. exact Hw.
Qed.

Lemma store_mirrors_categories_witness :
  let events := [OpenProject Sample.A; AddCategory Sample.ui;
                 RemoveCategory "c1"; AddCategory Sample.ui] in
  let w := run events (mount (Some [Sample.A]) (Some [Sample.cli])) in
  lastSetCategories (trace w) = Some (globalCategories (state w)).
Proof.
  cbv zeta. apply store_mirrors_categories; reflexivity.
Defined.

(** X3.  The names of the global categories stay pairwise distinct: no
    sequence of events gives two global categories the same name. *)
Theorem global_names_stay_distinct (events : list Event) (w : World) :
  NoDup (map Category.name (globalCategories (state w))) ->
  NoDup (map Category.name (globalCategories (state (run events w)))).
Proof.
  intros Hw.
  apply (run_invariant
           (fun w => NoDup (map Category.name (globalCategories (state w))))
           (fun _ => true));
    [|apply forallb_const_true|exact Hw].
  clear. intros w e _ Hw. rewrite react_globalCategories.
  destruct e; try exact Hw.
  destruct (selectedProject (state w)); [|exact Hw].
  destruct (JS.truthy _) eqn:T; [exact Hw|].
  rewrite map_app. cbn [map].
  apply NoDup_app; [exact Hw|repeat constructor; intros []|].
  intros name Hin [Heq|[]]. subst name.
  assert (Htaken : nameTaken (Category.name category)
                     (globalCategories (state w))).
  { apply in_map_iff in Hin as [c [Hc Hin]]. exists c. split; assumption. }
  apply find_name_taken in Htaken. congruence.
Qed.

Lemma global_names_stay_distinct_witness :
  let events := [OpenProject Sample.A; AddCategory Sample.ui;
                 AddCategory (Sample.category "c9" "UI")] in
  NoDup (map Category.name
           (globalCategories (state (run events (mount None None))))).
Proof.
  cbv zeta. apply global_names_stay_distinct. constructor.
Defined.

(** X4.  The global categories only grow: after any sequence of events the
    list is the former one followed by the categories registered since;
    nothing is removed from it or reordered. *)
Theorem global_categories_only_grow (events : list Event) (w : World) :
  exists added,
    globalCategories (state (run events w))
    = globalCategories (state w) ++ added.
Proof.
  revert w. induction events as [|e events IH]; intros w.
  - exists []. symmetry. apply app_nil_r.
  - change (run (e :: events) w) with (run events (react w e)).
    destruct (IH (react w e)) as [added Hadded]. rewrite Hadded.
    rewrite react_globalCategories.
    destruct e; try (exists added; reflexivity).
    destruct (selectedProject (state w)); [|exists added; reflexivity].
    destruct (JS.truthy _); [exists added; reflexivity|].
    exists (category :: added). rewrite <- app_assoc. reflexivity.
Qed.

(** X5.  Once every project of the list has its [categories] array, every
    project has it after any sequence of events: what discovery adds has
    the empty array, and adding a category never takes the array away. *)
Theorem categories_stay_defined (events : list Event) (w : World) :
  Forall (fun p => Project.categories p <> None) (projects (state w)) ->
  Forall (fun p => Project.categories p <> None)
         (projects (state (run events w))).
Proof.
  intros Hw.
  apply (run_invariant
           (fun w => Forall (fun p => Project.categories p <> None)
                            (projects (state w)))
           (fun _ => true));
    [|apply forallb_const_true|exact Hw].
  clear. intros w e _ Hw. rewrite react_projects.
  destruct e; try exact Hw.
  - apply Forall_forall. intros p Hp. apply filter_In in Hp as [Hp _].
    revert p Hp. apply Forall_forall. exact Hw.
  - destruct (selectedProject (state w)); [|exact Hw].
    unfold withCategoryAdded. apply Forall_map.
    revert Hw. apply Forall_impl. intros p Hp.
    destruct (JS.seq _ _); [discriminate|exact Hp].
  - destruct outcome; [|exact Hw].
    apply Forall_app. split; [exact Hw|].
    constructor; [discriminate|constructor].
Qed.

Lemma categories_stay_defined_witness :
  let r := Sample.repo 7 "octocat/hello" "hello" in
  let events := [SelectRepo r;
                 DetailsSettled r (Resolved (Sample.details []))] in
  Forall (fun p => Project.categories p <> None)
         (projects (state (run events (mount (Some [Sample.A]) None)))).
Proof.
  cbv zeta. apply categories_stay_defined.
  constructor; [discriminate|constructor].
Defined.

(** X6.  The selected category filters never hold an id twice: from the
    first render on, whatever the events. *)
Theorem selected_categories_distinct (storedProjects : option (list Project.t))
    (storedCategories : option (list Category.t)) (events : list Event) :
  NoDup (selectedCategories
           (state (run events (mount storedProjects storedCategories)))).
Proof.
  apply (run_invariant (fun w => NoDup (selectedCategories (state w)))
                       (fun _ => true));
    [|apply forallb_const_true|constructor].
  clear. intros w e _ Hw. rewrite react_selectedCategories.
  destruct e; try exact Hw.
  destruct (existsb _ _) eqn:E.
  - apply NoDup_filter. exact Hw.
  - apply NoDup_app; [exact Hw|repeat constructor; intros []|].
    intros id Hin [Heq|[]]. subst id.
    assert (H : existsb (JS.seq categoryId) (selectedCategories (state w))
                = true).
    { apply existsb_exists. exists categoryId. split; [exact Hin|].
      apply String.eqb_refl. }
    congruence.
Qed.

(** X7.  What discovery adds comes in the order the requests settle: over
    any sequence of events that neither removes a project nor adds a
    category, the list is the former one followed by one project for each
    request that settled with details, whatever was selected or pending in
    between. *)
Theorem discovery_appends_in_settling_order (events : list Event)
    (w : World) :
  forallb (fun e => negb (editsProjects e)) events = true ->
  projects (state (run events w))
  = projects (state w) ++ flat_map discovered events.
Proof.
  revert w. induction events as [|e events IH]; intros w Hall.
  - symmetry. apply app_nil_r.
  - cbn in Hall. apply andb_true_iff in Hall as [He Hall].
    change (run (e :: events) w) with (run events (react w e)).
    cbn [flat_map].
    rewrite (IH _ Hall), react_projects.
    destruct e; try discriminate He; cbn [discovered];
      try reflexivity.
    destruct outcome; cbn [app]; [|reflexivity].
    rewrite <- app_assoc. reflexivity.
Qed.

Lemma discovery_appends_in_settling_order_witness :
  let r1 := Sample.repo 7 "octocat/hello" "hello" in
  let r2 := Sample.repo 8 "octocat/world" "world" in
  let d := Sample.details [] in
  map Project.name
      (projects (state (run [SelectRepo r1; SelectRepo r2;
                             DetailsSettled r2 (Resolved d);
                             DetailsSettled r1 (Resolved d)]
                            (mount (Some [Sample.A]) None))))
  = ["Alpha"; "world"; "hello"]%string.
Proof.
  cbv zeta. rewrite discovery_appends_in_settling_order; reflexivity.
Defined.

(** ** Removing the project that is open *)

Lemma withCategoryAdded_absent (selected : Project.t) (category : Category.t)
    (ps : list Project.t) :
  (forall q, In q ps -> Project.id q <> Project.id selected) ->
  withCategoryAdded selected category ps = ps.
Proof.
  intros Habsent. unfold withCategoryAdded.
  rewrite <- (map_id ps) at 2. apply map_ext_in. intros q Hq.
  destruct (JS.seq _ _) eqn:E; [|reflexivity].
  apply String_eqb_true_iff in E. destruct (Habsent q Hq E).
Qed.

(** X8.  [removeProject] leaves the selection alone: removing the project
    shown in the detail view keeps the detail view and the category dialog
    on it, though no project of the list has its id any more. *)
Theorem removeProject_keeps_detail_view (toLowerCase : string -> string)
    (w : World) (p : Project.t) :
  selectedProject (state w) = Some p ->
  let w' := react w (RemoveProject (Project.id p)) in
  panel toLowerCase (state w') = DetailPanel p
  /\ categoryDialog (state w')
     = Some (isCategoryDialogOpen (state w), Project.cats p, Project.id p)
  /\ (forall q, In q (projects (state w')) -> Project.id q <> Project.id p).
Proof.
  intros Hsel w'.
  assert (Hsel' : selectedProject (state w') = Some p).
  { unfold w'. rewrite react_selectedProject. exact Hsel. }
  repeat split.
  - unfold panel. rewrite Hsel'. reflexivity.
  - unfold categoryDialog. rewrite Hsel'. reflexivity.
  - intros q Hq. unfold w' in Hq. rewrite react_projects in Hq.
    apply filter_In in Hq as [_ Hq]. apply negb_true_iff in Hq.
    apply String_eqb_false_iff in Hq. exact Hq.
Qed.

Lemma removeProject_keeps_detail_view_witness :
  let w := Sample.world (Some Sample.A) [Sample.A; Sample.B] [] in
  panel toLowerCaseAscii (state (react w (RemoveProject "1")))
  = DetailPanel Sample.A.
Proof.
  cbv zeta.
  apply (@removeProject_keeps_detail_view toLowerCaseAscii
           (Sample.world (Some Sample.A) [Sample.A; Sample.B] []) Sample.A).
  reflexivity.
Defined.

Lemma addCategory_trace (w : World) (selected : Project.t)
    (category : Category.t) :
  selectedProject (state w) = Some selected ->
  trace (react w (AddCategory category))
  = trace w
    ++ setProjects (withCategoryAdded selected category (projects (state w)))
       :: (if JS.truthy (JS.find (fun c => JS.seq (Category.name c)
                                                  (Category.name category))
                                 (globalCategories (state w)))
           then []
           else [setCategories (globalCategories (state w) ++ [category])]).
Proof.
  intros Hsel. unfold react, handlerOf, dispatch, addCategory.
  rewrite Hsel. destruct (JS.truthy _); cbn.
  - reflexivity.
  - rewrite <- app_assoc. reflexivity.
Qed.

(** X9.  A category added in the detail view of a project that has been
    removed reaches the view and the global categories, but no project of
    the list: the list is the one the removal left, and it is handed to the
    store once more, followed by the global categories when the name of the
    category is new. *)
Theorem addCategory_after_removal (w : World) (p : Project.t)
    (category : Category.t) :
  selectedProject (state w) = Some p ->
  let w1 := react w (RemoveProject (Project.id p)) in
  let w2 := react w1 (AddCategory category) in
  let taken :=
    nameTaken (Category.name category) (globalCategories (state w)) in
  projects (state w2) = projects (state w1)
  /\ lastSetProjects (trace w2) = Some (projects (state w1))
  /\ option_map Project.cats (selectedProject (state w2))
     = Some (Project.cats p ++ [category])
  /\ (taken ->
      trace w2 = trace w1 ++ [setProjects (projects (state w1))]
      /\ globalCategories (state w2) = globalCategories (state w))
  /\ (~ taken ->
      trace w2
      = trace w1
        ++ [setProjects (projects (state w1));
            setCategories (globalCategories (state w) ++ [category])]
      /\ globalCategories (state w2)
         = globalCategories (state w) ++ [category]).
Proof.
  intros Hsel w1 w2 taken.
  assert (Hsel1 : selectedProject (state w1) = Some p).
  { unfold w1. rewrite react_selectedProject. exact Hsel. }
  assert (Habsent : withCategoryAdded p category (projects (state w1))
                    = projects (state w1)).
  { apply withCategoryAdded_absent. intros q Hq.
    unfold w1 in Hq. rewrite react_projects in Hq.
    apply filter_In in Hq as [_ Hq]. apply negb_true_iff in Hq.
    apply String_eqb_false_iff in Hq. exact Hq. }
  assert (Hps : projects (state w2) = projects (state w1)).
  { unfold w2. rewrite react_projects, Hsel1. exact Habsent. }
  assert (Hglobals1 : globalCategories (state w1)
                      = globalCategories (state w)).
  { unfold w1. apply react_globalCategories. }
  assert (Htrace := @addCategory_trace w1 p category Hsel1).
  fold w2 in Htrace. rewrite Habsent, Hglobals1 in Htrace.
  assert (Hglobals := react_globalCategories w1 (AddCategory category)).
  fold w2 in Hglobals. cbv beta iota in Hglobals.
  rewrite Hsel1, Hglobals1 in Hglobals.
  split; [exact Hps|].
  split.
  { unfold w2 at 1. rewrite react_lastSetProjects, Hsel1.
    fold w2. rewrite Hps. reflexivity. }
  split.
  { unfold w2. rewrite react_selectedProject, Hsel1. reflexivity. }
  split.
  - intros Htaken. apply find_name_taken in Htaken.
    rewrite Htaken in Htrace, Hglobals. split; assumption.
  - intros Hfree.
    destruct (JS.truthy _) eqn:T.
    + apply find_name_taken in T. destruct (Hfree T).
    + split; assumption.
Qed.

Lemma addCategory_after_removal_witness :
  let w := Sample.world (Some Sample.B) [Sample.A; Sample.B] [] in
  let w' := run [RemoveProject "2"; AddCategory Sample.ui] w in
  projects (state w') = [Sample.A]
  /\ trace w' = [setProjects [Sample.A]; setProjects [Sample.A];
                 setCategories [Sample.ui]].
Proof.
  cbv zeta.
  pose proof (@addCategory_after_removal
                (Sample.world (Some Sample.B) [Sample.A; Sample.B] [])
                Sample.B Sample.ui eq_refl) as H.
  cbv zeta in H. destruct H as (Hps & _ & _ & _ & Hfree).
  split; [exact Hps|].
  apply Hfree. intros (c & [] & _).
Defined.

(** ** The category filter *)

Lemma matchesCategories_every (selected : list string) (p : Project.t) :
  matchesCategories selected p = forallb (hasCategory p) selected.
Proof.
  unfold matchesCategories, JS.every. destruct selected; reflexivity.
Qed.

Lemma filter_filter {A} (f g : A -> bool) (l : list A) :
  filter f (filter g l) = filter (fun x => g x && f x) l.
Proof.
  induction l as [|x l IH]; [reflexivity|].
  cbn. destruct (g x); cbn; [destruct (f x)|]; rewrite IH; reflexivity.
Qed.

Lemma filter_none {A} (f : A -> bool) (l : list A) :
  (forall x, In x l -> f x = true) -> filter f l = l.
Proof.
  induction l as [|x l IH]; intros H; [reflexivity|].
  cbn. rewrite (H x (or_introl eq_refl)), IH; [reflexivity|].
  intros y Hy. apply H. right. exact Hy.
Qed.

Lemma existsb_seq_In (id : string) (l : list string) :
  existsb (JS.seq id) l = true <-> In id l.
Proof.
  rewrite existsb_exists. split.
  - intros [x [Hx E]]. apply String_eqb_true_iff in E. subst x. exact Hx.
  - intros H. exists id. split; [exact H|apply String.eqb_refl].
Qed.

Lemma selectedCategories_toggled_on (w : World) (categoryId : string) :
  ~ In categoryId (selectedCategories (state w)) ->
  selectedCategories (state (react w (ToggleCategoryFilter categoryId)))
  = selectedCategories (state w) ++ [categoryId].
Proof.
  intros Hnot. rewrite react_selectedCategories.
  destruct (existsb _ _) eqn:E; [|reflexivity].
  apply existsb_seq_In in E. destruct (Hnot E).
Qed.

(** X10.  [toggleCategoryFilter] flips one id: afterwards the toggled id is
    selected exactly if it was not before, every copy of it being dropped
    otherwise, and any other id is selected exactly if it was before. *)
Theorem toggleCategoryFilter_flips_one (w : World) (categoryId id : string) :
  let before := selectedCategories (state w) in
  let after :=
    selectedCategories (state (react w (ToggleCategoryFilter categoryId))) in
  In id after
  <-> (id = categoryId /\ ~ In categoryId before)
      \/ (id <> categoryId /\ In id before).
Proof.
  cbv zeta. rewrite react_selectedCategories.
  destruct (existsb _ _) eqn:E.
  - apply existsb_seq_In in E. rewrite filter_In, negb_true_iff.
    split.
    + intros [Hin Hne]. apply String_eqb_false_iff in Hne.
      right. split; assumption.
    + intros [[_ Hnot]|[Hne Hin]]; [destruct (Hnot E)|].
      split; [exact Hin|]. apply String_eqb_false_iff. exact Hne.
  - assert (Hnot : ~ In categoryId (selectedCategories (state w))).
    { intros Hin. apply existsb_seq_In in Hin. congruence. }
    rewrite in_app_iff. cbn [In]. split.
    + intros [Hin|[Heq|[]]].
      * right. split; [|exact Hin]. intros ->. exact (Hnot Hin).
      * left. split; [symmetry; exact Heq|exact Hnot].
    + intros [[-> _]|[_ Hin]]; [right; left; reflexivity|left; exact Hin].
Qed.

(** X11.  Toggling a filter on and off again: for an id that was not
    selected, two toggles leave the page as it was, down to the order of
    the selected ids, and nothing is written to the store. *)
Theorem toggleCategoryFilter_twice (w : World) (categoryId : string) :
  ~ In categoryId (selectedCategories (state w)) ->
  run [ToggleCategoryFilter categoryId; ToggleCategoryFilter categoryId] w
  = w.
Proof.
  intros Hnot.
  assert (Hoff : existsb (JS.seq categoryId) (selectedCategories (state w))
                 = false).
  { destruct (existsb _ _) eqn:E; [|reflexivity].
    apply existsb_seq_In in E. destruct (Hnot E). }
  assert (Hon : existsb (JS.seq categoryId)
                  (selectedCategories (state w) ++ [categoryId]) = true).
  { apply existsb_seq_In, in_app_iff. right. left. reflexivity. }
  assert (Hback : filter (fun id => negb (JS.seq id categoryId))
                    (selectedCategories (state w) ++ [categoryId])
                  = selectedCategories (state w)).
  { rewrite filter_app. cbn [filter]. unfold JS.seq at 2.
    rewrite String.eqb_refl. cbn [negb]. rewrite app_nil_r.
    apply filter_none. intros id Hin. apply negb_true_iff.
    apply String_eqb_false_iff. intros ->. exact (Hnot Hin). }
  destruct w as [s t]. destruct s. cbn in Hoff, Hon, Hback.
  unfold run, react, handlerOf, dispatch, toggleCategoryFilter. cbn.
  rewrite Hoff, Hon, Hback. reflexivity.
Qed.

Lemma toggleCategoryFilter_twice_witness :
  let w := Sample.world None [Sample.A; Sample.B] [Sample.cli] in
  run [ToggleCategoryFilter "c2"; ToggleCategoryFilter "c2"] w = w.
Proof.
  cbv zeta. apply toggleCategoryFilter_twice. intros [].
Defined.

(** X12.  Turning a filter on narrows the view: the cards shown afterwards
    are exactly the cards shown before whose project carries the category,
    in the same order. *)
Theorem filter_on_narrows (toLowerCase : string -> string) (w : World)
    (categoryId : string) :
  ~ In categoryId (selectedCategories (state w)) ->
  filteredProjects toLowerCase
    (state (react w (ToggleCategoryFilter categoryId)))
  = filter (fun p => hasCategory p categoryId)
           (filteredProjects toLowerCase (state w)).
Proof.
  intros Hnot. unfold filteredProjects.
  rewrite (@selectedCategories_toggled_on w categoryId Hnot).
  rewrite react_projects, react_projectSearch, filter_filter.
  apply filter_ext. intros p.
  rewrite !matchesCategories_every, forallb_app. cbn [forallb].
  rewrite andb_true_r, andb_assoc. reflexivity.
Qed.

Lemma filter_on_narrows_witness :
  let w := Sample.world None [Sample.A; Sample.B] [Sample.ui; Sample.cli] in
  filteredProjects toLowerCaseAscii (state (react w (ToggleCategoryFilter "c1")))
  = [Sample.A].
Proof.
  cbv zeta. rewrite filter_on_narrows; [reflexivity|intros []].
Defined.

(** X13.  Turning a filter off widens the view: every card shown before is
    still shown. *)
Theorem filter_off_widens (toLowerCase : string -> string) (w : World)
    (categoryId : string) (p : Project.t) :
  In categoryId (selectedCategories (state w)) ->
  In p (filteredProjects toLowerCase (state w)) ->
  In p (filteredProjects toLowerCase
          (state (react w (ToggleCategoryFilter categoryId)))).
Proof.
  intros Hsel. unfold filteredProjects.
  rewrite react_selectedCategories, react_projects, react_projectSearch.
  apply existsb_seq_In in Hsel. rewrite Hsel.
  rewrite !filter_In, !andb_true_iff, !matchesCategories_every,
    !forallb_forall.
  intros [Hin [Hsearch Hcats]]. repeat split; try assumption.
  intros id Hid. apply filter_In in Hid as [Hid _]. apply Hcats. exact Hid.
Qed.

Lemma filter_off_widens_witness :
  let w := react (Sample.world None [Sample.A; Sample.B] [])
                 (ToggleCategoryFilter "c1") in
  In Sample.A (filteredProjects toLowerCaseAscii
                 (state (react w (ToggleCategoryFilter "c1")))).
Proof.
  cbv zeta. apply filter_off_widens.
  - left. reflexivity.
  - left. reflexivity.
Defined.

(** X14.  With an empty search and no category selected every project is
    shown, in the order of the list; this is the view of the first
    render. *)
Theorem empty_filter_shows_all (toLowerCase : string -> string) :
  toLowerCase EmptyString = EmptyString ->
  (forall s, projectSearch s = EmptyString -> selectedCategories s = [] ->
             filteredProjects toLowerCase s = projects s)
  /\ (forall storedProjects storedCategories,
        filteredProjects toLowerCase
          (state (mount storedProjects storedCategories))
        = JS.orElse storedProjects []).
Proof.
  intros Hlower.
  assert (Hall : forall s, projectSearch s = EmptyString ->
                           selectedCategories s = [] ->
                           filteredProjects toLowerCase s = projects s).
  { intros s Hq Hsel. unfold filteredProjects. apply filter_none.
    intros p _. rewrite Hq, Hsel. unfold matchesSearch. rewrite Hlower.
    rewrite includes_unfold. destruct (toLowerCase (Project.name p));
      reflexivity. }
  split; [exact Hall|].
  intros sp sc. rewrite Hall; reflexivity.
Qed.

Lemma empty_filter_shows_all_witness :
  filteredProjects toLowerCaseAscii
    (state (mount (Some [Sample.A; Sample.B]) None))
  = [Sample.A; Sample.B].
Proof.
  apply (proj2 (@empty_filter_shows_all toLowerCaseAscii eq_refl)).
Defined.

(** ** Categories of the selected project *)

Lemma filter_app_fresh (categoryId : string) (cs : list Category.t)
    (category : Category.t) :
  Category.id category = categoryId ->
  filter (fun c => negb (JS.seq (Category.id c) categoryId))
         (cs ++ [category])
  = filter (fun c => negb (JS.seq (Category.id c) categoryId)) cs.
Proof.
  intros <-. rewrite filter_app. cbn [filter]. unfold JS.seq at 2.
  rewrite String.eqb_refl. apply app_nil_r.
Qed.

(** X15.  [removeCategory] on the selected project: the view keeps the
    categories with another id, each as often as it occurred and in order,
    so that every copy of the id is gone; the list handed to the store has
    the same projects at the same places, those with the id of the selected
    project treated like the view; the global categories stay. *)
Theorem removeCategory_drops_every_copy (w : World) (selected : Project.t)
    (categoryId : string) :
  selectedProject (state w) = Some selected ->
  let w' := react w (RemoveCategory categoryId) in
  let other := fun c => Category.id c <> categoryId in
  exists selected' stored,
    selectedProject (state w') = Some selected'
    /\ Project.id selected' = Project.id selected
    /\ Kept other (Project.cats selected) (Project.cats selected')
    /\ hasCategory selected' categoryId = false
    /\ lastSetProjects (trace w') = Some stored
    /\ Forall2 (fun p q =>
                  Project.id q = Project.id p
                  /\ if JS.seq (Project.id p) (Project.id selected)
                     then Kept other (Project.cats p) (Project.cats q)
                          /\ hasCategory q categoryId = false
                     else q = p)
               (projects (state w)) stored
    /\ globalCategories (state w') = globalCategories (state w).
Proof.
  intros Hsel w' other.
  assert (Hkept : forall cs,
             Kept other cs
               (filter (fun c => negb (JS.seq (Category.id c) categoryId))
                       cs)).
  { intros cs. apply Kept_filter. intros c. rewrite negb_true_iff.
    apply String_eqb_false_iff. }
  assert (Hgone : forall p cs,
             hasCategory
               (Project.with_categories p
                  (filter (fun c => negb (JS.seq (Category.id c) categoryId))
                          cs)) categoryId = false).
  { intros p cs. destruct p. cbn. unfold JS.some.
    destruct (existsb _ _) eqn:E; [|reflexivity].
    apply existsb_exists in E as [c [Hc E]].
    apply filter_In in Hc as [_ Hc]. rewrite E in Hc. discriminate Hc. }
  exists (Project.with_categories selected
            (filter (fun c => negb (JS.seq (Category.id c) categoryId))
                    (Project.cats selected))),
         (withCategoryRemoved selected categoryId (projects (state w))).
  split; [unfold w'; rewrite react_selectedProject, Hsel; reflexivity|].
  split; [destruct selected; reflexivity|].
  split; [destruct selected; apply Hkept|].
  split; [apply Hgone|].
  split; [unfold w'; rewrite react_lastSetProjects, Hsel; reflexivity|].
  split; [|unfold w'; rewrite react_globalCategories; reflexivity].
  unfold withCategoryRemoved.
  induction (projects (state w)) as [|p ps IH]; [constructor|].
  cbn [map]. constructor; [|exact IH].
  destruct (JS.seq _ _).
  - split; [destruct p; reflexivity|].
    split; [destruct p; apply Hkept|apply Hgone].
  - split; reflexivity.
Qed.

Lemma removeCategory_drops_every_copy_witness :
  let twice := Sample.project "3" "Gamma" "third"
                 (Some [Sample.ui; Sample.cli; Sample.ui]) in
  let w := Sample.world (Some twice) [twice] [] in
  exists selected' stored,
    selectedProject (state (react w (RemoveCategory "c1"))) = Some selected'
    /\ Project.cats selected' = [Sample.cli]
    /\ lastSetProjects (trace (react w (RemoveCategory "c1"))) = Some stored
    /\ map Project.cats stored = [[Sample.cli]].
Proof.
  cbv zeta.
  destruct (@removeCategory_drops_every_copy
              (Sample.world
                 (Some (Sample.project "3" "Gamma" "third"
                          (Some [Sample.ui; Sample.cli; Sample.ui])))
                 [Sample.project "3" "Gamma" "third"
                    (Some [Sample.ui; Sample.cli; Sample.ui])] [])
              (Sample.project "3" "Gamma" "third"
                 (Some [Sample.ui; Sample.cli; Sample.ui]))
              "c1"%string eq_refl)
    as [selected' [stored [Hview [_ [_ [_ [Hstored _]]]]]]].
  exists selected', stored.
  injection Hview as <-. injection Hstored as <-.
  repeat split; reflexivity.
Defined.

(** X16.  Adding a category and removing it again by its id: when the
    selected project had no category with that id, the view shows the
    categories it showed before, and the list handed to the store has, for
    every project, the categories the list had before. *)
Theorem addCategory_then_removeCategory (w : World) (selected : Project.t)
    (category : Category.t) :
  selectedProject (state w) = Some selected ->
  (forall c, In c (Project.cats selected) ->
             Category.id c <> Category.id category) ->
  (forall p c, In p (projects (state w)) ->
               Project.id p = Project.id selected ->
               In c (Project.cats p) ->
               Category.id c <> Category.id category) ->
  let w' := run [AddCategory category;
                 RemoveCategory (Category.id category)] w in
  option_map Project.cats (selectedProject (state w'))
  = Some (Project.cats selected)
  /\ option_map Project.id (selectedProject (state w'))
     = Some (Project.id selected)
  /\ exists stored,
       lastSetProjects (trace w') = Some stored
       /\ map Project.cats stored = map Project.cats (projects (state w))
       /\ map Project.id stored = map Project.id (projects (state w)).
Proof.
  intros Hsel Hview Hlist w'.
  assert (Hback : forall cs,
             (forall c, In c cs -> Category.id c <> Category.id category) ->
             filter (fun c => negb (JS.seq (Category.id c)
                                           (Category.id category)))
                    (cs ++ [category]) = cs).
  { intros cs Hcs. rewrite filter_app_fresh by reflexivity.
    apply filter_none. intros c Hc. apply negb_true_iff.
    apply String_eqb_false_iff. apply Hcs. exact Hc. }
  unfold w', run. cbn [fold_left].
  set (w1 := react w (AddCategory category)).
  assert (Hsel1 : selectedProject (state w1)
                  = Some (Project.with_categories selected
                            (Project.cats selected ++ [category]))).
  { unfold w1. rewrite react_selectedProject, Hsel. reflexivity. }
  assert (Hps1 : projects (state w1)
                 = withCategoryAdded selected category (projects (state w))).
  { unfold w1. rewrite react_projects, Hsel. reflexivity. }
  split.
  { rewrite react_selectedProject, Hsel1. cbn [option_map].
    f_equal. destruct selected. cbn in Hview |- *.
    apply Hback. exact Hview. }
  split.
  { rewrite react_selectedProject, Hsel1. destruct selected. reflexivity. }
  exists (withCategoryRemoved
            (Project.with_categories selected
               (Project.cats selected ++ [category]))
            (Category.id category) (projects (state w1))).
  split; [rewrite react_lastSetProjects, Hsel1; reflexivity|].
  rewrite Hps1. unfold withCategoryRemoved, withCategoryAdded.
  rewrite !map_map.
  replace (Project.id (Project.with_categories selected
                         (Project.cats selected ++ [category])))
    with (Project.id selected) by (destruct selected; reflexivity).
  split.
  - apply map_ext_in. intros p Hp.
    destruct (JS.seq (Project.id p) (Project.id selected)) eqn:E.
    + replace (Project.id (Project.with_categories p
                             (Project.cats p ++ [category])))
        with (Project.id p) by (destruct p; reflexivity).
      rewrite E. apply String_eqb_true_iff in E.
      destruct p. cbn in Hlist |- *. apply Hback.
      intros c Hc. exact (Hlist _ c Hp E Hc).
    + rewrite E. reflexivity.
  - apply map_ext_in. intros p Hp.
    destruct (JS.seq (Project.id p) (Project.id selected)) eqn:E.
    + replace (Project.id (Project.with_categories p
                             (Project.cats p ++ [category])))
        with (Project.id p) by (destruct p; reflexivity).
      rewrite E. destruct p. reflexivity.
    + rewrite E. reflexivity.
Qed.

Lemma addCategory_then_removeCategory_witness :
  let w := Sample.world (Some Sample.B) [Sample.A; Sample.B] [Sample.cli] in
  option_map Project.cats
    (selectedProject
       (state (run [AddCategory Sample.ui; RemoveCategory "c1"] w)))
  = Some [Sample.cli].
Proof.
  cbv zeta.
  refine (proj1 (@addCategory_then_removeCategory
                   (Sample.world (Some Sample.B) [Sample.A; Sample.B]
                      [Sample.cli])
                   Sample.B Sample.ui eq_refl _ _)).
  - intros c [<-|[]]. discriminate.
  - intros p c [<-|[<-|[]]] Hid; [discriminate Hid|].
    intros [<-|[]]. discriminate.
Defined.

(** X17.  A project that has just been given a category passes the filter
    of that category: after [addCategory], every project of the list with
    the id of the selected one carries the id of the category. *)
Theorem addCategory_then_filter (w : World) (selected : Project.t)
    (category : Category.t) (p : Project.t) :
  selectedProject (state w) = Some selected ->
  In p (projects (state (react w (AddCategory category)))) ->
  Project.id p = Project.id selected ->
  hasCategory p (Category.id category) = true
  /\ matchesCategories [Category.id category] p = true.
Proof.
  intros Hsel Hin Hid.
  assert (Hhas : hasCategory p (Category.id category) = true).
  { rewrite react_projects, Hsel in Hin. unfold withCategoryAdded in Hin.
    apply in_map_iff in Hin as [q [Hq _]].
    destruct (JS.seq (Project.id q) (Project.id selected)) eqn:E.
    - subst p. destruct q. cbn. unfold JS.some.
      rewrite existsb_app. cbn. unfold JS.seq. rewrite String.eqb_refl.
      rewrite orb_true_r. reflexivity.
    - subst q. apply String_eqb_false_iff in E. destruct (E Hid). }
  split; [exact Hhas|].
  rewrite matchesCategories_every. cbn. rewrite Hhas. reflexivity.
Qed.

Lemma addCategory_then_filter_witness :
  let w := Sample.world (Some Sample.B) [Sample.A; Sample.B] [] in
  hasCategory (Project.with_categories Sample.B [Sample.cli; Sample.ui]) "c1"
  = true.
Proof.
  cbv zeta.
  refine (proj1 (@addCategory_then_filter
                   (Sample.world (Some Sample.B) [Sample.A; Sample.B] [])
                   Sample.B Sample.ui
                   (Project.with_categories Sample.B [Sample.cli; Sample.ui])
                   eq_refl _ eq_refl)).
  right. left. reflexivity.
Defined.

(** ** Discovery *)

(** X18.  A project that discovery has just added comes last in the view,
    and only when no category filter is on and it matches the search; with
    nothing selected, the page then shows the saved projects. *)
Theorem discovered_project_in_view (toLowerCase : string -> string)
    (w : World) (repo : GitHubRepo.t) (details : RepoDetails.t) :
  let w' := react w (DetailsSettled repo (Resolved details)) in
  let new := projectOf repo details in
  let cards :=
    filteredProjects toLowerCase (state w)
    ++ (if matchesSearch toLowerCase (projectSearch (state w)) new
           && Nat.eqb (List.length (selectedCategories (state w))) 0
        then [new] else []) in
  filteredProjects toLowerCase (state w') = cards
  /\ (selectedProject (state w) = None ->
      panel toLowerCase (state w')
      = SavedPanel cards (Nat.eqb (List.length cards) 0)).
Proof.
  intros w' new cards.
  assert (Hcards : filteredProjects toLowerCase (state w') = cards).
  { unfold cards, filteredProjects, w'.
    rewrite react_projects, react_projectSearch, react_selectedCategories.
    rewrite filter_app. f_equal. cbn [filter]. fold new.
    replace (matchesCategories (selectedCategories (state w)) new)
      with (Nat.eqb (List.length (selectedCategories (state w))) 0);
      [reflexivity|].
    rewrite matchesCategories_every.
    destruct (selectedCategories (state w)); reflexivity. }
  split; [exact Hcards|].
  intros Hsel. unfold panel.
  replace (selectedProject (state w')) with (@None Project.t)
    by (unfold w'; rewrite react_selectedProject; symmetry; exact Hsel).
  replace (isDiscoveryMode (state w')) with false by reflexivity.
  rewrite Hcards. reflexivity.
Qed.

(** X19.  A successful selection, from the call to the end: one project is
    appended, the loading flag is down again, discovery mode is off, the
    whole list is handed to the store once, after the request; the
    selection, the dialog, the search, the filters and the global
    categories are as before, and the promise of the handler is
    fulfilled. *)
Theorem handleSelectRepo_success (repo : GitHubRepo.t)
    (details : RepoDetails.t) (w : World) :
  let new := projectOf repo details in
  let parts := JS.split "/" (GitHubRepo.full_name repo) in
  handleSelectRepo repo (Resolved details) w
  = (mkWorld
       (mkState (selectedProject (state w)) (isCategoryDialogOpen (state w))
          (projectSearch (state w)) (selectedCategories (state w))
          (projects (state w) ++ [new]) (globalCategories (state w))
          false false)
       (trace w ++ [getRepoDetails (nth_error parts 0) (nth_error parts 1);
                    setProjects (projects (state w) ++ [new])]),
     None).
Proof.
  cbv zeta. unfold handleSelectRepo, dispatch. cbn.
  rewrite <- app_assoc. reflexivity.
Qed.

(** X20.  The loading flag counts nothing: whenever a request settles the
    flag goes down, whatever happened before, other selections still
    pending included; and whenever a repository is selected it goes up. *)
Theorem loading_flag_follows_last_event (events : list Event) (w : World)
    (repo : GitHubRepo.t) :
  (forall outcome,
      isLoading (state (run (events ++ [DetailsSettled repo outcome]) w))
      = false)
  /\ isLoading (state (run (events ++ [SelectRepo repo]) w)) = true.
Proof.
  split.
  - intros outcome. rewrite run_app. destruct outcome; reflexivity.
  - rewrite run_app. reflexivity.
Qed.

(** ** The repository asked for *)

Lemma split_noSlash (s : string) :
  noSlash s -> JS.split "/" s = [s].
Proof.
  unfold noSlash. induction s as [|c s IH]; intros Hs; [reflexivity|].
  cbn [JS.split]. cbn in Hs.
  destruct (Ascii.eqb c "/") eqn:E.
  - apply Ascii.eqb_eq in E. destruct Hs. left. exact E.
  - rewrite IH; [reflexivity|]. intros Hin. apply Hs. right. exact Hin.
Qed.

Lemma split_app (a b : string) :
  noSlash a ->
  JS.split "/" (a ++ String "/" b) = a :: JS.split "/" b.
Proof.
  unfold noSlash. induction a as [|c a IH]; intros Ha; [reflexivity|].
  cbn [JS.split append]. cbn in Ha.
  destruct (Ascii.eqb c "/") eqn:E.
  - apply Ascii.eqb_eq in E. destruct Ha. left. exact E.
  - rewrite IH; [reflexivity|]. intros Hin. apply Ha. right. exact Hin.
Qed.

(** X21.  For a [full_name] of the form [owner/name], further parts or
    not, [handleSelectRepo] raises the loading flag and asks
    [getRepoDetails] for [owner] and [name]; parts after a second slash are
    dropped. *)
Theorem handleSelectRepo_asks_owner_and_name (w : World)
    (repo : GitHubRepo.t) (owner name : string) :
  noSlash owner -> noSlash name ->
  (GitHubRepo.full_name repo = (owner ++ "/" ++ name)%string
   \/ exists rest,
        GitHubRepo.full_name repo
        = (owner ++ "/" ++ name ++ "/" ++ rest)%string) ->
  let w' := react w (SelectRepo repo) in
  trace w' = trace w ++ [getRepoDetails (Some owner) (Some name)]
  /\ isLoading (state w') = true
  /\ projects (state w') = projects (state w).
Proof.
  intros Howner Hname Hfull w'.
  split; [|split; reflexivity].
  unfold w', react, handlerOf, dispatch, handleSelectRepo_begin. cbn.
  destruct Hfull as [->|[rest ->]]; cbn [append].
  - rewrite (split_app _ Howner), (split_noSlash Hname). reflexivity.
  - rewrite (split_app _ Howner), (split_app _ Hname). reflexivity.
Qed.

Lemma handleSelectRepo_asks_owner_and_name_witness :
  trace (react (mount None None)
               (SelectRepo (Sample.repo 7 "octocat/hello" "hello")))
  = [setProjects []; setCategories [];
     getRepoDetails (Some "octocat"%string) (Some "hello"%string)].
Proof.
  refine (proj1 (@handleSelectRepo_asks_owner_and_name (mount None None)
                   (Sample.repo 7 "octocat/hello" "hello")
                   "octocat" "hello" _ _ (or_introl eq_refl))).
  - intros H. cbn in H.
    repeat (destruct H as [H|H]; [discriminate H|]). exact H.
  - intros H. cbn in H.
    repeat (destruct H as [H|H]; [discriminate H|]). exact H.
Defined.

(** X22.  For a [full_name] without a slash the request is made all the
    same, with the whole name as owner and no repository name. *)
Theorem handleSelectRepo_without_slash (w : World) (repo : GitHubRepo.t) :
  noSlash (GitHubRepo.full_name repo) ->
  trace (react w (SelectRepo repo))
  = trace w ++ [getRepoDetails (Some (GitHubRepo.full_name repo)) None].
Proof.
  intros Hfull.
  unfold react, handlerOf, dispatch, handleSelectRepo_begin. cbn.
  rewrite (split_noSlash Hfull). reflexivity.
Qed.

Lemma handleSelectRepo_without_slash_witness :
  trace (react (mount None None) (SelectRepo (Sample.repo 7 "hello" "hello")))
  = [setProjects []; setCategories [];
     getRepoDetails (Some "hello"%string) None].
Proof.
  refine (@handleSelectRepo_without_slash (mount None None)
            (Sample.repo 7 "hello" "hello") _).
  intros H. cbn in H.
  repeat (destruct H as [H|H]; [discriminate H|]). exact H.
Defined.

(** ** Ids of discovered projects *)

Lemma toString_inj (n m : Z) : JS.toString n = JS.toString m -> n = m.
Proof.
  unfold JS.toString. intros H.
  assert (Hok : forall z, Z.to_int z <> Decimal.Pos Decimal.Nil
                          /\ Z.to_int z <> Decimal.Neg Decimal.Nil).
  { intros [|p|p]; cbn; split; try discriminate;
      intros E; injection E as E;
      exact (DecimalPos.Unsigned.to_uint_nonnil p E). }
  apply DecimalZ.to_int_inj.
  assert (E : Some (Z.to_int n) = Some (Z.to_int m)).
  { rewrite <- (NilZero.isi (Z.to_int n)) by apply Hok.
    rewrite <- (NilZero.isi (Z.to_int m)) by apply Hok.
    rewrite H. reflexivity. }
  injection E as E. exact E.
Qed.

(** X23.  Two discovered projects have the same id exactly when their
    repositories have the same numeric id; so removing one of them leaves
    the projects discovered from other repositories in the list. *)
Theorem discovered_ids_distinct (r1 r2 : GitHubRepo.t)
    (d1 d2 : RepoDetails.t) :
  (Project.id (projectOf r1 d1) = Project.id (projectOf r2 d2)
   <-> GitHubRepo.id r1 = GitHubRepo.id r2)
  /\ (forall w,
        GitHubRepo.id r1 <> GitHubRepo.id r2 ->
        In (projectOf r2 d2) (projects (state w)) ->
        In (projectOf r2 d2)
           (projects
              (state (react w (RemoveProject
                                 (Project.id (projectOf r1 d1))))))).
Proof.
  assert (Hid : Project.id (projectOf r1 d1) = Project.id (projectOf r2 d2)
                <-> GitHubRepo.id r1 = GitHubRepo.id r2).
  { split.
    - apply toString_inj.
    - intros E. cbn. rewrite E. reflexivity. }
  split; [exact Hid|].
  intros w Hne Hin. rewrite react_projects. apply filter_In.
  split; [exact Hin|]. apply negb_true_iff. apply String_eqb_false_iff.
  intros E. apply Hne. apply Hid. symmetry. exact E.
Qed.

(** ** The colour of a language *)

Ltac in_cases H :=
  repeat (destruct H as [H|H]; [injection H as <- <-|]); [..|destruct H].

Lemma getLanguageColor_spec (inheritedProperty : string -> bool)
    (language : string) :
  (exists colour,
      In (language, colour) colors
      /\ getLanguageColor inheritedProperty language = Text colour)
  \/ (~ In language (map fst colors)
      /\ getLanguageColor inheritedProperty language
         = if inheritedProperty language then Inherited language
           else Text "#8257e5").
Proof.
  unfold getLanguageColor, colors. cbn [List.find fst map].
  repeat match goal with
         | |- context [JS.seq ?key language] =>
             let E := fresh "E" in
             destruct (JS.seq key language) eqn:E;
             [apply String_eqb_true_iff in E; subst language; left;
              eexists; split; [|reflexivity]; cbn; tauto|
              apply String_eqb_false_iff in E]
         end.
  right. split; [|reflexivity].
  cbn [In]. intuition congruence.
Qed.

(** X24.  A language of the table gets the colour the table gives it,
    whatever the host objects inherit. *)
Theorem getLanguageColor_known (inheritedProperty : string -> bool)
    (language colour : string) :
  In (language, colour) colors ->
  getLanguageColor inheritedProperty language = Text colour
  /\ isHexColor colour = true.
Proof.
  intros Hin. unfold colors in Hin. cbn [In] in Hin.
  in_cases Hin; split; reflexivity.
Qed.

Lemma getLanguageColor_known_witness :
  getLanguageColor objectPrototype "C++" = Text "#f34b7d".
Proof.
  refine (proj1 (@getLanguageColor_known objectPrototype "C++" "#f34b7d" _)).
  cbn. tauto.
Defined.

(** X25.  The colour tells the language: a language of the table shares
    its colour with no other name, and its colour is not the fallback. *)
Theorem getLanguageColor_injective (inheritedProperty : string -> bool)
    (known other : string) :
  In known (map fst colors) ->
  known <> other ->
  getLanguageColor inheritedProperty known
  <> getLanguageColor inheritedProperty other.
Proof.
  intros Hknown Hne Heq. apply Hne. clear Hne.
  destruct (getLanguageColor_spec inheritedProperty other)
    as [[colour [Hin Hother]]|[_ Hother]]; rewrite Hother in Heq; clear Hother.
  - unfold colors in Hknown, Hin. cbn [In map fst] in Hknown, Hin.
    repeat (destruct Hknown as [Hknown|Hknown]; [subst known|]);
      [..|destruct Hknown];
      in_cases Hin; first [reflexivity|discriminate Heq].
  - unfold colors in Hknown. cbn [In map fst] in Hknown.
    repeat (destruct Hknown as [Hknown|Hknown]; [subst known|]);
      [..|destruct Hknown];
      destruct (inheritedProperty other); discriminate Heq.
Qed.

Lemma getLanguageColor_injective_witness :
  getLanguageColor objectPrototype "Rust"
  <> getLanguageColor objectPrototype "Haskell".
Proof.
  refine (@getLanguageColor_injective objectPrototype "Rust" "Haskell" _ _).
  - cbn. tauto.
  - discriminate.
Defined.

(** X26.  A name outside the table is looked up on the prototype: for a
    name found there the result is what the object inherits, not a colour;
    for any other name it is the fallback colour.  None of the names of
    [Object.prototype] is a language of the table. *)
Theorem getLanguageColor_unknown (language : string) :
  ~ In language (map fst colors) ->
  getLanguageColor objectPrototype language
  = (if objectPrototype language then Inherited language
     else Text "#8257e5")
  /\ (forall name, objectPrototype name = true ->
                   getLanguageColor objectPrototype name = Inherited name).
Proof.
  intros Hnot. split.
  - destruct (getLanguageColor_spec objectPrototype language)
      as [[colour [Hin _]]|[_ H]]; [|exact H].
    destruct Hnot. apply in_map_iff. exists (language, colour).
    split; [reflexivity|exact Hin].
  - intros name Hname. unfold objectPrototype in Hname.
    cbn [existsb] in Hname.
    repeat (apply orb_true_iff in Hname as [Hname|Hname];
            [apply String_eqb_true_iff in Hname; subst name; reflexivity|]).
    discriminate Hname.
Qed.

Lemma getLanguageColor_unknown_witness :
  getLanguageColor objectPrototype "Haskell" = Text "#8257e5"
  /\ getLanguageColor objectPrototype "constructor" = Inherited "constructor".
Proof.
  split.
  - refine (proj1 (@getLanguageColor_unknown "Haskell" _)).
    cbn. intros H.
    repeat (destruct H as [H|H]; [discriminate H|]). exact H.
  - reflexivity.
Defined.

(** * Binary64 arithmetic

    What the primitive operations compute is given by [SpecFloat]; the
    lemmas below follow its rounding through one division and one
    multiplication of normal numbers, and through sums of integers. *)

Local Open Scope Z_scope.

(** ** Powers of two and digit counts *)

Lemma exp2_pred (d : Z) : 0 < d -> 2 ^ d = 2 * 2 ^ (d - 1).
Proof.
  intros H. rewrite <- Z.pow_succ_r by lia. f_equal. lia.
Qed.

Lemma exp2_pos (d : Z) : 0 <= d -> 0 < 2 ^ d.
Proof.
  intros. apply Z.pow_pos_nonneg; lia.
Qed.

Lemma digits2_pos_bounds (p : positive) :
  2 ^ (Z.pos (digits2_pos p) - 1) <= Z.pos p < 2 ^ Z.pos (digits2_pos p).
Proof.
  induction p as [p IH|p IH|]; cbn [digits2_pos].
  - rewrite Pos2Z.inj_succ.
    replace (Z.succ (Z.pos (digits2_pos p)) - 1)
      with (Z.pos (digits2_pos p)) by lia.
    rewrite Z.pow_succ_r by lia.
    rewrite (@exp2_pred (Z.pos (digits2_pos p))) in * by lia. lia.
  - rewrite Pos2Z.inj_succ.
    replace (Z.succ (Z.pos (digits2_pos p)) - 1)
      with (Z.pos (digits2_pos p)) by lia.
    rewrite Z.pow_succ_r by lia.
    rewrite (@exp2_pred (Z.pos (digits2_pos p))) in * by lia. lia.
  - simpl. lia.
Qed.

Lemma exp2_le (a b : Z) : 0 <= a -> a <= b -> 2 ^ a <= 2 ^ b.
Proof.
  intros. apply Z.pow_le_mono_r; lia.
Qed.

Lemma digits2_pos_unique (p : positive) (d : Z) :
  2 ^ (d - 1) <= Z.pos p < 2 ^ d -> Z.pos (digits2_pos p) = d.
Proof.
  intros [Hlo Hhi]. pose proof (digits2_pos_bounds p) as [Hlo' Hhi'].
  set (d' := Z.pos (digits2_pos p)) in *.
  assert (0 < d').
  { unfold d'. lia. }
  assert (0 < d).
  { destruct (Z_lt_le_dec 0 d) as [|Hd]; [assumption|].
    destruct (Z.eq_dec d 0) as [->|]; [simpl in Hhi; lia|].
    rewrite (Z.pow_neg_r 2 d) in Hhi by lia. lia. }
  destruct (Z_lt_le_dec d d') as [Hlt|Hge].
  - assert (2 ^ d <= 2 ^ (d' - 1)) by (apply exp2_le; lia). lia.
  - destruct (Z_lt_le_dec d' d) as [Hlt|Hge']; [|lia].
    assert (2 ^ d' <= 2 ^ (d - 1)) by (apply exp2_le; lia). lia.
Qed.

(** ** Locations under shifts *)

(** Comparisons as inequalities, for [lia]. *)
Ltac cmp_hyp H :=
  match type of H with
  | (?a ?= ?b) = Eq => apply Z.compare_eq in H
  | (?a ?= ?b) = Lt => change (a < b) in H
  | (?a ?= ?b) = Gt => change (a > b) in H
  end.

Ltac cmp_goal :=
  match goal with
  | |- (?a ?= ?b) = Eq => apply Z.compare_eq_iff; lia
  | |- (?a ?= ?b) = Lt => change (a < b); lia
  | |- (?a ?= ?b) = Gt => change (a > b); lia
  end.

Ltac inb_step :=
  match goal with
  | H : _ /\ (_ ?= _) = _ |- _ =>
      let H2 := fresh in destruct H as [H H2]; cmp_hyp H2
  | _ => idtac
  end;
  first [ lia | split; [lia | cmp_goal] ].

(** One shift to the right halves the mantissa and keeps track of the
    location: the value is now located with respect to twice the
    denominator. *)
Lemma shr_1_Inb (r : shr_record) (N D : Z) :
  InbR r N D -> InbR (shr_1 r) N (2 * D).
Proof.
  unfold InbR, Inb. destruct r as [m rb sb].
  cbn [shr_m]. intros (Hm & HD & H).
  destruct m as [|p|p]; [| |lia].
  - destruct rb, sb; cbn [shr_1 shr_m loc_of_shr_record orb] in *;
      (split; [lia|split;[lia|]]); inb_step.
  - destruct p as [p|p|]; destruct rb, sb;
      cbn [shr_1 shr_m loc_of_shr_record orb] in *;
      (split; [lia|split;[lia|]]); inb_step.
Qed.

Lemma InbR_D_eq r N D D' : D = D' -> InbR r N D -> InbR r N D'.
Proof. intros ->. auto. Qed.

Lemma exp2_xO (p : positive) : 2 ^ Z.pos p~0 = 2 ^ Z.pos p * 2 ^ Z.pos p.
Proof.
  replace (Z.pos p~0) with (Z.pos p + Z.pos p) by lia.
  apply Z.pow_add_r; lia.
Qed.

Lemma exp2_xI (p : positive) :
  2 ^ Z.pos p~1 = 2 * (2 ^ Z.pos p * 2 ^ Z.pos p).
Proof.
  replace (Z.pos p~1) with (Z.succ (Z.pos p + Z.pos p)) by lia.
  rewrite Z.pow_succ_r by lia. f_equal. apply Z.pow_add_r; lia.
Qed.

Lemma iter_pos_Inb (p : positive) :
  forall r N D, InbR r N D -> InbR (iter_pos shr_1 p r) N (2 ^ Z.pos p * D).
Proof.
  induction p as [p IH|p IH|]; intros r N D H; cbn [iter_pos].
  - apply shr_1_Inb, IH, IH in H. revert H. apply InbR_D_eq.
    rewrite exp2_xI. ring.
  - apply IH, IH in H. revert H. apply InbR_D_eq.
    rewrite exp2_xO. ring.
  - apply shr_1_Inb in H. exact H.
Qed.

Lemma Inb_bounds m l N D : Inb m l N D -> m * D <= N < (m + 1) * D.
Proof.
  unfold Inb. intros (Hm & HD & H). destruct l; lia.
Qed.

Lemma loc_of_shr_record_of_loc m l :
  loc_of_shr_record (shr_record_of_loc m l) = l
  /\ shr_m (shr_record_of_loc m l) = m.
Proof.
  destruct l as [|[]]; split; reflexivity.
Qed.

Lemma InbR_of_loc m l N D : Inb m l N D -> InbR (shr_record_of_loc m l) N D.
Proof.
  unfold InbR. destruct (loc_of_shr_record_of_loc m l) as [-> ->]. auto.
Qed.

(** Rounding to nearest moves the mantissa by at most one half. *)
Lemma round_nearest_even_Inb m l N D :
  Inb m l N D ->
  m <= round_nearest_even m l <= m + 1
  /\ - D <= 2 * (round_nearest_even m l * D - N) <= D.
Proof.
  unfold Inb. intros (Hm & HD & H).
  destruct l as [|[]]; cbn [round_nearest_even].
  - lia.
  - destruct H as [H H2]. cmp_hyp H2. destruct (Z.even m); lia.
  - destruct H as [H H2]. cmp_hyp H2. lia.
  - destruct H as [H H2]. cmp_hyp H2. lia.
Qed.

Lemma Zdigits2_unique (m d : Z) :
  0 < m -> 2 ^ (d - 1) <= m < 2 ^ d -> Zdigits2 m = d.
Proof.
  intros Hm H. destruct m as [|p|p]; try lia.
  apply digits2_pos_unique, H.
Qed.

Lemma Zdigits2_bounds (m : Z) :
  0 < m -> 2 ^ (Zdigits2 m - 1) <= m < 2 ^ Zdigits2 m.
Proof.
  intros Hm. destruct m as [|p|p]; try lia.
  apply digits2_pos_bounds.
Qed.

(** ** Rounding

    Shifting a mantissa of at least 53 digits down to 53. *)
Lemma shr_to_53 (mx ex : Z) (lx : location) (N D : Z) :
  let n := Zdigits2 mx - 53 in
  0 < mx -> Inb mx lx N D -> 0 <= n ->
  exists r, shr (shr_record_of_loc mx lx) ex n = (r, ex + n)
    /\ InbR r N (2 ^ n * D)
    /\ 2 ^ 52 <= shr_m r < 2 ^ 53.
Proof.
  intros n Hmx HI Hn. pose proof (Zdigits2_bounds Hmx) as Hd.
  pose proof (Inb_bounds HI) as HN.
  assert (HD : 0 < D) by (destruct HI as (_ & ? & _); assumption).
  destruct n as [|p|p] eqn:En; [| |lia].
  - exists (shr_record_of_loc mx lx). cbn [shr]. split; [f_equal; lia|].
    split.
    + apply InbR_of_loc.
      replace (2 ^ 0 * D) with D by (change (2 ^ 0) with 1; lia). exact HI.
    + destruct (loc_of_shr_record_of_loc mx lx) as [_ ->].
      replace (Zdigits2 mx) with 53 in Hd by lia. exact Hd.
  - exists (iter_pos shr_1 p (shr_record_of_loc mx lx)). cbn [shr].
    split; [reflexivity|].
    assert (HR := iter_pos_Inb p (InbR_of_loc HI)).
    split; [exact HR|].
    pose proof (Inb_bounds HR) as HN'.
    destruct HR as (Hm' & _).
    set (m' := shr_m _) in *. 
    replace (Zdigits2 mx) with (53 + Z.pos p) in Hd by lia.
    replace (53 + Z.pos p - 1) with (52 + Z.pos p) in Hd by lia.
    rewrite !Z.pow_add_r in Hd by lia.
    assert (0 < 2 ^ Z.pos p) by (apply exp2_pos; lia).
    set (P := 2 ^ Z.pos p) in *. split; nia.
Qed.

Lemma fexp_normal (e : Z) : -1074 <= e - 53 -> fexp prec emax e = e - 53.
Proof.
  unfold fexp, SpecFloat.emin, prec, emax. lia.
Qed.

(** Rounding a located value whose mantissa has at least 53 digits, in the
    range of the normal numbers: the result is a 53-bit mantissa within
    half a unit in the last place of the value. *)
Lemma binary_round_aux_normal (s : bool) (mx ex : Z) (lx : location)
    (N D : Z) :
  let n := Zdigits2 mx - 53 in
  0 < mx -> Inb mx lx N D -> 0 <= n -> -1074 <= ex + n -> ex + n <= 970 ->
  exists (m : positive) (k : Z),
    binary_round_aux prec emax s mx ex lx = S754_finite s m (ex + k)
    /\ n <= k <= n + 1
    /\ 2 ^ 52 <= Z.pos m < 2 ^ 53
    /\ 2 * Z.abs (Z.pos m * 2 ^ k * D - N) <= 2 ^ n * D.
Proof.
  intros n Hmx HI Hn Hlo Hhi.
  destruct (shr_to_53 ex Hmx HI Hn) as (r & Hshr & HR & Hr).
  fold n in Hshr, HR.
  unfold binary_round_aux, shr_fexp.
  rewrite fexp_normal by (fold n; lia).
  replace (Zdigits2 mx + ex - 53 - ex) with n by (unfold n; lia).
  rewrite Hshr.
  destruct (round_nearest_even_Inb HR) as [Hb Herr].
  set (mb := round_nearest_even (shr_m r) (loc_of_shr_record r)) in *.
  assert (HD : 0 < D) by (destruct HI as (_ & ? & _); assumption).
  assert (HP : 0 < 2 ^ n) by (apply exp2_pos; lia).
  destruct (Z_lt_le_dec mb (2 ^ 53)) as [Hlt|Hge].
  - assert (Hdb : Zdigits2 mb = 53) by (apply Zdigits2_unique; lia).
    rewrite Hdb, fexp_normal by lia.
    replace (53 + (ex + n) - 53 - (ex + n)) with 0 by lia.
    cbn [shr]. destruct (loc_of_shr_record_of_loc mb loc_Exact) as [_ ->].
    destruct mb as [|pb|pb] eqn:Emb; try lia.
    replace (ex + n <=? emax - prec) with true
      by (symmetry; apply Z.leb_le; unfold emax, prec; lia).
    exists pb, n. split; [reflexivity|]. split; [lia|]. split; [lia|].
    lia.
  - assert (Emb : mb = 2 ^ 53) by lia.
    rewrite Emb.
    replace (Zdigits2 (2 ^ 53)) with 54 by reflexivity.
    rewrite fexp_normal by lia.
    replace (54 + (ex + n) - 53 - (ex + n)) with 1 by lia.
    cbn [shr shr_record_of_loc iter_pos].
    change (shr_m (shr_1 {| shr_m := 2 ^ 53; shr_r := false; shr_s := false |}))
      with (Z.pos (4503599627370496)).
    replace (ex + n + 1 <=? emax - prec) with true
      by (symmetry; apply Z.leb_le; unfold emax, prec; lia).
    exists 4503599627370496%positive, (n + 1). split; [f_equal; lia|].
    split; [lia|]. split; [lia|].
    change (Z.pos 4503599627370496) with (2 ^ 52).
    rewrite Z.pow_add_r by lia. change (2 ^ 1) with 2.
    rewrite Emb in Herr.
    replace (2 ^ 52 * (2 ^ n * 2) * D - N) with (2 ^ 53 * (2 ^ n * D) - N)
      by (change (2 ^ 53) with (2 ^ 52 * 2); ring).
    lia.
Qed.

(** ** Division and multiplication of normal numbers *)

(** The location computed from the remainder of a division. *)
Lemma new_location_Inb (q r d : Z) :
  0 <= q -> 0 <= r < d -> Inb q (new_location d r) (d * q + r) d.
Proof.
  intros Hq Hr. unfold Inb. split; [lia|]. split; [lia|].
  unfold new_location, new_location_even, new_location_odd.
  destruct (Z.even d) eqn:Ev.
  - destruct (Z.eqb_spec r 0) as [->|Hr0]; [lia|].
    split; [lia|].
    destruct (Z.compare_spec (2 * r) d) as [H|H|H]; cmp_goal.
  - destruct (Z.eqb_spec r 0) as [->|Hr0]; [lia|].
    split; [lia|].
    assert (Hodd : Z.odd d = true) by (rewrite <- Z.negb_even, Ev; reflexivity).
    apply Z.odd_spec in Hodd. destruct Hodd as [c Hc].
    destruct (Z.compare_spec (2 * r + 1) d) as [H|H|H]; cmp_goal.
Qed.

Lemma normal_digits (m : positive) : normalized m -> Zdigits2 (Z.pos m) = 53.
Proof.
  intros H. apply Zdigits2_unique; [lia|exact H].
Qed.

(** The quotient of two normal numbers, when it is normal itself, is
    within a relative 2^-53 of the exact quotient. *)
Lemma SFdiv_normal (m1 m2 : positive) (e1 e2 : Z) :
  normalized m1 -> normalized m2 ->
  -1074 <= e1 - e2 - 53 -> e1 - e2 - 53 <= 969 ->
  exists (m : positive) (k : Z),
    SFdiv prec emax (S754_finite false m1 e1) (S754_finite false m2 e2)
    = S754_finite false m (e1 - e2 - 53 + k)
    /\ 0 <= k <= 2
    /\ normalized m
    /\ 2 ^ 53 * Z.abs (Z.pos m * 2 ^ k * Z.pos m2 - Z.pos m1 * 2 ^ 53)
       <= Z.pos m1 * 2 ^ 53.
Proof.
  intros H1 H2 Hlo Hhi. unfold SFdiv, SFdiv_core_binary.
  rewrite (normal_digits H1), (normal_digits H2).
  rewrite fexp_normal by lia.
  replace (Z.min (53 + e1 - (53 + e2) - 53) (e1 - e2))
    with (e1 - e2 - 53) by lia.
  replace (e1 - e2 - (e1 - e2 - 53)) with 53 by lia.
  rewrite Z.shiftl_mul_pow2 by lia.
  set (m' := Z.pos m1 * 2 ^ 53).
  pose proof (Z_div_mod m' (Z.pos m2) ltac:(lia)) as Hdiv.
  destruct (Z.div_eucl m' (Z.pos m2)) as [q r]. destruct Hdiv as [Hm' Hr].
  unfold normalized in H1, H2.
  assert (Hq : 2 ^ 52 <= q < 2 ^ 54).
  { change (2 ^ 54) with (2 * 2 ^ 53). unfold m' in Hm'. split; nia. }
  assert (HI : Inb q (new_location (Z.pos m2) r) m' (Z.pos m2)).
  { rewrite Hm'. apply new_location_Inb; lia. }
  pose proof (@Zdigits2_bounds q ltac:(lia)) as Hdq.
  assert (Hn : 53 <= Zdigits2 q <= 54).
  { split.
    - destruct (Z_lt_le_dec (Zdigits2 q) 53); [|assumption].
      assert (2 ^ Zdigits2 q <= 2 ^ 52).
      { apply exp2_le; [|lia]. destruct q; try lia. simpl. lia. }
      lia.
    - destruct (Z_lt_le_dec 54 (Zdigits2 q)); [|assumption].
      assert (2 ^ 54 <= 2 ^ (Zdigits2 q - 1)) by (apply exp2_le; lia).
      lia. }
  destruct (@binary_round_aux_normal false q (e1 - e2 - 53)
              (new_location (Z.pos m2) r) m' (Z.pos m2)
              ltac:(lia) HI ltac:(lia) ltac:(lia) ltac:(lia))
    as (m & k & Hres & Hk & Hm & Herr).
  exists m, k. split; [exact Hres|]. split; [lia|]. split; [exact Hm|].
  pose proof (Inb_bounds HI) as HN.
  assert (Hpow : 2 ^ (Zdigits2 q - 1) = 2 ^ 52 * 2 ^ (Zdigits2 q - 53)).
  { rewrite <- Z.pow_add_r by lia. f_equal. lia. }
  assert (0 < 2 ^ (Zdigits2 q - 53)) by (apply exp2_pos; lia).
  set (P := 2 ^ (Zdigits2 q - 53)) in *.
  set (E := Z.abs _) in *.
  change (2 ^ 53) with (2 * 2 ^ 52) at 1.
  assert (2 ^ 52 * (P * Z.pos m2) <= m') by nia.
  nia.
Qed.

(** So is the product. *)
Lemma SFmul_normal (m1 m2 : positive) (e1 e2 : Z) :
  normalized m1 -> normalized m2 ->
  -1074 <= e1 + e2 + 52 -> e1 + e2 + 53 <= 970 ->
  exists (m : positive) (k : Z),
    SFmul prec emax (S754_finite false m1 e1) (S754_finite false m2 e2)
    = S754_finite false m (e1 + e2 + k)
    /\ 52 <= k <= 54
    /\ normalized m
    /\ 2 ^ 53 * Z.abs (Z.pos m * 2 ^ k - Z.pos m1 * Z.pos m2)
       <= Z.pos m1 * Z.pos m2.
Proof.
  intros H1 H2 Hlo Hhi. unfold SFmul. cbn [xorb].
  set (mx := Z.pos (m1 * m2)).
  assert (Emx : mx = Z.pos m1 * Z.pos m2) by reflexivity.
  unfold normalized in H1, H2.
  assert (Hmx : 2 ^ 104 <= mx < 2 ^ 106).
  { change (2 ^ 104) with (2 ^ 52 * 2 ^ 52).
    change (2 ^ 106) with (2 ^ 53 * 2 ^ 53). nia. }
  assert (HI : Inb mx loc_Exact mx 1) by (unfold Inb; lia).
  pose proof (@Zdigits2_bounds mx ltac:(lia)) as Hdq.
  assert (Hn : 105 <= Zdigits2 mx <= 106).
  { split.
    - destruct (Z_lt_le_dec (Zdigits2 mx) 105); [|assumption].
      assert (2 ^ Zdigits2 mx <= 2 ^ 104).
      { apply exp2_le; [|lia]. unfold mx. simpl. lia. }
      lia.
    - destruct (Z_lt_le_dec 106 (Zdigits2 mx)); [|assumption].
      assert (2 ^ 106 <= 2 ^ (Zdigits2 mx - 1)) by (apply exp2_le; lia).
      lia. }
  destruct (@binary_round_aux_normal false mx (e1 + e2) loc_Exact mx 1
              ltac:(lia) HI ltac:(lia) ltac:(lia) ltac:(lia))
    as (m & k & Hres & Hk & Hm & Herr).
  exists m, k. split; [exact Hres|]. split; [lia|]. split; [exact Hm|].
  rewrite <- Emx.
  assert (Hpow : 2 ^ (Zdigits2 mx - 1) = 2 ^ 52 * 2 ^ (Zdigits2 mx - 53)).
  { rewrite <- Z.pow_add_r by lia. f_equal. lia. }
  assert (0 < 2 ^ (Zdigits2 mx - 53)) by (apply exp2_pos; lia).
  set (P := 2 ^ (Zdigits2 mx - 53)) in *.
  replace (Z.pos m * 2 ^ k * 1 - mx) with (Z.pos m * 2 ^ k - mx) in Herr
    by ring.
  set (E := Z.abs _) in *.
  change (2 ^ 53) with (2 * 2 ^ 52) at 1.
  nia.
Qed.

(** ** Integers as numbers *)

Lemma Pos_iter_xO (p k : positive) :
  Z.pos (Pos.iter xO p k) = Z.pos p * 2 ^ Z.pos k.
Proof.
  induction k as [|k IH] using Pos.peano_ind.
  - cbn [Pos.iter]. change (2 ^ 1) with 2. lia.
  - rewrite Pos.iter_succ, Pos2Z.inj_xO, IH, Pos2Z.inj_succ.
    rewrite Z.pow_succ_r by lia. ring.
Qed.

(** The canonical form of a positive integer below 2^53. *)
Lemma binary_normalize_int (p : positive) :
  Z.pos p < 2 ^ 53 ->
  exists (m : positive) (e : Z),
    binary_normalize prec emax (Z.pos p) 0 false = S754_finite false m e
    /\ normalized m /\ -52 <= e <= 0 /\ Z.pos m = Z.pos p * 2 ^ (- e).
Proof.
  intros Hp. cbn [binary_normalize]. unfold binary_round.
  pose proof (digits2_pos_bounds p) as Hd.
  set (d := Z.pos (digits2_pos p)) in *.
  assert (Hd53 : 0 < d <= 53).
  { split; [unfold d; lia|].
    destruct (Z_lt_le_dec 53 d); [|assumption].
    assert (2 ^ 53 <= 2 ^ (d - 1)) by (apply exp2_le; lia). lia. }
  rewrite fexp_normal by lia. unfold shl_align.
  replace (d + 0 - 53) with (d - 53) by lia.
  replace (d - 53 - 0) with (d - 53) by lia.
  assert (Hround : forall mz : positive, normalized mz ->
            binary_round_aux prec emax false (Z.pos mz) (d - 53) loc_Exact
            = S754_finite false mz (d - 53)).
  { intros mz Hmz.
    assert (HI : Inb (Z.pos mz) loc_Exact (Z.pos mz) 1) by (unfold Inb; lia).
    pose proof (normal_digits Hmz) as Hdz.
    destruct (@binary_round_aux_normal false (Z.pos mz) (d - 53) loc_Exact
                (Z.pos mz) 1 ltac:(lia) HI ltac:(lia) ltac:(lia) ltac:(lia))
      as (m & k & Hres & Hk & Hm & Herr).
    rewrite Hdz in Hk, Herr. change (2 ^ (53 - 53) * 1) with 1 in Herr.
    unfold normalized in Hmz, Hm.
    assert (k = 0).
    { destruct (Z.eq_dec k 0); [assumption|]. assert (k = 1) by lia. subst k.
      change (2 ^ 1) with 2 in Herr. lia. }
    subst k. change (2 ^ 0) with 1 in Herr.
    rewrite Hres. f_equal; lia. }
  destruct (d - 53) as [|q|q] eqn:Ed.
  - exists p, 0. cbv beta iota. rewrite Hround.
    + repeat split; try lia.
      replace (d - 1) with 52 in Hd by lia. lia.
    + unfold normalized. replace (d - 1) with 52 in Hd by lia. lia.
  - lia.
  - exists (Pos.iter xO p q), (Z.neg q). cbv beta iota.
    assert (Hn : normalized (Pos.iter xO p q)).
    { unfold normalized. rewrite Pos_iter_xO.
      replace (2 ^ 52) with (2 ^ (d - 1) * 2 ^ Z.pos q)
        by (rewrite <- Z.pow_add_r by lia; f_equal; lia).
      replace (2 ^ 53) with (2 ^ d * 2 ^ Z.pos q)
        by (rewrite <- Z.pow_add_r by lia; f_equal; lia).
      assert (0 < 2 ^ Z.pos q) by (apply exp2_pos; lia). nia. }
    rewrite (Hround _ Hn).
    split; [reflexivity|]. split; [exact Hn|]. split; [lia|].
    apply Pos_iter_xO.
Qed.

(** The number of a positive integer below 2^53 is that integer. *)
Lemma Prim2SF_ofZ (b : Z) :
  0 < b < 2 ^ 53 ->
  exists (m : positive) (e : Z),
    Prim2SF (Number.ofZ b) = S754_finite false m e
    /\ normalized m /\ -52 <= e <= 0 /\ Z.pos m = b * 2 ^ (- e).
Proof.
  intros Hb. unfold Number.ofZ.
  replace (b <? 0) with false by (symmetry; apply Z.ltb_ge; lia).
  rewrite FloatAxioms.of_uint63_spec, Uint63.of_Z_spec.
  rewrite Z.mod_small.
  - destruct b as [|p|p]; try lia. apply binary_normalize_int. lia.
  - change Uint63.wB with (2 ^ 63). change (2 ^ 63) with (2 ^ 53 * 1024). lia.
Qed.

(** ** The computed percentage *)

(** Two relative errors of at most 2^-53 in a row: the arithmetic behind
    dividing, then multiplying by 100 (whose mantissa is 100 * 2^46). *)
Lemma chain_core (b t Eb Et mb mt mq K my K' : Z) :
  0 < b -> 0 < t -> 0 < Eb -> 0 < Et ->
  mb = b * Eb -> mt = t * Et ->
  0 < K -> 0 < K' -> 0 < mq -> 0 < my ->
  2 ^ 53 * Z.abs (mq * K * mt - mb * 2 ^ 53) <= mb * 2 ^ 53 ->
  2 ^ 53 * Z.abs (my * K' - mq * 7036874417766400)
  <= mq * 7036874417766400 ->
  7036874417766400 * (2 ^ 53 - 1) * (2 ^ 53 - 1) * (b * Eb)
  <= my * (K * K' * Et) * t * 2 ^ 53
  /\ my * (K * K' * Et) * t * 2 ^ 53
     <= 7036874417766400 * (2 ^ 53 + 1) * (2 ^ 53 + 1) * (b * Eb).
Proof.
  intros Hb Ht HEb HEt Emb Emt HK HK' Hmq Hmy Hq Hy.
  set (u := 2 ^ 53) in *. set (M := 7036874417766400) in *.
  assert (Hu : u = 9007199254740992) by reflexivity.
  assert (Hq1 : mb * (u - 1) <= mq * K * mt <= mb * (u + 1)) by nia.
  assert (Hy1 : mq * M * (u - 1) <= my * K' * u <= mq * M * (u + 1)) by nia.
  assert (HM : 0 < M) by (unfold M; lia).
  assert (E : my * (K * K' * Et) * t * u = K * mt * (my * K' * u))
    by (rewrite Emt; ring).
  rewrite E. rewrite <- Emb.
  assert (0 < K * mt) by nia.
  split.
  - apply Z.le_trans with (K * mt * (mq * M * (u - 1))).
    + replace (K * mt * (mq * M * (u - 1)))
        with (M * (u - 1) * (mq * K * mt)) by ring.
      replace (M * (u - 1) * (u - 1) * mb)
        with (M * (u - 1) * (mb * (u - 1))) by ring.
      apply Z.mul_le_mono_nonneg_l; [nia|lia].
    + apply Z.mul_le_mono_nonneg_l; lia.
  - apply Z.le_trans with (K * mt * (mq * M * (u + 1))).
    + apply Z.mul_le_mono_nonneg_l; lia.
    + replace (K * mt * (mq * M * (u + 1)))
        with (M * (u + 1) * (mq * K * mt)) by ring.
      replace (M * (u + 1) * (u + 1) * mb)
        with (M * (u + 1) * (mb * (u + 1))) by ring.
      apply Z.mul_le_mono_nonneg_l; [nia|lia].
Qed.

Lemma exp2_add (a b : Z) : 0 <= a -> 0 <= b -> 2 ^ (a + b) = 2 ^ a * 2 ^ b.
Proof.
  intros. apply Z.pow_add_r; lia.
Qed.

(** The number [bytes / total * 100] for integers [0 < bytes <= total]. *)
Lemma quotient_times_100 (b t : Z) :
  0 < b <= t -> t < 2 ^ 53 ->
  exists (my : positive) (ey : Z),
    Prim2SF (Number.ofZ b / Number.ofZ t * 100)%float
    = S754_finite false my ey
    /\ ey < 0
    /\ 100 * b * 2 ^ (- ey) * (2 ^ 51 - 1) <= Z.pos my * t * 2 ^ 51
    /\ Z.pos my * t * 2 ^ 51 <= 100 * b * 2 ^ (- ey) * (2 ^ 51 + 1).
Proof.
  intros Hb Ht.
  destruct (@Prim2SF_ofZ b ltac:(lia)) as (mb & eb & Eb & Hmb & Heb & Vb).
  destruct (@Prim2SF_ofZ t ltac:(lia)) as (mt & et & Et & Hmt & Het & Vt).
  rewrite FloatAxioms.mul_spec, FloatAxioms.div_spec, Eb, Et.
  destruct (@SFdiv_normal mb mt eb et Hmb Hmt ltac:(lia) ltac:(lia))
    as (mq & k & Eq & Hk & Hmq & Hq).
  unfold SF64div. rewrite Eq.
  change (Prim2SF 100) with (S754_finite false 7036874417766400 (-46)).
  assert (H100 : normalized 7036874417766400) by (unfold normalized; lia).
  destruct (@SFmul_normal mq 7036874417766400 (eb - et - 53 + k) (-46)
              Hmq H100 ltac:(lia) ltac:(lia))
    as (my & k' & Ey & Hk' & Hmy & Hy).
  unfold SF64mul. rewrite Ey.
  set (ey := eb - et - 53 + k + -46 + k').
  exists my, ey. split; [reflexivity|].
  assert (HEb : 0 < 2 ^ (- eb)) by (apply exp2_pos; lia).
  assert (HEt : 0 < 2 ^ (- et)) by (apply exp2_pos; lia).
  assert (HK : 0 < 2 ^ k) by (apply exp2_pos; lia).
  assert (HK' : 0 < 2 ^ k') by (apply exp2_pos; lia).
  destruct (@chain_core b t (2 ^ (- eb)) (2 ^ (- et)) (Z.pos mb) (Z.pos mt)
              (Z.pos mq) (2 ^ k) (Z.pos my) (2 ^ k')
              ltac:(lia) ltac:(lia) HEb HEt Vb Vt HK HK'
              ltac:(lia) ltac:(lia) Hq Hy) as [Hlo Hhi].
  assert (HW : 2 ^ k * 2 ^ k' * 2 ^ (- et) = 2 ^ (k + k' - et)).
  { rewrite <- !exp2_add by lia. f_equal; lia. }
  rewrite HW in Hlo, Hhi.
  unfold normalized in Hmy.
  assert (Hneg : ey < 0).
  { destruct (Z_lt_le_dec ey 0) as [|Hge]; [assumption|exfalso].
    assert (E : 2 ^ (k + k' - et) = 2 ^ ey * (2 ^ (- eb) * 2 ^ 99)).
    { rewrite <- !exp2_add by lia. f_equal; unfold ey; lia. }
    rewrite E in Hhi.
    assert (0 < 2 ^ ey) by (apply exp2_pos; lia).
    set (P := 2 ^ ey) in *. set (B := 2 ^ (- eb)) in *.
    assert (HtB : 0 < t * B) by nia.
    assert (H1 : Z.pos my * P * (2 ^ 99 * 2 ^ 53) * (t * B)
                 <= 7036874417766400 * (2 ^ 53 + 1) * (2 ^ 53 + 1) * (t * B)).
    { apply Z.le_trans
        with (7036874417766400 * (2 ^ 53 + 1) * (2 ^ 53 + 1) * (b * B)).
      - replace (Z.pos my * P * (2 ^ 99 * 2 ^ 53) * (t * B))
          with (Z.pos my * (P * (B * 2 ^ 99)) * t * 2 ^ 53) by ring.
        exact Hhi.
      - apply Z.mul_le_mono_nonneg_l; [lia|].
        apply Z.mul_le_mono_nonneg_r; lia. }
    apply Z.mul_le_mono_pos_r in H1; [|exact HtB].
    assert (2 ^ 52 <= Z.pos my * P) by nia.
    lia. }
  split; [exact Hneg|].
  assert (E : 2 ^ (- ey) * 2 ^ (k + k' - et) = 2 ^ (- eb) * 2 ^ 99).
  { rewrite <- !exp2_add by lia. f_equal; unfold ey; lia. }
  assert (Hd : 0 < 2 ^ (- ey)) by (apply exp2_pos; lia).
  set (d := 2 ^ (- ey)) in *. set (W := 2 ^ (k + k' - et)) in *.
  set (B := 2 ^ (- eb)) in *.
  assert (HW0 : 0 < W) by (unfold W; apply exp2_pos; lia).
  (* multiply the chain by d and cancel B * 2^99 *)
  assert (Hlo' : 7036874417766400 * (2 ^ 53 - 1) * (2 ^ 53 - 1) * (b * d)
                 <= Z.pos my * t * 2 ^ 53 * 2 ^ 99).
  { apply Z.mul_le_mono_pos_r with (p := B); [assumption|].
    replace (Z.pos my * t * 2 ^ 53 * 2 ^ 99 * B)
      with (Z.pos my * (d * W) * t * 2 ^ 53) by (rewrite E; ring).
    replace (7036874417766400 * (2 ^ 53 - 1) * (2 ^ 53 - 1) * (b * d) * B)
      with (d * (7036874417766400 * (2 ^ 53 - 1) * (2 ^ 53 - 1) * (b * B)))
      by ring.
    replace (Z.pos my * (d * W) * t * 2 ^ 53)
      with (d * (Z.pos my * W * t * 2 ^ 53)) by ring.
    apply Z.mul_le_mono_nonneg_l; [lia|exact Hlo]. }
  assert (Hhi' : Z.pos my * t * 2 ^ 53 * 2 ^ 99
                 <= 7036874417766400 * (2 ^ 53 + 1) * (2 ^ 53 + 1) * (b * d)).
  { apply Z.mul_le_mono_pos_r with (p := B); [assumption|].
    replace (Z.pos my * t * 2 ^ 53 * 2 ^ 99 * B)
      with (Z.pos my * (d * W) * t * 2 ^ 53) by (rewrite E; ring).
    replace (7036874417766400 * (2 ^ 53 + 1) * (2 ^ 53 + 1) * (b * d) * B)
      with (d * (7036874417766400 * (2 ^ 53 + 1) * (2 ^ 53 + 1) * (b * B)))
      by ring.
    replace (Z.pos my * (d * W) * t * 2 ^ 53)
      with (d * (Z.pos my * W * t * 2 ^ 53)) by ring.
    apply Z.mul_le_mono_nonneg_l; [lia|exact Hhi]. }
  assert (0 < b * d) by nia.
  set (X := Z.pos my * t) in *. set (Y := b * d) in *.
  replace (100 * b * d * (2 ^ 51 - 1)) with (100 * Y * (2 ^ 51 - 1))
    by (unfold Y; ring).
  replace (100 * b * d * (2 ^ 51 + 1)) with (100 * Y * (2 ^ 51 + 1))
    by (unfold Y; ring).
  clearbody X Y. clear -Hlo' Hhi' H.
  split; lia.
Qed.

(** The percentage the page computes for [bytes] out of [total], both
    integers: an integer within one half, and a relative 2^-51, of
    [100 * bytes / total]. *)
Lemma percentageOf_integers (b t : Z) :
  0 <= b <= t -> 0 < t < 2 ^ 53 ->
  exists n : Z,
    percentageOf (Number.ofZ t) (Number.ofZ b) = Number.ofZ n
    /\ (2 * n - 1) * t * 2 ^ 51 <= 200 * b * (2 ^ 51 + 1)
    /\ 200 * b * (2 ^ 51 - 1) < (2 * n + 1) * t * 2 ^ 51.
Proof.
  intros Hb Ht. destruct (Z.eq_dec b 0) as [->|Hb0].
  - exists 0. split; [|lia].
    destruct (@Prim2SF_ofZ t ltac:(lia)) as (mt & et & Et & _).
    assert (E : (Number.ofZ 0 / Number.ofZ t * 100)%float = 0%float).
    { apply Prim2SF_inj.
      rewrite FloatAxioms.mul_spec, FloatAxioms.div_spec, Et. reflexivity. }
    unfold percentageOf. rewrite E. reflexivity.
  - destruct (@quotient_times_100 b t ltac:(lia) ltac:(lia))
      as (my & ey & E & Hey & Hlo & Hhi).
    unfold percentageOf, Number.Math_round. rewrite E.
    replace (0 <=? ey) with false by (symmetry; apply Z.leb_gt; lia).
    rewrite andb_false_r.
    exists (Number.roundHalfUp false my ey). split; [reflexivity|].
    unfold Number.roundHalfUp. rewrite Z.shiftl_1_l.
    assert (Hd : 0 < 2 ^ (- ey)) by (apply exp2_pos; lia).
    set (d := 2 ^ (- ey)) in *.
    assert (H2d : 0 < 2 * d) by lia.
    pose proof (Z.mul_div_le (2 * Z.pos my + d) (2 * d) H2d) as H1.
    pose proof (Z.mul_succ_div_gt (2 * Z.pos my + d) (2 * d) H2d) as H2.
    set (n := (2 * Z.pos my + d) / (2 * d)) in *.
    split.
    + apply Z.mul_le_mono_pos_l with (p := d); [exact Hd|]. nia.
    + apply Z.mul_lt_mono_pos_l with (p := d); [exact Hd|]. nia.
Qed.

(** ** Sums of integers are exact *)

Lemma shl_align_fst (mx : positive) (ex ez : Z) :
  ez <= ex ->
  Z.pos (fst (shl_align mx ex ez)) = Z.pos mx * 2 ^ (ex - ez).
Proof.
  intros H. unfold shl_align. destruct (ez - ex) as [|d|d] eqn:E; cbn [fst].
  - replace (ex - ez) with 0 by lia. change (2 ^ 0) with 1. lia.
  - lia.
  - rewrite Pos_iter_xO. f_equal. f_equal. lia.
Qed.

Lemma normal_unique (S : Z) (m m' : positive) (j j' : Z) :
  0 <= j -> 0 <= j' -> normalized m -> normalized m' ->
  Z.pos m = S * 2 ^ j -> Z.pos m' = S * 2 ^ j' -> j = j' /\ m = m'.
Proof.
  intros Hj Hj' Hm Hm' E E'. unfold normalized in *.
  assert (HS : 0 < S).
  { assert (0 < 2 ^ j) by (apply exp2_pos; lia). nia. }
  assert (Hlt : forall a c, 0 <= a -> a < c ->
            2 ^ 52 <= S * 2 ^ a -> S * 2 ^ c < 2 ^ 53 -> False).
  { intros a c Ha Hac H1 H2.
    assert (2 * 2 ^ a <= 2 ^ c).
    { rewrite <- Z.pow_succ_r by lia. apply exp2_le; lia. }
    assert (0 < 2 ^ a) by (apply exp2_pos; lia).
    change (2 ^ 53) with (2 * 2 ^ 52) in H2. nia. }
  assert (j = j').
  { destruct (Z.lt_trichotomy j j') as [H|[H|H]]; [exfalso|exact H|exfalso].
    - apply (Hlt j j'); lia.
    - apply (Hlt j' j); lia. }
  subst j'. split; [reflexivity|]. lia.
Qed.

Lemma SFadd_integers (a b : Z) :
  0 < a -> 0 < b -> a + b < 2 ^ 53 ->
  SF64add (Prim2SF (Number.ofZ a)) (Prim2SF (Number.ofZ b))
  = Prim2SF (Number.ofZ (a + b)).
Proof.
  intros Ha Hb Hab.
  destruct (@Prim2SF_ofZ a ltac:(lia)) as (ma & ea & Ea & Hma & Hea & Va).
  destruct (@Prim2SF_ofZ b ltac:(lia)) as (mb & eb & Eb & Hmb & Heb & Vb).
  destruct (@Prim2SF_ofZ (a + b) ltac:(lia))
    as (ms & es & Es & Hms & Hes & Vs).
  rewrite Ea, Eb, Es. unfold SF64add, SFadd. cbn [cond_Zopp].
  set (ez := Z.min ea eb).
  rewrite !shl_align_fst by (unfold ez; lia).
  assert (Hez : -52 <= ez <= 0) by (unfold ez; lia).
  assert (HM : Z.pos ma * 2 ^ (ea - ez) + Z.pos mb * 2 ^ (eb - ez)
               = (a + b) * 2 ^ (- ez)).
  { rewrite Va, Vb, <- !Z.mul_assoc, <- !exp2_add by (unfold ez; lia).
    replace (- ea + (ea - ez)) with (- ez) by lia.
    replace (- eb + (eb - ez)) with (- ez) by lia. ring. }
  rewrite HM.
  assert (HP : 0 < 2 ^ (- ez)) by (apply exp2_pos; lia).
  unfold normalized in Hma, Hmb, Hms.
  assert (Hlow : 2 ^ 52 <= (a + b) * 2 ^ (- ez)).
  { rewrite <- HM.
    assert (0 < 2 ^ (ea - ez)) by (apply exp2_pos; unfold ez; lia).
    assert (0 < 2 ^ (eb - ez)) by (apply exp2_pos; unfold ez; lia).
    nia. }
  destruct ((a + b) * 2 ^ (- ez)) as [|pM|pM] eqn:EM; try lia.
  cbn [binary_normalize]. unfold binary_round.
  pose proof (digits2_pos_bounds pM) as Hd.
  set (dM := Z.pos (digits2_pos pM)) in *.
  assert (HdM : 53 <= dM <= 53 - ez).
  { split.
    - destruct (Z_lt_le_dec dM 53); [|assumption].
      assert (2 ^ dM <= 2 ^ 52) by (apply exp2_le; unfold dM; lia). lia.
    - destruct (Z_lt_le_dec (53 - ez) dM); [|lia].
      assert (2 ^ (53 - ez) <= 2 ^ (dM - 1)) by (apply exp2_le; lia).
      replace (53 - ez) with (53 + - ez) in H by lia.
      rewrite exp2_add in H by lia. nia. }
  rewrite fexp_normal by lia.
  assert (Hshl : shl_align pM ez (dM + ez - 53) = (pM, ez)).
  { unfold shl_align.
    destruct (dM + ez - 53 - ez) eqn:E; try reflexivity. lia. }
  rewrite Hshl.
  assert (HI : Inb (Z.pos pM) loc_Exact (Z.pos pM) 1) by (unfold Inb; lia).
  destruct (@binary_round_aux_normal false (Z.pos pM) ez loc_Exact
              (Z.pos pM) 1 ltac:(lia) HI
              ltac:(cbn [Zdigits2]; fold dM; lia)
              ltac:(cbn [Zdigits2]; fold dM; lia)
              ltac:(cbn [Zdigits2]; fold dM; lia))
    as (m & k & Hres & Hk & Hm & Herr).
  cbn [Zdigits2] in Hk, Herr. fold dM in Hk, Herr.
  rewrite Hres. unfold normalized in Hm.
  set (n := dM - 53) in *.
  (* the rounding is exact *)
  assert (Hexact : Z.pos m * 2 ^ k = Z.pos pM).
  { assert (E1 : 2 ^ (- ez) = 2 ^ (- ez - n) * 2 ^ n)
      by (rewrite <- exp2_add by (unfold n; lia); f_equal; lia).
    assert (E2 : 2 ^ k = 2 ^ (k - n) * 2 ^ n)
      by (rewrite <- exp2_add by (unfold n; lia); f_equal; lia).
    assert (HPn : 0 < 2 ^ n) by (apply exp2_pos; unfold n; lia).
    rewrite <- EM, E1, E2.
    rewrite <- EM, E1, E2 in Herr.
    set (X := Z.pos m * 2 ^ (k - n) - (a + b) * 2 ^ (- ez - n)).
    replace (Z.pos m * (2 ^ (k - n) * 2 ^ n) * 1
             - (a + b) * (2 ^ (- ez - n) * 2 ^ n))
      with (X * 2 ^ n) in Herr by (unfold X; ring).
    assert (HX : X = 0).
    { clearbody X. set (Pn := 2 ^ n) in *. clearbody Pn.
      clear -Herr HPn. nia. }
    unfold X in HX. 
    replace (Z.pos m * (2 ^ (k - n) * 2 ^ n))
      with ((Z.pos m * 2 ^ (k - n)) * 2 ^ n) by ring.
    replace ((a + b) * (2 ^ (- ez - n) * 2 ^ n))
      with (((a + b) * 2 ^ (- ez - n)) * 2 ^ n) by ring.
    f_equal. lia. }
  assert (Hk0 : ez + k <= 0).
  { destruct (Z_lt_le_dec 0 (ez + k)); [exfalso|assumption].
    assert (E : 2 ^ k = 2 ^ (ez + k) * 2 ^ (- ez))
      by (rewrite <- exp2_add by lia; f_equal; lia).
    assert (2 <= 2 ^ (ez + k)).
    { change 2 with (2 ^ 1) at 1. apply exp2_le; lia. }
    rewrite <- EM, E in Hexact. nia. }
  assert (Hval : Z.pos m = (a + b) * 2 ^ (- (ez + k))).
  { assert (E : 2 ^ (- ez) = 2 ^ (- (ez + k)) * 2 ^ k)
      by (rewrite <- exp2_add by lia; f_equal; lia).
    assert (0 < 2 ^ k) by (apply exp2_pos; lia).
    rewrite <- EM, E in Hexact. nia. }
  destruct (@normal_unique (a + b) m ms (- (ez + k)) (- es)
              ltac:(lia) ltac:(lia) Hm Hms Hval Vs) as [Ej Em].
  subst ms. f_equal. lia.
Qed.

Lemma ofZ_add (a b : Z) :
  0 <= a -> 0 <= b -> a + b < 2 ^ 53 ->
  (Number.ofZ a + Number.ofZ b)%float = Number.ofZ (a + b).
Proof.
  intros Ha Hb Hab. apply Prim2SF_inj. rewrite FloatAxioms.add_spec.
  destruct (Z.eq_dec a 0) as [->|Ha0], (Z.eq_dec b 0) as [->|Hb0].
  - reflexivity.
  - destruct (@Prim2SF_ofZ b ltac:(lia)) as (mb & eb & Eb & _).
    cbn [Z.add]. rewrite Eb. reflexivity.
  - destruct (@Prim2SF_ofZ a ltac:(lia)) as (ma & ea & Ea & _).
    rewrite Z.add_0_r, Ea. reflexivity.
  - apply SFadd_integers; lia.
Qed.

(** ** The breakdown of integer byte counts *)

Lemma fold_add_integers (l : list Z) : forall acc,
  0 <= acc -> Forall (fun x => 0 <= x) l -> acc + sumZ l < 2 ^ 53 ->
  fold_left (fun sum bytes => (sum + bytes)%float) (map Number.ofZ l)
            (Number.ofZ acc)
  = Number.ofZ (acc + sumZ l).
Proof.
  induction l as [|x l IH]; intros acc Hacc Hl Hsum.
  - cbn [sumZ fold_right map fold_left]. f_equal. lia.
  - inversion Hl as [|? ? Hx Hl']; subst.
    cbn [sumZ fold_right] in Hsum. fold (sumZ l) in Hsum.
    pose proof (sumZ_nonneg Hl').
    cbn [map fold_left]. rewrite ofZ_add by lia.
    rewrite IH; [|lia|exact Hl'|lia]. f_equal.
    cbn [sumZ fold_right]. fold (sumZ l). lia.
Qed.

Lemma map_snd_byteCounts (counts : list (string * Z)) :
  map snd (byteCounts counts) = map Number.ofZ (map snd counts).
Proof.
  unfold byteCounts. rewrite !map_map. apply map_ext. intros [name b].
  reflexivity.
Qed.

Lemma totalBytes_byteCounts (counts : list (string * Z)) :
  Forall (fun x => 0 <= x) (map snd counts) ->
  sumZ (map snd counts) < 2 ^ 53 ->
  totalBytes (byteCounts counts) = Number.ofZ (sumZ (map snd counts)).
Proof.
  intros Hnn Hsum. unfold totalBytes. rewrite map_snd_byteCounts.
  change 0%float with (Number.ofZ 0).
  rewrite fold_add_integers by (assumption || lia). reflexivity.
Qed.

(** ** From the bounds to the percentage *)

Lemma percentage_in_range (b t n : Z) :
  0 <= b <= t -> 0 < t ->
  (2 * n - 1) * t * 2 ^ 51 <= 200 * b * (2 ^ 51 + 1) ->
  200 * b * (2 ^ 51 - 1) < (2 * n + 1) * t * 2 ^ 51 ->
  0 <= n <= 100.
Proof.
  intros Hb Ht HU HL. split.
  - destruct (Z_lt_le_dec n 0) as [Hn|]; [exfalso|assumption].
    assert (n * t <= - t) by nia. lia.
  - destruct (Z_lt_le_dec 100 n) as [Hn|]; [exfalso|assumption].
    assert (101 * t <= n * t) by nia. lia.
Qed.

Lemma percentage_exact (b t n : Z) :
  0 <= b <= t -> 0 < t -> 200 * t < 2 ^ 51 ->
  (200 * b + t) mod (2 * t) <> 0 ->
  (2 * n - 1) * t * 2 ^ 51 <= 200 * b * (2 ^ 51 + 1) ->
  200 * b * (2 ^ 51 - 1) < (2 * n + 1) * t * 2 ^ 51 ->
  n = exactPercentage t b.
Proof.
  intros Hb Ht Hsmall Htie HU HL. unfold exactPercentage.
  pose proof (Z.div_mod (200 * b + t) (2 * t) ltac:(lia)) as Hdm.
  pose proof (Z.mod_pos_bound (200 * b + t) (2 * t) ltac:(lia)) as Hr.
  set (ne := (200 * b + t) / (2 * t)) in *.
  set (r := (200 * b + t) mod (2 * t)) in *.
  assert (H2 : 200 * b = 2 * (ne * t) + r - t) by lia.
  destruct (Z.lt_trichotomy n ne) as [Hlt|[Heq|Hgt]];
    [exfalso|exact Heq|exfalso].
  - assert (H1 : n * t <= ne * t - t) by nia. lia.
  - assert (H1 : ne * t + t <= n * t) by nia. lia.
Qed.

Lemma normalizeLanguages_byteCounts (counts : list (string * Z)) :
  Forall (fun x => 0 <= x) (map snd counts) ->
  sumZ (map snd counts) < 2 ^ 53 ->
  normalizeLanguages (byteCounts counts)
  = Array_sort byPercentageDesc (entriesOf (sumZ (map snd counts)) counts).
Proof.
  intros Hnn Hsum. rewrite normalizeLanguages_unfold.
  rewrite totalBytes_byteCounts by assumption.
  unfold byteCounts, entriesOf. rewrite map_map. f_equal.
  apply map_ext. intros [name b]. reflexivity.
Qed.

Lemma entriesOf_spec (total : Z) (counts : list (string * Z)) :
  0 < total < 2 ^ 53 ->
  Forall (fun x => 0 <= x <= total) (map snd counts) ->
  Forall2 (fun c l => entryFor total (fst c) (snd c) l)
          counts (entriesOf total counts).
Proof.
  intros Ht. induction counts as [|[name b] counts IH]; intros Hb.
  - constructor.
  - inversion Hb as [|? ? Hb1 Hb2]; subst. cbn [entriesOf map].
    constructor; [|apply IH, Hb2]. cbn [fst snd] in *.
    destruct (@percentageOf_integers b total Hb1 Ht) as (n & En & HU & HL).
    unfold percentageOf in En.
    pose proof (@percentage_in_range b total n Hb1 ltac:(lia) HU HL) as Hn.
    unfold entryFor. cbn [Language.name Language.percentage].
    rewrite En, (intValue_ofZ Hn).
    split; [reflexivity|]. split; [|split; assumption].
    split; [rewrite (intValue_ofZ Hn); exact Hn|].
    rewrite (intValue_ofZ Hn). reflexivity.
Qed.

Lemma entriesOf_sum (total : Z) (counts : list (string * Z)) :
  0 < total < 2 ^ 53 ->
  Forall (fun x => 0 <= x <= total) (map snd counts) ->
  let s := percentageSum (entriesOf total counts) in
  let L := Z.of_nat (List.length counts) in
  (2 * s - L) * total * 2 ^ 51 <= 200 * sumZ (map snd counts) * (2 ^ 51 + 1)
  /\ 200 * sumZ (map snd counts) * (2 ^ 51 - 1)
     <= (2 * s + L) * total * 2 ^ 51.
Proof.
  intros Ht Hb. pose proof (@entriesOf_spec total counts Ht Hb) as HF.
  induction HF as [|[name b] l counts ls Hl HF IH].
  - cbn. lia.
  - inversion Hb as [|? ? Hb1 Hb2]; subst. specialize (IH Hb2).
    cbn zeta in IH |- *.
    cbn [percentageSum fold_right map snd sumZ List.length].
    fold (percentageSum ls). fold (sumZ (map snd counts)).
    destruct Hl as (_ & _ & HU & HL). cbn [fst snd] in HU, HL.
    rewrite Nat2Z.inj_succ.
    set (n := intValue (Language.percentage l)) in *.
    set (s := percentageSum ls) in *.
    set (S := sumZ (map snd counts)) in *.
    set (L := Z.of_nat (List.length counts)) in *.
    destruct IH as [IH1 IH2].
    split.
    + replace ((2 * (n + s) - Z.succ L) * total * 2 ^ 51)
        with ((2 * n - 1) * total * 2 ^ 51 + (2 * s - L) * total * 2 ^ 51)
        by ring.
      replace (200 * (b + S) * (2 ^ 51 + 1))
        with (200 * b * (2 ^ 51 + 1) + 200 * S * (2 ^ 51 + 1)) by ring.
      lia.
    + replace ((2 * (n + s) + Z.succ L) * total * 2 ^ 51)
        with ((2 * n + 1) * total * 2 ^ 51 + (2 * s + L) * total * 2 ^ 51)
        by ring.
      replace (200 * (b + S) * (2 ^ 51 - 1))
        with (200 * b * (2 ^ 51 - 1) + 200 * S * (2 ^ 51 - 1)) by ring.
      lia.
Qed.

(** ** The breakdown, for byte counts *)

Lemma Forall2_In_r {A B} (R : A -> B -> Prop) (la : list A) (lb : list B) :
  Forall2 R la lb -> forall y, In y lb -> exists x, In x la /\ R x y.
Proof.
  induction 1 as [|x y la lb Hxy _ IH]; intros z Hz; [contradiction|].
  destruct Hz as [->|Hz].
  - exists x. split; [left; reflexivity | exact Hxy].
  - destruct (IH z Hz) as (x' & Hin & HR). exists x'. split; [right|]; auto.
Qed.

Lemma counts_bounded (counts : list (string * Z)) :
  Forall (fun x => 0 <= x) (map snd counts) ->
  Forall (fun x => 0 <= x <= sumZ (map snd counts)) (map snd counts).
Proof.
  intros Hnn. apply Forall_forall. intros b Hin. split.
  - rewrite Forall_forall in Hnn. apply Hnn, Hin.
  - apply sumZ_member_le; assumption.
Qed.

(** C5, as the code has it.  For byte counts that are non-negative
    integers with a positive total below 2^53, the breakdown is the list of
    entries [Math.round(bytes / total * 100)], computed in binary64, put in
    descending order of percentage by a stable sort.  Every percentage is
    one of 0, ..., 100 and is within one half, plus a relative 2^-51, of
    [100 * bytes / total]; with [200 * total < 2^51] it is exactly
    [100 * bytes / total] rounded to the nearest integer unless that value
    lies half-way between two integers.  For TypeScript 300 and
    JavaScript 100 the breakdown is TypeScript 75, JavaScript 25. *)
Theorem normalizeLanguages_of_byte_counts (counts : list (string * Z)) :
  let total := sumZ (map snd counts) in
  let out := normalizeLanguages (byteCounts counts) in
  Forall (fun x => 0 <= x) (map snd counts) ->
  0 < total < 2 ^ 53 ->
  Permutation out (entriesOf total counts)
  /\ StronglySorted descending out
  /\ (forall k,
        filter (fun l => intValue (Language.percentage l) =? k) out
        = filter (fun l => intValue (Language.percentage l) =? k)
                 (entriesOf total counts))
  /\ (forall l, In l out ->
        exists bytes,
          In (Language.name l, bytes) counts
          /\ entryFor total (Language.name l) bytes l
          /\ (200 * total < 2 ^ 51 -> ~ isTie total bytes ->
              intValue (Language.percentage l)
              = exactPercentage total bytes))
  /\ normalizeLanguages
       (byteCounts [("TypeScript"%string, 300); ("JavaScript"%string, 100)])
     = [Language.mk "TypeScript" 75%float; Language.mk "JavaScript" 25%float].
Proof.
  intros total out Hnn Ht.
  assert (Hout : out = Array_sort byPercentageDesc (entriesOf total counts)).
  { apply normalizeLanguages_byteCounts; [exact Hnn | apply Ht]. }
  pose proof (@entriesOf_spec total counts Ht (@counts_bounded counts Hnn))
    as HF.
  assert (Hdom : Forall (fun l => isPercentage (Language.percentage l))
                   (entriesOf total counts)).
  { apply Forall_forall. intros l Hl.
    destruct (Forall2_In_r HF l Hl) as (c & _ & HR). apply HR. }
  destruct (Array_sort_percentages Hdom) as [Hsorted Hstable].
  rewrite <- Hout in Hsorted, Hstable.
  split; [rewrite Hout; apply Array_sort_perm|].
  split; [exact Hsorted|]. split; [exact Hstable|]. split.
  - intros l Hl.
    assert (Hl' : In l (entriesOf total counts)).
    { eapply Permutation_in; [|exact Hl]. rewrite Hout.
      apply Array_sort_perm. }
    destruct (Forall2_In_r HF l Hl') as ([name bytes] & Hin & HR).
    cbn [fst snd] in HR. exists bytes.
    assert (Ename : Language.name l = name) by apply HR.
    rewrite Ename. split; [exact Hin|]. split; [exact HR|].
    intros Hsmall Htie. destruct HR as (_ & _ & HU & HL).
    pose proof (@counts_bounded counts Hnn) as Hb. rewrite Forall_forall in Hb.
    apply (@percentage_exact bytes total); try assumption; try lia.
    apply Hb. apply (in_map snd) in Hin. exact Hin.
  - vm_compute. reflexivity.
Qed.

Lemma normalizeLanguages_of_byte_counts_witness :
  let counts := [("JavaScript"%string, 100); ("TypeScript"%string, 300)] in
  StronglySorted descending (normalizeLanguages (byteCounts counts))
  /\ map Language.name (normalizeLanguages (byteCounts counts))
     = ["TypeScript"%string; "JavaScript"%string].
Proof.
  assert (Hnn : Forall (fun x => 0 <= x)
                  (map snd [("JavaScript"%string, 100);
                            ("TypeScript"%string, 300)])).
  { cbn [map snd]. repeat (apply Forall_cons; [lia|]). apply Forall_nil. }
  assert (Ht : 0 < sumZ (map snd [("JavaScript"%string, 100);
                                  ("TypeScript"%string, 300)]) < 2 ^ 53).
  { vm_compute. split; reflexivity. }
  destruct (@normalizeLanguages_of_byte_counts
              [("JavaScript"%string, 100); ("TypeScript"%string, 300)]
              Hnn Ht) as (_ & Hs & _).
  split; [exact Hs | reflexivity].
Defined.

(** C6, as the code has it.  For byte counts that are non-negative
    integers with a positive total below 2^53, the percentages of the
    breakdown add up to 100 within half a point per language: twice their
    sum lies between 200 minus and 200 plus the number of languages. *)
Theorem percentageSum_near_100 (counts : list (string * Z)) :
  let total := sumZ (map snd counts) in
  let s := percentageSum (normalizeLanguages (byteCounts counts)) in
  let languages := Z.of_nat (List.length counts) in
  Forall (fun x => 0 <= x) (map snd counts) ->
  0 < total < 2 ^ 53 ->
  200 - languages <= 2 * s <= 200 + languages.
Proof.
  intros total s languages Hnn Ht.
  assert (Hs : s = percentageSum (entriesOf total counts)).
  { unfold s. rewrite normalizeLanguages_byteCounts by (assumption || lia).
    apply percentageSum_perm, Array_sort_perm. }
  destruct (@entriesOf_sum total counts Ht (@counts_bounded counts Hnn))
    as [HU HL].
  rewrite <- Hs in HU, HL. fold total languages in HU, HL.
  assert (HU' : (2 * s - languages) * 2 ^ 51 <= 200 * (2 ^ 51 + 1)).
  { apply Z.mul_le_mono_pos_r with (p := total); [lia|].
    replace ((2 * s - languages) * 2 ^ 51 * total)
      with ((2 * s - languages) * total * 2 ^ 51) by ring.
    replace (200 * (2 ^ 51 + 1) * total)
      with (200 * total * (2 ^ 51 + 1)) by ring.
    exact HU. }
  assert (HL' : 200 * (2 ^ 51 - 1) <= (2 * s + languages) * 2 ^ 51).
  { apply Z.mul_le_mono_pos_r with (p := total); [lia|].
    replace ((2 * s + languages) * 2 ^ 51 * total)
      with ((2 * s + languages) * total * 2 ^ 51) by ring.
    replace (200 * (2 ^ 51 - 1) * total)
      with (200 * total * (2 ^ 51 - 1)) by ring.
    exact HL. }
  lia.
Qed.

Lemma percentageSum_near_100_witness :
  let counts := [("A"%string, 3); ("B"%string, 3); ("C"%string, 2)] in
  200 - 3 <= 2 * percentageSum (normalizeLanguages (byteCounts counts))
  <= 200 + 3.
Proof.
  assert (Hnn : Forall (fun x => 0 <= x)
                  (map snd [("A"%string, 3); ("B"%string, 3);
                            ("C"%string, 2)])).
  { cbn [map snd]. repeat (apply Forall_cons; [lia|]). apply Forall_nil. }
  assert (Ht : 0 < sumZ (map snd [("A"%string, 3); ("B"%string, 3);
                                  ("C"%string, 2)]) < 2 ^ 53).
  { vm_compute. split; reflexivity. }
  exact (@percentageSum_near_100
           [("A"%string, 3); ("B"%string, 3); ("C"%string, 2)] Hnn Ht).
Defined.

(** ** More on the breakdown *)

(** X27.  The breakdown has one entry for each language of the map, under
    its name: no name is lost, invented or repeated by the sort, whatever
    the byte counts are. *)
Theorem normalizeLanguages_keeps_names (languages : list (string * float)) :
  Permutation (map Language.name (normalizeLanguages languages))
              (map fst languages)
  /\ List.length (normalizeLanguages languages) = List.length languages.
Proof.
  rewrite normalizeLanguages_unfold.
  set (entries := map _ languages).
  assert (Hnames : map Language.name entries = map fst languages).
  { unfold entries. rewrite map_map. apply map_ext. intros [name bytes].
    reflexivity. }
  assert (Hperm : Permutation (Array_sort byPercentageDesc entries) entries)
    by apply Array_sort_perm.
  split.
  - rewrite <- Hnames. apply Permutation_map. exact Hperm.
  - rewrite (Permutation_length Hperm). unfold entries. apply length_map.
Qed.

Lemma Array_sort_nan (entries : list Language.t) :
  Forall (fun l => Language.percentage l = nan) entries ->
  Array_sort byPercentageDesc entries = entries.
Proof.
  induction 1 as [|x l Hx Hl IH]; [reflexivity|].
  cbn [Array_sort fold_right]. fold (Array_sort byPercentageDesc l).
  rewrite IH. destruct Hl as [|y l Hy Hl]; [reflexivity|].
  cbn [Array_insert]. unfold byPercentageDesc. rewrite Hx, Hy.
  reflexivity.
Qed.

(** X28.  A zero total is not guarded: when every language of the map has
    zero bytes, every percentage is [NaN], and the languages stay in the
    order of the map. *)
Theorem normalizeLanguages_zero_total (languages : list (string * float)) :
  Forall (fun entry => snd entry = 0%float) languages ->
  normalizeLanguages languages
  = map (fun entry => Language.mk (fst entry) nan) languages.
Proof.
  intros Hzero.
  assert (Htotal : totalBytes languages = 0%float).
  { unfold totalBytes.
    assert (H : forall acc, acc = 0%float ->
                fold_left (fun sum bytes => (sum + bytes)%float)
                          (map snd languages) acc = 0%float).
    { induction Hzero as [|entry l He Hl IH]; intros acc ->; [reflexivity|].
      cbn [map fold_left]. apply IH. rewrite He. reflexivity. }
    apply H. reflexivity. }
  rewrite normalizeLanguages_unfold, Htotal.
  assert (Hentries :
            map (fun '(name, bytes) =>
                   Language.mk name (percentageOf 0 bytes)) languages
            = map (fun entry => Language.mk (fst entry) nan) languages).
  { apply map_ext_in. intros [name bytes] Hin.
    rewrite Forall_forall in Hzero. specialize (Hzero _ Hin).
    cbn [snd fst] in *. subst bytes. reflexivity. }
  rewrite Hentries. apply Array_sort_nan.
  apply Forall_map. apply Forall_forall. intros entry _. reflexivity.
Qed.

Lemma normalizeLanguages_zero_total_witness :
  normalizeLanguages [("Go"%string, 0%float); ("C"%string, 0%float)]
  = [Language.mk "Go" nan; Language.mk "C" nan].
Proof.
  apply (@normalizeLanguages_zero_total
           [("Go"%string, 0%float); ("C"%string, 0%float)]).
  repeat (apply Forall_cons; [reflexivity|]). apply Forall_nil.
Defined.

Lemma percentage_of_bounds (t b n : Z) (x : float) :
  0 < t -> 0 <= b <= t ->
  isPercentage x -> intValue x = n ->
  (2 * n - 1) * t * 2 ^ 51 <= 200 * b * (2 ^ 51 + 1) ->
  200 * b * (2 ^ 51 - 1) < (2 * n + 1) * t * 2 ^ 51 ->
  (b = 0 -> x = 0%float) /\ (b = t -> x = 100%float).
Proof.
  intros Ht Hb [Hrange Hx] Hn HU HL. subst n.
  set (n := intValue x) in *. clearbody n.
  split; intros ->.
  - assert (E : n = 0) by nia. rewrite Hx, E. reflexivity.
  - assert (H1 : (2 * n - 1) * 2 ^ 51 <= 200 * (2 ^ 51 + 1)) by nia.
    assert (H2 : 200 * (2 ^ 51 - 1) < (2 * n + 1) * 2 ^ 51) by nia.
    assert (E : n = 100) by lia. rewrite Hx, E. reflexivity.
Qed.

(** X29.  The ends of the scale, for byte counts that are non-negative
    integers with a total between 1 and 2^53: a language with no bytes is
    given 0, a language with all the bytes 100; a repository in one
    language shows it at 100. *)
Theorem percentage_extremes (counts : list (string * Z)) :
  let total := sumZ (map snd counts) in
  let out := normalizeLanguages (byteCounts counts) in
  Forall (fun x => 0 <= x) (map snd counts) ->
  0 < total < 2 ^ 53 ->
  (forall l, In l out ->
     exists bytes,
       In (Language.name l, bytes) counts
       /\ (bytes = 0 -> Language.percentage l = 0%float)
       /\ (bytes = total -> Language.percentage l = 100%float))
  /\ (forall name bytes,
        counts = [(name, bytes)] -> out = [Language.mk name 100%float]).
Proof.
  intros total out Hnn Ht.
  assert (Hout : out = Array_sort byPercentageDesc (entriesOf total counts)).
  { apply normalizeLanguages_byteCounts; [exact Hnn|lia]. }
  pose proof (@counts_bounded counts Hnn) as Hb. fold total in Hb.
  pose proof (@entriesOf_spec total counts Ht Hb) as HF.
  assert (Hall : forall l, In l out ->
            exists bytes,
              In (Language.name l, bytes) counts
              /\ (bytes = 0 -> Language.percentage l = 0%float)
              /\ (bytes = total -> Language.percentage l = 100%float)).
  { intros l Hl.
    assert (Hl' : In l (entriesOf total counts)).
    { eapply Permutation_in; [|exact Hl]. rewrite Hout.
      apply Array_sort_perm. }
    destruct (Forall2_In_r HF l Hl') as ([name bytes] & Hin & HR).
    cbn [fst snd] in HR. destruct HR as (Ename & Hpct & HU & HL).
    exists bytes. rewrite Ename. split; [exact Hin|].
    rewrite Forall_forall in Hb.
    apply (@percentage_of_bounds total bytes
             (intValue (Language.percentage l)));
      try assumption; try lia; try reflexivity.
    apply Hb. apply (in_map snd) in Hin. exact Hin. }
  split; [exact Hall|].
  intros name bytes Hcounts.
  assert (Hlen : List.length out = 1%nat).
  { rewrite Hout, (Permutation_length (Array_sort_perm _ _)).
    unfold entriesOf. rewrite length_map, Hcounts. reflexivity. }
  destruct out as [|l [|l' out']]; try discriminate Hlen.
  destruct (Hall l (or_introl eq_refl)) as (bytes' & Hin & _ & H100).
  rewrite Hcounts in Hin. destruct Hin as [Hin|[]].
  injection Hin as Ename Ebytes. subst bytes'.
  assert (Etotal : bytes = total).
  { unfold total. rewrite Hcounts. cbn. lia. }
  destruct l as [lname lpct]. cbn in Ename, H100. subst lname.
  rewrite (H100 Etotal). reflexivity.
Qed.

Lemma percentage_extremes_witness :
  normalizeLanguages (byteCounts [("Rust"%string, 4096)])
  = [Language.mk "Rust" 100%float].
Proof.
  assert (Hnn : Forall (fun x => 0 <= x) (map snd [("Rust"%string, 4096)])).
  { cbn [map snd]. repeat (apply Forall_cons; [lia|]). apply Forall_nil. }
  assert (Ht : 0 < sumZ (map snd [("Rust"%string, 4096)]) < 2 ^ 53).
  { cbn. lia. }
  exact (proj2 (@percentage_extremes [("Rust"%string, 4096)] Hnn Ht)
               "Rust"%string 4096 eq_refl).
Defined.

Lemma normalizeLanguages_sorted (counts : list (string * Z)) :
  Forall (fun x => 0 <= x) (map snd counts) ->
  0 < sumZ (map snd counts) < 2 ^ 53 ->
  StronglySorted descending (normalizeLanguages (byteCounts counts)).
Proof.
  intros Hnn Ht.
  rewrite normalizeLanguages_byteCounts; [|exact Hnn|lia].
  pose proof (@counts_bounded counts Hnn) as Hb.
  pose proof (@entriesOf_spec _ counts Ht Hb) as HF.
  apply Array_sort_percentages.
  apply Forall_forall. intros l Hl.
  destruct (Forall2_In_r HF l Hl) as (c & _ & HR). apply HR.
Qed.

Lemma StronglySorted_firstn_skipn {A} (R : A -> A -> Prop) (k : nat)
    (l : list A) :
  StronglySorted R l ->
  forall x y, In x (firstn k l) -> In y (skipn k l) -> R x y.
Proof.
  intros Hs. revert k. induction Hs as [|a l Hs IH Ha]; intros k x y Hx Hy.
  - destruct k; destruct Hx.
  - destruct k as [|k]; [destruct Hx|].
    cbn in Hx, Hy. destruct Hx as [<-|Hx].
    + rewrite Forall_forall in Ha. apply Ha.
      rewrite <- (firstn_skipn k l). apply in_app_iff. right. exact Hy.
    + exact (IH k x y Hx Hy).
Qed.

(** X30.  The language bar of a discovered project, for byte counts that
    are non-negative integers with a total between 1 and 2^53: there is a
    bar; no language left out of its five segments has a larger percentage
    than a language shown; and the name under the bar is that of a
    language with the largest percentage. *)
Theorem language_bar_shows_largest (repo : GitHubRepo.t)
    (details : RepoDetails.t) (counts : list (string * Z)) :
  let project := projectOf repo details in
  RepoDetails.languages details = byteCounts counts ->
  Forall (fun x => 0 <= x) (map snd counts) ->
  0 < sumZ (map snd counts) < 2 ^ 53 ->
  ProjectCard.hasBar project = true
  /\ (forall shown hidden,
        In shown (ProjectCard.barLanguages project) ->
        In hidden (skipn 5 (Project.languages project)) ->
        intValue (Language.percentage hidden)
        <= intValue (Language.percentage shown))
  /\ (exists first,
        nth_error (Project.languages project) 0 = Some first
        /\ ProjectCard.barLabel project = Some (Language.name first)
        /\ forall l, In l (Project.languages project) ->
                     intValue (Language.percentage l)
                     <= intValue (Language.percentage first)).
Proof.
  intros project Hlang Hnn Ht.
  assert (Hlangs : Project.languages project
                   = normalizeLanguages (byteCounts counts)).
  { unfold project. cbn. rewrite Hlang. reflexivity. }
  pose proof (@normalizeLanguages_sorted counts Hnn Ht) as Hsorted.
  rewrite <- Hlangs in Hsorted.
  assert (Hlen : List.length (Project.languages project)
                 = List.length counts).
  { rewrite Hlangs, normalizeLanguages_unfold.
    rewrite (Permutation_length (Array_sort_perm _ _)).
    unfold byteCounts. rewrite !length_map. reflexivity. }
  assert (Hcounts : counts <> []).
  { intros ->. cbn in Ht. lia. }
  unfold ProjectCard.hasBar, ProjectCard.barLanguages, ProjectCard.barLabel.
  split; [|split].
  - rewrite Hlen. destruct counts; [destruct (Hcounts eq_refl)|reflexivity].
  - intros shown hidden Hshown Hhidden.
    exact (@StronglySorted_firstn_skipn _ descending 5%nat _ Hsorted
             shown hidden Hshown Hhidden).
  - destruct (Project.languages project) as [|first rest] eqn:E.
    + destruct counts; [destruct (Hcounts eq_refl)|discriminate Hlen].
    + exists first. split; [reflexivity|]. split; [reflexivity|].
      intros l [<-|Hl]; [lia|].
      inversion Hsorted as [|? ? _ Hfirst]; subst.
      rewrite Forall_forall in Hfirst. exact (Hfirst l Hl).
Qed.

Lemma language_bar_shows_largest_witness :
  let counts := [("CSS"%string, 100); ("TypeScript"%string, 300)] in
  let project := projectOf (Sample.repo 7 "octocat/hello" "hello")
                           (Sample.details (byteCounts counts)) in
  ProjectCard.hasBar project = true
  /\ ProjectCard.barLabel project = Some "TypeScript"%string.
Proof.
  cbv zeta.
  assert (Hnn : Forall (fun x => 0 <= x)
                  (map snd [("CSS"%string, 100);
                            ("TypeScript"%string, 300)])).
  { cbn [map snd]. repeat (apply Forall_cons; [lia|]). apply Forall_nil. }
  assert (Ht : 0 < sumZ (map snd [("CSS"%string, 100);
                                  ("TypeScript"%string, 300)]) < 2 ^ 53).
  { cbn. lia. }
  split.
  - exact (proj1 (@language_bar_shows_largest
                    (Sample.repo 7 "octocat/hello" "hello")
                    (Sample.details
                       (byteCounts [("CSS"%string, 100);
                                    ("TypeScript"%string, 300)]))
                    _ eq_refl Hnn Ht)).
  - vm_compute. reflexivity.
Defined.
